(** * laItqLsh: the ITQ hashing index of include/lshbox/lsh/laitqlsh.h

    A shallow embedding of the class [lshbox::laItqLsh<float>] and the
    properties of its hasher, bucket index, query strategies and codec.

    Conventions of the embedding.
    - An [unsigned] is a [Z] in [0, 2^32); arithmetic on it is written with
      its wrap-around ([wrap32]).  An [int] is a [Z] in [-2^31, 2^31).
    - A [float] is an IEEE-754 binary32 value, a [spec_float] operated on with
      the operations of [SpecFloat] at precision 24 and maximal exponent 128
      (round to nearest even, one rounding for each operation, no contraction).
    - A [std::vector] is a [list]; reading or writing outside of it is
      undefined behaviour, the outcome [Undefined].
    - A [std::map<unsigned, std::vector<unsigned>>] is an association list
      kept in strictly ascending key order, which is the order its iterators
      enumerate.
    - A failed [assert] is the outcome [AssertFail] (assertions compiled in).
    - The scanner, the multi-probe generator of probing.h and [std::sort] are
      collaborators outside of the class: the first is recorded as the trace
      of calls it receives, the other two are interfaces. *)

From Stdlib Require Import ZArith Lia List Bool.
From Stdlib Require Import Floats.SpecFloat.
From Stdlib Require Import Sorting.Sorted Sorting.Permutation.
From stdpp Require Import base tactics option list sorting.

Local Open Scope Z_scope.

(** ** Outcomes *)

Inductive result (A : Type) : Type :=
| Ok (a : A)
| AssertFail
| Undefined
| OutOfFuel.

Arguments Ok {A} a.
Arguments AssertFail {A}.
Arguments Undefined {A}.
Arguments OutOfFuel {A}.

#[global] Instance result_ret : MRet result := fun A a => Ok a.

#[global] Instance result_bind : MBind result := fun A B f m =>
  match m with
  | Ok a => f a
  | AssertFail => AssertFail
  | Undefined => Undefined
  | OutOfFuel => OutOfFuel
  end.

(** [v[i]] on a vector: defined inside the vector only. *)
Definition at_ {A : Type} (v : list A) (i : nat) : result A :=
  match v !! i with
  | Some x => Ok x
  | None => Undefined
  end.

(** [assert(b)]. *)
Definition assert_ (b : bool) : result unit :=
  if b then Ok tt else AssertFail.

(** A counted loop [for (i = from; i != from + n; ++i) s = body(i, s)]. *)
Fixpoint for_ {St : Type} (n : nat) (from : nat)
    (body : nat → St → result St) (s : St) : result St :=
  match n with
  | O => Ok s
  | S n' => s' ← body from s; for_ n' (S from) body s'
  end.

(** A loop over the elements of a container, in iteration order. *)
Fixpoint foreach_ {A St : Type} (l : list A)
    (body : A → St → result St) (s : St) : result St :=
  match l with
  | [] => Ok s
  | x :: l' => s' ← body x s; foreach_ l' body s'
  end.

(** A [while] loop; [fuel] bounds the number of iterations of the model and
    is chosen above the number the program can make. *)
Fixpoint while_ {St : Type} (fuel : nat) (cond : St → result bool)
    (body : St → result St) (s : St) : result St :=
  c ← cond s;
  if c : bool then
    match fuel with
    | O => OutOfFuel
    | S fuel' => s' ← body s; while_ fuel' cond body s'
    end
  else Ok s.

(** Reading the first [n] elements of a vector through [&v[0]]. *)
Definition read_n {A : Type} (v : list A) (n : nat) : result (list A) :=
  if (n <=? length v)%nat then Ok (take n v) else Undefined.

(** [v.resize(n)], new elements being [x]. *)
Definition resize_ {A : Type} (n : nat) (x : A) (v : list A) : list A :=
  take n v ++ replicate (n - length v) x.

(** ** Machine integers *)

Definition wrap32 (z : Z) : Z := z mod 2 ^ 32.

Definition is_u32 (z : Z) : Prop := 0 ≤ z < 2 ^ 32.

Definition is_int (z : Z) : Prop := - 2 ^ 31 ≤ z < 2 ^ 31.

(** Conversion of an [unsigned] to [int]. *)
Definition toInt (z : Z) : Z := if z <? 2 ^ 31 then z else z - 2 ^ 32.

(** ** Single-precision floats *)

Abbreviation float := spec_float.

Definition fzero : float := S754_zero false.
Definition fadd : float → float → float := SFadd 24 128.
Definition fmul : float → float → float := SFmul 24 128.
Definition fabs : float → float := SFabs.
(** [a < b] and [a <= b] on floats; both are false on a NaN. *)
Definition flt : float → float → bool := SFltb.
Definition fle : float → float → bool := SFleb.

Definition is_nan (x : float) : bool :=
  match x with
  | S754_nan => true
  | _ => false
  end.

Definition is_fzero (x : float) : bool :=
  match x with
  | S754_zero _ => true
  | _ => false
  end.

(** ** The index *)

Module Param.
Record t : Type := mk {
  M : Z;  (* hash table size *)
  L : Z;  (* number of hash tables *)
  D : Z;  (* dimension of the vectors *)
  N : Z;  (* binary code length *)
  S : Z;  (* size of the training sample *)
  I : Z   (* training iterations *)
}.
End Param.

(** [std::map<unsigned, std::vector<unsigned>>]. *)
Definition bucketMap : Type := list (Z * list Z).

Record laItqLsh : Type := mkIndex {
  param : Param.t;
  pcsAll : list (list (list float));
  omegasAll : list (list (list float));
  rndArray : list (list Z);
  tables : list bucketMap;
  meanAndSTD : list (list float)
}.

Definition set_tables (idx : laItqLsh) (ts : list bucketMap) : laItqLsh :=
  mkIndex (param idx) (pcsAll idx) (omegasAll idx) (rndArray idx) ts
          (meanAndSTD idx).

(** *** Operations of the map *)

(** [m.find(key)]: the posting list stored under [key], if any. *)
Fixpoint bm_find (m : bucketMap) (key : Z) : option (list Z) :=
  match m with
  | [] => None
  | (k, v) :: m' => if key =? k then Some v else bm_find m' key
  end.

(** [m[key].push_back(item)]: [operator[]] creates the empty posting list at
    the key's place in the order when the key is new. *)
Fixpoint bm_push_back (m : bucketMap) (key item : Z) : bucketMap :=
  match m with
  | [] => [(key, [item])]
  | (k, v) :: m' =>
      if key <? k then (key, [item]) :: m
      else if key =? k then (k, v ++ [item]) :: m'
      else (k, v) :: bm_push_back m' key item
  end.

(** [m[key].resize(length)] followed by a read of [length] items into it:
    whatever the list held before, it now holds exactly [items]. *)
Fixpoint bm_assign (m : bucketMap) (key : Z) (items : list Z) : bucketMap :=
  match m with
  | [] => [(key, items)]
  | (k, v) :: m' =>
      if key <? k then (key, items) :: m
      else if key =? k then (k, items) :: m'
      else (k, v) :: bm_assign m' key items
  end.

Definition bm_keys (m : bucketMap) : list Z := map fst m.

(** ** Hasher *)

(** The inner accumulation loop shared by both stages of the hasher,
    [for (j = 0; j != row.size(); ++j) acc += vec[j] * row[j]]. *)
Fixpoint accumulate (vec row : list float) (j : nat) (acc : float)
  : result float :=
  match row with
  | [] => Ok acc
  | w :: row' =>
      x ← at_ vec j;
      accumulate vec row' (S j) (fadd acc (fmul x w))
  end.

(** First loop nest of [getHashVal] and [getHashFloats]: the PCA
    coordinates [domin_pc], one for each row of [pcsAll[k]]. *)
Fixpoint project (domin : list float) (pcs : list (list float))
  : result (list float) :=
  match pcs with
  | [] => Ok []
  | row :: pcs' =>
      x ← accumulate domin row 0 fzero;
      xs ← project domin pcs';
      Ok (x :: xs)
  end.

(** [product] of iteration [i] of the second loop nest. *)
Definition rotated (idx : laItqLsh) (k : nat) (domin_pc : list float)
    (i : nat) : result float :=
  om ← at_ (omegasAll idx) k;
  row ← at_ om i;
  accumulate domin_pc row 0 fzero.

Definition getHashVal (idx : laItqLsh) (k : nat) (domin : list float)
  : result Z :=
  pcs ← at_ (pcsAll idx) k;
  domin_pc ← project domin pcs;
  for_ (length domin_pc) 0 (fun i hashVal =>
    product ← rotated idx k domin_pc i;
    let hashVal := wrap32 (hashVal * 2) in
    Ok (if flt fzero product then wrap32 (hashVal + 1) else hashVal)) 0.

Definition getHashFloats (idx : laItqLsh) (k : nat) (domin : list float)
  : result (list float) :=
  pcs ← at_ (pcsAll idx) k;
  domin_pc ← project domin pcs;
  for_ (length domin_pc) 0 (fun i hashFloats =>
    product ← rotated idx k domin_pc i;
    Ok (<[i := product]> hashFloats)) (replicate (length domin_pc) fzero).

(** [hashBits[i] = 1] if [hashFloats[i] >= 0], else [0]. *)
Definition quantization (hashFloats : list float) : list bool :=
  map (fun x => if fle fzero x then true else false) hashFloats.

Definition getHashBits (idx : laItqLsh) (k : nat) (domin : list float)
  : result (list bool) :=
  hashFloats ← getHashFloats idx k domin;
  Ok (quantization hashFloats).


(** ** Bucket index *)

Definition insert (idx : laItqLsh) (key : Z) (domin : list float)
  : result laItqLsh :=
  for_ (Z.to_nat (Param.L (param idx))) 0 (fun k idx =>
    hashVal ← getHashVal idx k domin;
    tbl ← at_ (tables idx) k;
    Ok (set_tables idx (<[k := bm_push_back tbl hashVal key]> (tables idx))))
  idx.

(** [hash(data)]; the dataset is the list of its vectors. *)
Definition hash (idx : laItqLsh) (data : list (list float))
  : result laItqLsh :=
  for_ (length data) 0 (fun i idx =>
    v ← at_ data i;
    insert idx (wrap32 (Z.of_nat i)) v) idx.

(** ** The scanner, as the trace of the calls it receives *)

Record Scanner : Type := mkScanner {
  sc_query : list float;       (* argument of the last [reset] *)
  sc_probed : list (nat * Z);  (* table and bucket of each call of [probe] *)
  sc_scanned : list Z;         (* items passed to [operator()], in order *)
  sc_topk : bool               (* [topk().genTopk()] was called *)
}.

Definition sc_reset (domin : list float) (sc : Scanner) : Scanner :=
  mkScanner domin [] [] false.

Definition sc_genTopk (sc : Scanner) : Scanner :=
  mkScanner (sc_query sc) (sc_probed sc) (sc_scanned sc) true.

(** The report at the end of [probe] works on a copy of the scanner and
    leaves the scanner itself as it is. *)
Definition probe (idx : laItqLsh) (t : nat) (bucketId : Z) (sc : Scanner)
  : result Scanner :=
  _ ← assert_ (Param.L (param idx) =? 1);
  tbl ← at_ (tables idx) t;
  let items := default [] (bm_find tbl bucketId) in
  Ok (mkScanner (sc_query sc) (sc_probed sc ++ [(t, bucketId)])
                (sc_scanned sc ++ items) (sc_topk sc)).

Definition query (idx : laItqLsh) (domin : list float) (sc : Scanner)
  : result Scanner :=
  let sc := sc_reset domin sc in
  _ ← assert_ (Param.L (param idx) =? 1);
  sc ← for_ (Z.to_nat (Param.L (param idx))) 0 (fun k sc =>
    hashVal ← getHashVal idx k domin;
    probe idx k hashVal sc) sc;
  Ok (sc_genTopk sc).

(** [unsignedToBools]: [int nBits = param.N]; a negative size makes
    [resize] throw, [bits[--nBits]] below zero is out of the vector. *)
Definition unsignedToBools (idx : laItqLsh) (num : Z) : result (list bool) :=
  let nBits := toInt (Param.N (param idx)) in
  if nBits <? 0 then Undefined else
  let bits := replicate (Z.to_nat nBits) false in
  '(bits, _, _) ← while_ 32
    (fun '(bits, nBits, num) => Ok (0 <? num))
    (fun '(bits, nBits, num) =>
       let nBits := nBits - 1 in
       if (0 <=? nBits) && (nBits <? Z.of_nat (length bits))
       then Ok (<[Z.to_nat nBits := Z.odd num]> bits, nBits, num / 2)
       else Undefined)
    (bits, nBits, num);
  _ ← assert_ (Z.of_nat (length bits) =? Param.N (param idx));
  Ok bits.

(** The bit count of [queryRanking]:
    [while (xorVal != 0) { hamDist++; xorVal &= xorVal - 1; }]. *)
Definition countBits (xorVal : Z) : result Z :=
  '(_, hamDist) ← while_ 32
    (fun '(xorVal, hamDist) => Ok (negb (xorVal =? 0)))
    (fun '(xorVal, hamDist) =>
       Ok (Z.land xorVal (wrap32 (xorVal - 1)), wrap32 (hamDist + 1)))
    (xorVal, 0);
  Ok hamDist.

(** The distance classes [dstToBks] of [queryRanking].  The bucket code
    passes through a [const int&] and back, which leaves it as it is. *)
Definition classify (idx : laItqLsh) (hashVal : Z) (tbl : bucketMap)
  : result (list (list Z)) :=
  foreach_ tbl (fun '(bucketVal, _) dstToBks =>
    hamDist ← countBits (Z.lxor hashVal bucketVal);
    _ ← assert_ (hamDist <? Z.of_nat (length dstToBks));
    row ← at_ dstToBks (Z.to_nat hamDist);
    Ok (<[Z.to_nat hamDist := row ++ [bucketVal]]> dstToBks))
  (replicate (Z.to_nat (wrap32 (Param.N (param idx) + 1))) []).

Definition queryRanking (idx : laItqLsh) (domin : list float) (sc : Scanner)
    (maxNumBuckets : Z) : result Scanner :=
  let sc := sc_reset domin sc in
  _ ← assert_ (Param.L (param idx) =? 1);
  sc ← for_ (Z.to_nat (Param.L (param idx))) 0 (fun k sc =>
    hashVal ← getHashVal idx k domin;
    tbl ← at_ (tables idx) k;
    dstToBks ← classify idx hashVal tbl;
    '(_, _, _, sc) ← while_ (length tbl)
      (fun '(bId, proRow, proCol, sc) =>
         Ok ((bId <? Z.of_nat (length tbl)) && (bId <? maxNumBuckets)))
      (fun '(bId, proRow, proCol, sc) =>
         '(proRow, proCol) ← while_ (length dstToBks)
           (fun '(proRow, proCol) =>
              row ← at_ dstToBks proRow;
              Ok (Nat.eqb proCol (length row)))
           (fun '(proRow, proCol) => Ok (Datatypes.S proRow, 0%nat))
           (proRow, proCol);
         row ← at_ dstToBks proRow;
         probedBId ← at_ row proCol;
         sc ← probe idx k probedBId sc;
         Ok (bId + 1, proRow, Datatypes.S proCol, sc))
      (0, 0%nat, 0%nat, sc);
    Ok sc) sc;
  Ok (sc_genTopk sc).

(** *** [std::sort] *)

(** The requirement of [std::sort] on its comparison, on the elements it is
    given: a strict weak ordering. *)
Definition strict_weak_on {A : Type} (lt : A → A → bool) (l : list A) : Prop :=
  (∀ x, x ∈ l → lt x x = false)
  ∧ (∀ x y z, x ∈ l → y ∈ l → z ∈ l →
       lt x y = true → lt y z = true → lt x z = true)
  ∧ (∀ x y z, x ∈ l → y ∈ l → z ∈ l →
       lt x y = false → lt y x = false → lt y z = false → lt z y = false →
       lt x z = false ∧ lt z x = false).

(** What the standard promises of [std::sort]: the elements are rearranged,
    and no element is less than one before it.  The order among equivalent
    elements is left to the implementation. *)
Class StdSort : Type := {
  std_sort : ∀ {A : Type}, (A → A → bool) → list A → list A;
  std_sort_perm : ∀ {A : Type} (lt : A → A → bool) (l : list A),
    Permutation (std_sort lt l) l;
  std_sort_sorted : ∀ {A : Type} (lt : A → A → bool) (l : list A),
    strict_weak_on lt l →
    StronglySorted (fun a b => lt b a = false) (std_sort lt l)
}.

(** The comparison passed to [std::sort] by [queryRankingByLoss]. *)
Definition lossLt (a b : float * Z) : bool := flt (fst a) (fst b).

(** The loss of one bucket: the inner loop over the bit positions. *)
Definition bucketLoss (queryBits : list bool) (queryFloats : list float)
    (bucketBits : list bool) : result float :=
  for_ (length queryBits) 0 (fun bIdx dst =>
    q ← at_ queryBits bIdx;
    b ← at_ bucketBits bIdx;
    if negb (eqb q b)
    then x ← at_ queryFloats bIdx; Ok (fadd dst (fabs x))
    else Ok dst) fzero.

(** With a NaN among the losses the comparison is no strict weak ordering
    and the call of [std::sort] is undefined. *)
Definition queryRankingByLoss `{StdSort} (idx : laItqLsh)
    (domin : list float) (sc : Scanner) (maxNumBuckets : Z)
  : result Scanner :=
  let sc := sc_reset domin sc in
  _ ← assert_ (Param.L (param idx) =? 1);
  sc ← for_ (Z.to_nat (Param.L (param idx))) 0 (fun k sc =>
    queryBits ← getHashBits idx k domin;
    queryFloats ← getHashFloats idx k domin;
    tbl ← at_ (tables idx) k;
    dstToBks ← foreach_ tbl (fun '(bucketVal, _) dstToBks =>
      bucketBits ← unsignedToBools idx bucketVal;
      dst ← bucketLoss queryBits queryFloats bucketBits;
      Ok (dstToBks ++ [(dst, bucketVal)])) [];
    _ ← assert_ (Nat.eqb (length dstToBks) (length tbl));
    dstToBks ← (if forallb (fun p => negb (is_nan (fst p))) dstToBks
                then Ok (std_sort lossLt dstToBks) else Undefined);
    '(_, sc) ← while_ (length dstToBks)
      (fun '(bId, sc) =>
         Ok ((bId <? Z.of_nat (length dstToBks)) && (bId <? maxNumBuckets)))
      (fun '(bId, sc) =>
         p ← at_ dstToBks (Z.to_nat bId);
         sc ← probe idx k (snd p) sc;
         Ok (bId + 1, sc))
      (0, sc);
    Ok sc) sc;
  Ok (sc_genTopk sc).

(** *** The multi-probe sequence generator of probing.h *)

(** The class [Probing] is not part of this file: its constructor takes the
    bits, the floats and the normalization flag; [pop] yields the next
    bucket code and advances the generator. *)
Class ProbingGen : Type := {
  Probing : Type;
  Probing_new : list bool → list float → bool → Probing;
  Probing_pop : Probing → Z * Probing
}.

Definition queryByLoss `{ProbingGen} (idx : laItqLsh) (domin : list float)
    (sc : Scanner) (maxNumBuckets : Z) (withMeanAndSTD : bool)
  : result Scanner :=
  let sc := sc_reset domin sc in
  _ ← assert_ (Param.L (param idx) =? 1);
  sc ← for_ (Z.to_nat (Param.L (param idx))) 0 (fun k sc =>
    hashVal ← getHashVal idx k domin;
    hashBits ← getHashBits idx k domin;
    hashFloats ← getHashFloats idx k domin;
    _ ← assert_ (Z.of_nat (length hashBits) =? Param.N (param idx));
    _ ← assert_ (Z.of_nat (length hashFloats) =? Param.N (param idx));
    sc ← probe idx 0 hashVal sc;
    let pro := Probing_new hashBits hashFloats false in
    '(_, _, sc) ← while_ (Z.to_nat maxNumBuckets)
      (fun '(numBk, pro, sc) => Ok (numBk <? maxNumBuckets))
      (fun '(numBk, pro, sc) =>
         let '(probedBId, pro) := Probing_pop pro in
         sc ← probe idx 0 probedBId sc;
         Ok (numBk + 1, pro, sc))
      (1, pro, sc);
    Ok sc) sc;
  Ok (sc_genTopk sc).

(** [rehash]: a negative table count makes [resize] throw. *)
Definition rehash `{ProbingGen} (idx : laItqLsh) (data : list (list float))
    (numTables : Z) : result laItqLsh :=
  if numTables =? 1 then Ok idx else
  if numTables <? 0 then Undefined else
  let idx := set_tables idx (replicate (Z.to_nat numTables) []) in
  for_ (length data) 0 (fun i idx =>
    v ← at_ data i;
    hashVal ← getHashVal idx 0 v;
    hashBits ← getHashBits idx 0 v;
    hashFloats ← getHashFloats idx 0 v;
    tbl ← at_ (tables idx) 0;
    let idx :=
      set_tables idx
        (<[0%nat := bm_push_back tbl hashVal (wrap32 (Z.of_nat i))]>
           (tables idx)) in
    let pro := Probing_new hashBits hashFloats false in
    '(idx, _) ← for_ (length (tables idx) - 1) 1 (fun k '(idx, pro) =>
      let '(hashVal, pro) := Probing_pop pro in
      tbl ← at_ (tables idx) k;
      Ok (set_tables idx
            (<[k := bm_push_back tbl hashVal (wrap32 (Z.of_nat i))]>
               (tables idx)), pro)) (idx, pro);
    Ok idx) idx.

Definition queryRehash (idx : laItqLsh) (domin : list float) (sc : Scanner)
  : result Scanner :=
  let sc := sc_reset domin sc in
  _ ← assert_ (Param.L (param idx) =? 1);
  hashVal ← getHashVal idx 0 domin;
  sc ← for_ (length (tables idx)) 0 (fun k sc => probe idx k hashVal sc) sc;
  Ok (sc_genTopk sc).

(** ** Codec *)

(** The 32-bit object representation of a [float] (IEEE-754 binary32: sign,
    8 bits of biased exponent, 23 bits of fraction).  [spec_float] has a
    single NaN, which stands for the quiet NaN [0x7FC00000]. *)
Definition sign_bit (s : bool) : Z := if s then 2 ^ 31 else 0.

Definition bits_of_float (x : float) : Z :=
  match x with
  | S754_zero s => sign_bit s
  | S754_infinity s => sign_bit s + 255 * 2 ^ 23
  | S754_nan => 255 * 2 ^ 23 + 2 ^ 22
  | S754_finite s m e =>
      if Z.pos m <? 2 ^ 23
      then sign_bit s + Z.pos m
      else sign_bit s + (e + 150) * 2 ^ 23 + (Z.pos m - 2 ^ 23)
  end.

Definition float_of_bits (w : Z) : float :=
  let s := Z.testbit w 31 in
  let ex := (w / 2 ^ 23) mod 2 ^ 8 in
  let frac := w mod 2 ^ 23 in
  if ex =? 0 then
    match frac with
    | Z.pos m => S754_finite s m (-149)
    | _ => S754_zero s
    end
  else if ex =? 255 then
    (if frac =? 0 then S754_infinity s else S754_nan)
  else
    match frac + 2 ^ 23 with
    | Z.pos m => S754_finite s m (ex - 150)
    | _ => S754_nan
    end.

(** A file is the sequence of the 4-byte objects written to it, each given
    by its 32-bit object representation.  [save] and [load] move whole
    4-byte objects in the byte order of the host, which therefore never
    shows. *)
Definition file : Type := list Z.

Definition save (idx : laItqLsh) : result file :=
  let p := param idx in
  let n := Z.to_nat (Param.N p) in
  let d := Z.to_nat (Param.D p) in
  for_ (Z.to_nat (Param.L p)) 0 (fun i out =>
    rnd ← at_ (rndArray idx) i;
    rnd ← read_n rnd n;
    tbl ← at_ (tables idx) i;
    let count := wrap32 (Z.of_nat (length tbl)) in
    out ← foreach_ tbl (fun '(target, items) out =>
      let length := wrap32 (Z.of_nat (length items)) in
      items ← read_n items (Z.to_nat length);
      Ok (out ++ [target; length] ++ items)) (out ++ rnd ++ [count]);
    for_ n 0 (fun j out =>
      pcs ← at_ (pcsAll idx) i;
      pc ← at_ pcs j;
      pc ← read_n pc d;
      om ← at_ (omegasAll idx) i;
      omega ← at_ om j;
      omega ← read_n omega n;
      Ok (out ++ map bits_of_float pc ++ map bits_of_float omega)) out)
  [Param.M p; Param.L p; Param.D p; Param.N p; Param.S p].

(** [in.read] of [n] objects; a read past the end of the file leaves the
    destination without a defined value. *)
Definition read_words (n : nat) (inp : file) : result (list Z * file) :=
  if (n <=? length inp)%nat then Ok (take n inp, drop n inp) else Undefined.

Definition read_word (inp : file) : result (Z * file) :=
  match inp with
  | w :: inp' => Ok (w, inp')
  | [] => Undefined
  end.

Definition set_matrices (idx : laItqLsh)
    (pcs oms : list (list (list float))) : laItqLsh :=
  mkIndex (param idx) pcs oms (rndArray idx) (tables idx) (meanAndSTD idx).

Definition set_rndArray (idx : laItqLsh) (rnd : list (list Z)) : laItqLsh :=
  mkIndex (param idx) (pcsAll idx) (omegasAll idx) rnd (tables idx)
          (meanAndSTD idx).

Definition load (idx : laItqLsh) (inp : file) : result laItqLsh :=
  '(m, inp) ← read_word inp;
  '(l, inp) ← read_word inp;
  '(d, inp) ← read_word inp;
  '(n, inp) ← read_word inp;
  '(s, inp) ← read_word inp;
  let p := Param.mk m l d n s (Param.I (param idx)) in
  let idx :=
    mkIndex p (resize_ (Z.to_nat l) [] (pcsAll idx))
              (resize_ (Z.to_nat l) [] (omegasAll idx))
              (resize_ (Z.to_nat l) [] (rndArray idx))
              (resize_ (Z.to_nat l) [] (tables idx))
              (meanAndSTD idx) in
  '(idx, _) ← for_ (Z.to_nat l) 0 (fun i '(idx, inp) =>
    '(rnd, inp) ← read_words (Z.to_nat n) inp;
    let idx := set_rndArray idx (<[i := rnd]> (rndArray idx)) in
    '(count, inp) ← read_word inp;
    '(idx, inp) ← for_ (Z.to_nat count) 0 (fun j '(idx, inp) =>
      '(target, inp) ← read_word inp;
      '(length, inp) ← read_word inp;
      '(items, inp) ← read_words (Z.to_nat length) inp;
      tbl ← at_ (tables idx) i;
      Ok (set_tables idx (<[i := bm_assign tbl target items]> (tables idx)),
          inp)) (idx, inp);
    pcs ← at_ (pcsAll idx) i;
    oms ← at_ (omegasAll idx) i;
    '(pcs, oms, inp) ← for_ (Z.to_nat n) 0 (fun j '(pcs, oms, inp) =>
      '(pc, inp) ← read_words (Z.to_nat d) inp;
      '(omega, inp) ← read_words (Z.to_nat n) inp;
      Ok (<[j := map float_of_bits pc]> pcs,
          <[j := map float_of_bits omega]> oms, inp))
      (resize_ (Z.to_nat n) [] pcs, resize_ (Z.to_nat n) [] oms, inp);
    Ok (set_matrices idx (<[i := pcs]> (pcsAll idx))
                         (<[i := oms]> (omegasAll idx)), inp)) (idx, inp);
  Ok idx.

(** ** Read access to the buckets *)

Definition getBuckets (idx : laItqLsh) : result bucketMap :=
  _ ← assert_ (Param.L (param idx) =? 1);
  at_ (tables idx) 0.

(** ** Random numbers *)

(** [std::mt19937] read through a
    [std::uniform_int_distribution<unsigned>(a, b)]: a draw yields a value of
    the closed range [a, b] and advances the engine.  The engine is seeded
    with the time, which makes its first state an input. *)
Class RandomSource : Type := {
  rng : Type;
  uniform_int : Z → Z → rng → Z * rng;
  uniform_int_range : ∀ (a b : Z) (g : rng),
    a ≤ b → a ≤ fst (uniform_int a b g) ≤ b
}.

(** ** [reset] *)

(** The inner loop of [reset]: [N] draws of [usArray(rng)], each pushed
    back to the row. *)
Fixpoint push_draws `{RandomSource} (n : nat) (b : Z) (row : list Z)
    (g : rng) : list Z * rng :=
  match n with
  | O => (row, g)
  | S n' =>
      let '(x, g) := uniform_int 0 b g in
      push_draws n' b (row ++ [x]) g
  end.

(** The outer loop of [reset], over the rows of [rndArray]. *)
Fixpoint fill_rows `{RandomSource} (n : nat) (b : Z) (rows : list (list Z))
    (g : rng) : list (list Z) * rng :=
  match rows with
  | [] => ([], g)
  | row :: rows' =>
      let '(row, g) := push_draws n b row g in
      let '(rows', g) := fill_rows n b rows' g in
      (row :: rows', g)
  end.

(** [reset(param_)]: the four vectors are resized, which keeps the entries
    they hold, and every row of [rndArray] receives [N] draws of
    [0 .. M - 1] (the bound is computed on [unsigned]). *)
Definition reset `{RandomSource} (idx : laItqLsh) (param_ : Param.t)
    (seed : rng) : laItqLsh :=
  let l := Z.to_nat (Param.L param_) in
  mkIndex param_
    (resize_ l [] (pcsAll idx))
    (resize_ l [] (omegasAll idx))
    (fst (fill_rows (Z.to_nat (Param.N param_))
            (wrap32 (Param.M param_ - 1))
            (resize_ l [] (rndArray idx)) seed))
    (resize_ l [] (tables idx))
    (meanAndSTD idx).

(** ** [train]: the sample *)

(** The sampling loop of [train] for one table,
    [while (seqs.size() != S) { target = usBits(rng); if (find(seqs,
    target) == seqs.end()) seqs.push_back(target); }], with [usBits] drawing
    from [0 .. size - 1]. *)
Definition train_sample `{RandomSource} (fuel : nat) (size S : Z) (g : rng)
  : result (list Z * rng) :=
  while_ fuel
    (fun '(seqs, g) => Ok (negb (Z.of_nat (length seqs) =? S)))
    (fun '(seqs, g) =>
       let '(target, g) := uniform_int 0 (wrap32 (size - 1)) g in
       Ok (if existsb (Z.eqb target) seqs then seqs else seqs ++ [target], g))
    ([], g).

(** ** [getMeanAndSTD] *)

Definition fsub : float → float → float := SFsub 24 128.
Definition fdiv : float → float → float := SFdiv 24 128.
(** [sqrt]: taken on the [float], or on its conversion to [double] with
    the result converted back, the root is the correctly rounded one. *)
Definition fsqrt : float → float := SFsqrt 24 128.

(** Conversion of an [int] to [float], to the nearest. *)
Definition float_of_int (z : Z) : float := binary_normalize 24 128 z 0 false.

(** First loop nest, one coordinate of one item: the sum and the count of
    the side of the sign test [>= 0].  The counts stay below the number of
    items, which [Matrix::getSize] returns as an [int]. *)
Definition ms_sum_body (hashFloats : list float)
  : nat → list float * list float * list Z * list Z
        → result (list float * list float * list Z * list Z) :=
  fun hfIdx '(sumPositive, sumNegative, countPositive, countNegative) =>
    x ← at_ hashFloats hfIdx;
    if fle fzero x then
      s ← at_ sumPositive hfIdx;
      c ← at_ countPositive hfIdx;
      Ok (<[hfIdx := fadd s x]> sumPositive, sumNegative,
          <[hfIdx := c + 1]> countPositive, countNegative)
    else
      s ← at_ sumNegative hfIdx;
      c ← at_ countNegative hfIdx;
      Ok (sumPositive, <[hfIdx := fadd s x]> sumNegative,
          countPositive, <[hfIdx := c + 1]> countNegative).

Definition ms_sum_item (idx : laItqLsh)
  : list float → list float * list float * list Z * list Z
               → result (list float * list float * list Z * list Z) :=
  fun v st =>
    hashFloats ← getHashFloats idx 0 v;
    for_ (length hashFloats) 0 (ms_sum_body hashFloats) st.

(** The sums become means where the count is not zero. *)
Definition ms_mean_body (countPositive countNegative : list Z)
  : nat → list float * list float → result (list float * list float) :=
  fun i '(sumPositive, sumNegative) =>
    cp ← at_ countPositive i;
    sumPositive ←
      (if cp =? 0 then Ok sumPositive
       else s ← at_ sumPositive i;
            Ok (<[i := fdiv s (float_of_int cp)]> sumPositive));
    cn ← at_ countNegative i;
    sumNegative ←
      (if cn =? 0 then Ok sumNegative
       else s ← at_ sumNegative i;
            Ok (<[i := fdiv s (float_of_int cn)]> sumNegative));
    Ok (sumPositive, sumNegative).

(** Second loop nest, one coordinate of one item: the squared deviation
    from the mean of its side. *)
Definition ms_sq_body (sumPositive sumNegative hashFloats : list float)
  : nat → list float * list float → result (list float * list float) :=
  fun hfIdx '(stdPositive, stdNegative) =>
    x ← at_ hashFloats hfIdx;
    if fle fzero x then
      m ← at_ sumPositive hfIdx;
      s ← at_ stdPositive hfIdx;
      Ok (<[hfIdx := fadd s (fmul (fsub x m) (fsub x m))]> stdPositive,
          stdNegative)
    else
      m ← at_ sumNegative hfIdx;
      s ← at_ stdNegative hfIdx;
      Ok (stdPositive,
          <[hfIdx := fadd s (fmul (fsub x m) (fsub x m))]> stdNegative).

Definition ms_sq_item (idx : laItqLsh) (sumPositive sumNegative : list float)
  : list float → list float * list float
               → result (list float * list float) :=
  fun v st =>
    hashFloats ← getHashFloats idx 0 v;
    for_ (length hashFloats) 0
         (ms_sq_body sumPositive sumNegative hashFloats) st.

(** The last loop: division by the count where it is not zero, square
    root, and the assertion that the deviation is positive. *)
Definition ms_std_body (countPositive countNegative : list Z)
  : nat → list float * list float → result (list float * list float) :=
  fun i '(stdPositive, stdNegative) =>
    cp ← at_ countPositive i;
    s ← at_ stdPositive i;
    let s := fsqrt (if cp =? 0 then s else fdiv s (float_of_int cp)) in
    _ ← assert_ (flt fzero s);
    let stdPositive := <[i := s]> stdPositive in
    cn ← at_ countNegative i;
    s ← at_ stdNegative i;
    let s := fsqrt (if cn =? 0 then s else fdiv s (float_of_int cn)) in
    _ ← assert_ (flt fzero s);
    let stdNegative := <[i := s]> stdNegative in
    Ok (stdPositive, stdNegative).

(** [getMeanAndSTD(data)]; what it prints is left out.  The loops over the
    coordinates count with an [int] up to [N], which overflows when [N]
    exceeds [INT_MAX]. *)
Definition getMeanAndSTD (idx : laItqLsh) (data : list (list float))
  : result (list (list float)) :=
  let n := Z.to_nat (Param.N (param idx)) in
  if 2 ^ 31 <=? Param.N (param idx) then Undefined else
  '(sumPositive, sumNegative, countPositive, countNegative) ←
    foreach_ data (ms_sum_item idx)
      (replicate n fzero, replicate n fzero, replicate n 0, replicate n 0);
  '(sumPositive, sumNegative) ←
    for_ n 0 (ms_mean_body countPositive countNegative)
      (sumPositive, sumNegative);
  '(stdPositive, stdNegative) ←
    foreach_ data (ms_sq_item idx sumPositive sumNegative)
      (replicate n fzero, replicate n fzero);
  '(stdPositive, stdNegative) ←
    for_ n 0 (ms_std_body countPositive countNegative)
      (stdPositive, stdNegative);
  Ok [sumPositive; sumNegative; stdPositive; stdNegative].

Definition setMeanAndSTD (idx : laItqLsh) (data : list (list float))
  : result laItqLsh :=
  stats ← getMeanAndSTD idx data;
  Ok (mkIndex (param idx) (pcsAll idx) (omegasAll idx) (rndArray idx)
        (tables idx) stats).

(** * Auxiliary definitions of the development *)

(** The results [g from], [g (from+1)], ... of a loop, collected in order. *)
Fixpoint collect {B : Type} (n from : nat) (g : nat → result B)
  : result (list B) :=
  match n with
  | O => Ok []
  | S n' => p ← g from; ps ← collect n' (S from) g; Ok (p :: ps)
  end.

Fixpoint fold_idx {B St : Type} (step : nat → B → St → St) (from : nat)
    (ps : list B) (s : St) : St :=
  match ps with
  | [] => s
  | p :: ps' => fold_idx step (S from) ps' (step from p s)
  end.

(** ** The hasher, factored *)

(** The packing loop of [getHashVal] on the rotated coordinates: the bit of
    a coordinate is [product > 0]. *)
Definition packStep (product : float) (hashVal : Z) : Z :=
  let hashVal := wrap32 (hashVal * 2) in
  if flt fzero product then wrap32 (hashVal + 1) else hashVal.

Definition packProducts (ps : list float) : Z :=
  fold_left (fun h p => packStep p h) ps 0.

(** The rotated coordinates of a vector under table [k]. *)
Definition hashProducts (idx : laItqLsh) (k : nat) (domin : list float)
  : result (list float) :=
  pcs ← at_ (pcsAll idx) k;
  domin_pc ← project domin pcs;
  collect (length domin_pc) 0 (rotated idx k domin_pc).

(** ** Trained tables *)

Definition shapeb {A : Type} (m : list (list A)) (rows cols : nat) : bool :=
  (length m =? rows)%nat && forallb (fun r => (length r =? cols)%nat) m.

(** Table [k] as [train] leaves it: [pcsAll[k]] is [N] rows of [D] floats,
    [omegasAll[k]] is [N] rows of [N] floats. *)
Definition trainedb (idx : laItqLsh) (k : nat) : bool :=
  let n := Param.N (param idx) in
  let d := Param.D (param idx) in
  (0 <=? n) && (0 <=? d) &&
  match pcsAll idx !! k, omegasAll idx !! k with
  | Some pcs, Some om =>
      shapeb pcs (Z.to_nat n) (Z.to_nat d)
      && shapeb om (Z.to_nat n) (Z.to_nat n)
  | _, _ => false
  end.

(** A vector of the dimension of the index. *)
Definition vecb (idx : laItqLsh) (v : list float) : bool :=
  (length v =? Z.to_nat (Param.D (param idx)))%nat.

(** Every table the parameter [L] counts is trained, and is there. *)
Definition all_trainedb (idx : laItqLsh) : bool :=
  forallb (trainedb idx) (seq 0 (Z.to_nat (Param.L (param idx))))
  && (Z.of_nat (length (tables idx)) =? Param.L (param idx)).

(** ** Codes *)

(** The value of a bit vector read most significant bit first. *)
Definition packBits (bits : list bool) : Z :=
  fold_left (fun acc (b : bool) => 2 * acc + Z.b2z b) bits 0.

(** Code width: every key of every table is at most [2^N - 1]. *)
Definition code_widthb (idx : laItqLsh) : bool :=
  forallb (fun tbl : bucketMap =>
    forallb (fun key => (0 <=? key) && (key <=? 2 ^ Param.N (param idx) - 1))
            (bm_keys tbl)) (tables idx).

(** A sequence of calls of [insert]. *)
Definition insert_all (idx : laItqLsh) (calls : list (Z * list float))
  : result laItqLsh :=
  foreach_ calls (fun '(key, v) idx => insert idx key v) idx.

(** ** Concrete floats and a concrete index *)

Definition f_one : float := S754_finite false (2 ^ 23) (-23).
Definition f_minus_one : float := S754_finite true (2 ^ 23) (-23).
Definition f_half : float := S754_finite false (2 ^ 23) (-24).
Definition f_two : float := S754_finite false (2 ^ 23) (-22).

(** One table of one bit on vectors of dimension one; projection and
    rotation are the 1 x 1 identity. *)
Definition idx_1bit : laItqLsh :=
  mkIndex (Param.mk 521 1 1 1 1 1) [[[f_one]]] [[[f_one]]] [[0]] [[]] [].

(** One table of two bits on vectors of dimension two; projection and
    rotation are the identity. *)
Definition idx_2bit : laItqLsh :=
  mkIndex (Param.mk 521 1 2 2 4 10)
    [[[f_one; fzero]; [fzero; f_one]]]
    [[[f_one; fzero]; [fzero; f_one]]]
    [[7; 9]] [[]] [].

Definition data_2bit : list (list float) :=
  [[f_one; f_one]; [f_minus_one; f_one]; [f_one; f_minus_one];
   [f_minus_one; f_minus_one]; [f_two; f_half]; [fzero; f_one]].

Definition sc_init : Scanner := mkScanner [] [] [] false.

(** The [n] binary digits of a code, most significant first: digit [i] is
    bit [n - 1 - i] of the code. *)
Definition codeBits (n : nat) (num : Z) : list bool :=
  map (fun i => Z.testbit num (Z.of_nat (n - 1 - i))) (seq 0 n).

(** ** Hamming distance *)

(** The number of the 32 bit positions at which two codes differ. *)
Definition hammingDist (a b : Z) : Z :=
  Z.of_nat (length (List.filter
    (fun i => xorb (Z.testbit a (Z.of_nat i)) (Z.testbit b (Z.of_nat i)))
    (seq 0 32))).

(** The number of bits set among the lowest [w] bits. *)
Fixpoint popcount (w : nat) (x : Z) : Z :=
  match w with
  | O => 0
  | S w' => Z.b2z (Z.odd x) + popcount w' (x / 2)
  end.

(** The representation invariant of the tables: in every map the keys are
    [unsigned] values in strictly ascending order, and every posting list
    holds [unsigned] values and has an [unsigned] length. *)
Fixpoint ascendingb (lo : Z) (keys : list Z) : bool :=
  match keys with
  | [] => true
  | k :: keys' => (lo <? k) && ascendingb k keys'
  end.

Definition u32b (z : Z) : bool := (0 <=? z) && (z <? 2 ^ 32).

Definition tables_wfb (idx : laItqLsh) : bool :=
  forallb (fun tbl : bucketMap =>
    ascendingb (-1) (bm_keys tbl)
    && forallb u32b (bm_keys tbl)
    && forallb (fun b : Z * list Z =>
         forallb u32b (snd b) && (Z.of_nat (length (snd b)) <? 2 ^ 32)) tbl)
    (tables idx).



(** [idx_2bit] after [hash(data_2bit)]. *)
Definition idx_2bit_hashed : laItqLsh :=
  set_tables idx_2bit [[(0, [3]); (1, [1; 5]); (2, [2]); (3, [0; 4])]].

(** ** A sort for [std::sort], and a generator for [Probing] *)

(** Insertion sort: [x] goes before the first element it is less than. *)
Fixpoint insert_sorted {A : Type} (lt : A → A → bool) (x : A) (l : list A)
  : list A :=
  match l with
  | [] => [x]
  | y :: l' => if lt x y then x :: l else y :: insert_sorted lt x l'
  end.

Definition isort {A : Type} (lt : A → A → bool) (l : list A) : list A :=
  fold_left (fun acc x => insert_sorted lt x acc) l [].

(** The sets of bit positions of a code of [n] bits, as masks. *)
Fixpoint masks (n : nat) : list (list bool) :=
  match n with
  | O => [[]]
  | S n' => map (cons false) (masks n') ++ map (cons true) (masks n')
  end.

(** The cost of flipping the bits of a mask: the sum of the magnitudes at
    the flipped positions. *)
Fixpoint flipCost (mask : list bool) (mags : list float) : float :=
  match mask, mags with
  | b :: mask', x :: mags' =>
      if b then fadd x (flipCost mask' mags') else flipCost mask' mags'
  | _, _ => fzero
  end.

(** Modelled from the spec: the multi-probe sequence generator of probing.h,
    which is not among the sources.  It is constructed from a code, its
    signed per-bit projections and a normalization flag, and [pop] yields,
    in ascending estimated cost, the next bucket code obtained by flipping
    one or more bits of the code, without repeating a code.  The spec leaves
    open how the statistics normalize the projections when the flag is set
    ([normalize]) and what [pop] yields once every code was returned (here
    the code 0). *)
Definition specProbing_new (normalize : list float → list float)
    (hashBits : list bool) (hashFloats : list float) (withMeanAndSTD : bool)
  : list Z :=
  let mags :=
    map fabs (if withMeanAndSTD then normalize hashFloats else hashFloats) in
  let flips := List.filter (existsb id) (masks (length hashBits)) in
  let ranked :=
    isort (fun a b : float * list bool => flt (fst a) (fst b))
          (map (fun mask => (flipCost mask mags, mask)) flips) in
  map (fun cm : float * list bool =>
         wrap32 (packBits (zip_with xorb hashBits (snd cm)))) ranked.

Definition specProbing_pop (pro : list Z) : Z * list Z :=
  match pro with
  | code :: pro' => (code, pro')
  | [] => (0, [])
  end.

Definition specProbing (normalize : list float → list float) : ProbingGen :=
  {| Probing := list Z;
     Probing_new := specProbing_new normalize;
     Probing_pop := specProbing_pop |}.

(** A normalization that quadruples the first projection. *)
Definition normalize_x4 (fs : list float) : list float :=
  match fs with
  | x :: fs' => fmul (S754_finite false (2 ^ 23) (-21)) x :: fs'
  | [] => []
  end.

(** The codes a generator yields on its first [n] calls of [pop]. *)
Fixpoint pops `{ProbingGen} (n : nat) (pro : Probing) : list Z * Probing :=
  match n with
  | O => ([], pro)
  | S n' =>
      let '(code, pro) := Probing_pop pro in
      let '(codes, pro) := pops n' pro in
      (code :: codes, pro)
  end.

(** ** The order of the floats *)



(** A float that is zero or positive, the infinity included; no NaN. *)
Definition fnonneg (x : float) : bool :=
  match x with
  | S754_zero _ => true
  | S754_infinity s | S754_finite s _ _ => negb s
  | S754_nan => false
  end.

(** ** The loss of [queryRankingByLoss] *)

(** The sum, over the bit positions where the bits of the bucket differ
    from those of the query, taken in ascending position, of the absolute
    value of the projection of the query at the position. *)
Definition lossSum (queryBits : list bool) (queryFloats : list float)
    (bucketBits : list bool) : float :=
  fold_left fadd
    (map (fun i => fabs (nth i queryFloats fzero))
       (List.filter
          (fun i => negb (eqb (nth i queryBits false) (nth i bucketBits false)))
          (seq 0 (length queryBits))))
    fzero.



(** [idx_2bit] after [rehash(data_2bit, 2)] with the generator
    [specProbing normalize_x4]. *)
Definition idx_2bit_rehashed : laItqLsh :=
  set_tables idx_2bit
    [[(0, [3]); (1, [1; 5]); (2, [2]); (3, [0; 4])];
     [(0, [1]); (1, [3; 5]); (2, [0; 4]); (3, [2])]].

(** An index whose parameter [L] is 2, with two trained tables. *)
Definition idx_two_tables : laItqLsh :=
  mkIndex (Param.mk 521 2 2 2 4 10)
    [[[f_one; fzero]; [fzero; f_one]]; [[fzero; f_one]; [f_one; fzero]]]
    [[[f_one; fzero]; [fzero; f_one]]; [[f_one; fzero]; [fzero; f_one]]]
    [[7; 9]; [1; 2]] [[]; []] [].

(** ** Rehash *)

(** The codes under which [rehash] files one item in the tables 0, 1, ...:
    its exact code, then the codes popped from the generator seeded with its
    bits and floats. *)
Definition itemCodes `{ProbingGen} (idx : laItqLsh) (v : list float)
    (numTables : nat) : result (list Z) :=
  hashVal ← getHashVal idx 0 v;
  hashBits ← getHashBits idx 0 v;
  hashFloats ← getHashFloats idx 0 v;
  Ok (hashVal
      :: fst (pops (numTables - 1) (Probing_new hashBits hashFloats false))).

(** One item filed in every table under its code for the table. *)
Definition pushCodes (ts : list bucketMap) (codes : list Z) (item : Z)
  : list bucketMap :=
  zip_with (fun tbl c => bm_push_back tbl c item) ts codes.

(** The items, numbered from [from], whose code for table [k] is [c]. *)
Fixpoint postingsFrom (k : nat) (from : nat) (codes : list (list Z)) (c : Z)
  : list Z :=
  match codes with
  | [] => []
  | cs :: codes' =>
      (if nth k cs 0 =? c then [wrap32 (Z.of_nat from)] else [])
      ++ postingsFrom k (S from) codes' c
  end.

Definition bm_sorted (m : bucketMap) : Prop :=
  StronglySorted Z.lt (bm_keys m).

(** The body of the loop of [rehash] over the tables 1, 2, ... *)
Definition rehash_inner `{ProbingGen} (item : Z)
  : nat → laItqLsh * Probing → result (laItqLsh * Probing) :=
  fun k '(idx, pro) =>
    let '(hashVal, pro) := Probing_pop pro in
    tbl ← at_ (tables idx) k;
    Ok (set_tables idx (<[k := bm_push_back tbl hashVal item]> (tables idx)),
        pro).

(** The body of the loop of [rehash] over the items. *)
Definition rehash_body `{ProbingGen} (data : list (list float))
  : nat → laItqLsh → result laItqLsh :=
  fun i idx =>
    v ← at_ data i;
    hashVal ← getHashVal idx 0 v;
    hashBits ← getHashBits idx 0 v;
    hashFloats ← getHashFloats idx 0 v;
    tbl ← at_ (tables idx) 0;
    let idx :=
      set_tables idx
        (<[0%nat := bm_push_back tbl hashVal (wrap32 (Z.of_nat i))]>
           (tables idx)) in
    let pro := Probing_new hashBits hashFloats false in
    '(idx, _) ← for_ (length (tables idx) - 1) 1
                  (rehash_inner (wrap32 (Z.of_nat i))) (idx, pro);
    Ok idx.

(** ** The codec, factored *)

(** The bodies of the loops of [save]. *)
Definition save_bucket : Z * list Z → file → result file :=
  fun '(target, items) out =>
    let length := wrap32 (Z.of_nat (length items)) in
    items ← read_n items (Z.to_nat length);
    Ok (out ++ [target; length] ++ items).

Definition save_row (idx : laItqLsh) (i : nat) : nat → file → result file :=
  fun j out =>
    pcs ← at_ (pcsAll idx) i;
    pc ← at_ pcs j;
    pc ← read_n pc (Z.to_nat (Param.D (param idx)));
    om ← at_ (omegasAll idx) i;
    omega ← at_ om j;
    omega ← read_n omega (Z.to_nat (Param.N (param idx)));
    Ok (out ++ map bits_of_float pc ++ map bits_of_float omega).

Definition save_table (idx : laItqLsh) : nat → file → result file :=
  fun i out =>
    rnd ← at_ (rndArray idx) i;
    rnd ← read_n rnd (Z.to_nat (Param.N (param idx)));
    tbl ← at_ (tables idx) i;
    let count := wrap32 (Z.of_nat (length tbl)) in
    out ← foreach_ tbl save_bucket (out ++ rnd ++ [count]);
    for_ (Z.to_nat (Param.N (param idx))) 0 (save_row idx i) out.

(** The bodies of the loops of [load]. *)
Definition load_bucket (i : nat)
  : nat → laItqLsh * file → result (laItqLsh * file) :=
  fun j '(idx, inp) =>
    '(target, inp) ← read_word inp;
    '(length, inp) ← read_word inp;
    '(items, inp) ← read_words (Z.to_nat length) inp;
    tbl ← at_ (tables idx) i;
    Ok (set_tables idx (<[i := bm_assign tbl target items]> (tables idx)),
        inp).

Definition load_row (n d : Z)
  : nat → list (list float) * list (list float) * file
        → result (list (list float) * list (list float) * file) :=
  fun j '(pcs, oms, inp) =>
    '(pc, inp) ← read_words (Z.to_nat d) inp;
    '(omega, inp) ← read_words (Z.to_nat n) inp;
    Ok (<[j := map float_of_bits pc]> pcs,
        <[j := map float_of_bits omega]> oms, inp).

Definition load_table (n d : Z)
  : nat → laItqLsh * file → result (laItqLsh * file) :=
  fun i '(idx, inp) =>
    '(rnd, inp) ← read_words (Z.to_nat n) inp;
    let idx := set_rndArray idx (<[i := rnd]> (rndArray idx)) in
    '(count, inp) ← read_word inp;
    '(idx, inp) ← for_ (Z.to_nat count) 0 (load_bucket i) (idx, inp);
    pcs ← at_ (pcsAll idx) i;
    oms ← at_ (omegasAll idx) i;
    '(pcs, oms, inp) ← for_ (Z.to_nat n) 0 (load_row n d)
      (resize_ (Z.to_nat n) [] pcs, resize_ (Z.to_nat n) [] oms, inp);
    Ok (set_matrices idx (<[i := pcs]> (pcsAll idx))
                         (<[i := oms]> (omegasAll idx)), inp).

(** The layout of the file. *)
Definition ser_bucket (b : Z * list Z) : file :=
  [fst b; Z.of_nat (length (snd b))] ++ snd b.

Definition ser_rows (pcs oms : list (list float)) : file :=
  concat (zip_with (fun pc omega =>
            map bits_of_float pc ++ map bits_of_float omega) pcs oms).

Definition ser_table (n : nat) (rnd : list Z) (tbl : bucketMap)
    (pcs oms : list (list float)) : file :=
  take n rnd ++ [Z.of_nat (length tbl)]
  ++ concat (map ser_bucket tbl) ++ ser_rows pcs oms.

Definition ser_table_at (idx : laItqLsh) (i : nat) : file :=
  ser_table (Z.to_nat (Param.N (param idx)))
    (default [] (rndArray idx !! i)) (default [] (tables idx !! i))
    (default [] (pcsAll idx !! i)) (default [] (omegasAll idx !! i)).

Definition ser_header (p : Param.t) : file :=
  [Param.M p; Param.L p; Param.D p; Param.N p; Param.S p].

Definition ser_index (idx : laItqLsh) : file :=
  ser_header (param idx)
  ++ concat (map (ser_table_at idx) (seq 0 (Z.to_nat (Param.L (param idx))))).

(** An index that [reset], [train] and [hash] (or [load]) built: the four
    vectors have [L] entries, every table is trained, the arrays of
    [rndArray] have at least [N] entries, the tables meet their
    representation invariant and hold fewer than [2^32] buckets each, and
    the matrices hold binary32 values. *)
Definition floats_validb (m : list (list (list float))) : bool :=
  forallb (forallb (forallb (valid_binary 24 128))) m.

Definition codec_wfb (idx : laItqLsh) : bool :=
  let l := Z.to_nat (Param.L (param idx)) in
  let n := Z.to_nat (Param.N (param idx)) in
  all_trainedb idx
  && (length (pcsAll idx) =? l)%nat && (length (omegasAll idx) =? l)%nat
  && (length (rndArray idx) =? l)%nat
  && forallb (fun rnd : list Z => (n <=? length rnd)%nat) (rndArray idx)
  && tables_wfb idx
  && forallb (fun tbl : bucketMap => Z.of_nat (length tbl) <? 2 ^ 32)
             (tables idx)
  && floats_validb (pcsAll idx) && floats_validb (omegasAll idx).

(** A default-constructed index: its parameters hold no defined value, the
    ones given here. *)
Definition fresh (p : Param.t) : laItqLsh := mkIndex p [] [] [] [] [].

(** Table [i] can be saved: it is there with its array of [rndArray], it is
    trained, and the number of its buckets and the lengths of its posting
    lists are [unsigned] values. *)
Definition savable_atb (idx : laItqLsh) (i : nat) : bool :=
  match rndArray idx !! i, tables idx !! i with
  | Some rnd, Some tbl =>
      (Z.to_nat (Param.N (param idx)) <=? length rnd)%nat
      && (Z.of_nat (length tbl) <? 2 ^ 32)
      && forallb (fun b : Z * list Z => Z.of_nat (length (snd b)) <? 2 ^ 32) tbl
      && trainedb idx i
  | _, _ => false
  end.

Definition savableb (idx : laItqLsh) : bool :=
  forallb (savable_atb idx) (seq 0 (Z.to_nat (Param.L (param idx)))).

(** A sequence of words occurs in a file. *)
Fixpoint prefixb (a b : list Z) : bool :=
  match a, b with
  | [], _ => true
  | x :: a', y :: b' => (x =? y) && prefixb a' b'
  | _ :: _, [] => false
  end.

Fixpoint infixb (a b : list Z) : bool :=
  prefixb a b
  || match b with
     | [] => false
     | _ :: b' => infixb a b'
     end.

(** The index under construction by [load] from the file of [idx], once
    its first [k] tables are read. *)
Definition loaded_prefix (idx : laItqLsh) (i0 : Z) (k : nat) : laItqLsh :=
  let p := param idx in
  let l := Z.to_nat (Param.L p) in
  let n := Z.to_nat (Param.N p) in
  mkIndex (Param.mk (Param.M p) (Param.L p) (Param.D p) (Param.N p)
                    (Param.S p) i0)
    (take k (pcsAll idx) ++ replicate (l - k) [])
    (take k (omegasAll idx) ++ replicate (l - k) [])
    (take k (map (take n) (rndArray idx)) ++ replicate (l - k) [])
    (take k (tables idx) ++ replicate (l - k) [])
    [].

(** The index that [load] builds from the file of [idx]. *)
Definition reloaded (idx : laItqLsh) (p0 : Param.t) : laItqLsh :=
  mkIndex (Param.mk (Param.M (param idx)) (Param.L (param idx))
             (Param.D (param idx)) (Param.N (param idx))
             (Param.S (param idx)) (Param.I p0))
    (pcsAll idx) (omegasAll idx)
    (map (take (Z.to_nat (Param.N (param idx)))) (rndArray idx))
    (tables idx) [].

(** ** Codes of an item *)

(** The codes of a vector under the tables [0 .. L-1]. *)
Definition tableCodes (idx : laItqLsh) (v : list float) : result (list Z) :=
  collect (Z.to_nat (Param.L (param idx))) 0 (fun k => getHashVal idx k v).

(** An outcome that is a value or undefined behaviour: no failed assertion,
    no loop left running. *)
Definition value_or_undefined {A : Type} (r : result A) : Prop :=
  match r with
  | Ok _ | Undefined => True
  | AssertFail | OutOfFuel => False
  end.

(** The body of the loop of [insert]. *)
Definition insert_body (key : Z) (domin : list float)
  : nat → laItqLsh → result laItqLsh :=
  fun k idx =>
    hashVal ← getHashVal idx k domin;
    tbl ← at_ (tables idx) k;
    Ok (set_tables idx (<[k := bm_push_back tbl hashVal key]> (tables idx))).



(** The body of the loop of [hash]. *)
Definition hash_body (data : list (list float))
  : nat → laItqLsh → result laItqLsh :=
  fun i idx =>
    v ← at_ data i;
    insert idx (wrap32 (Z.of_nat i)) v.

(** The vector has the code [c] under table [k]. *)
Definition has_code (idx : laItqLsh) (k : nat) (c : Z) (v : list float)
  : bool :=
  match getHashVal idx k v with
  | Ok c' => c' =? c
  | _ => false
  end.

(** The sequence numbers, ascending, of the vectors of a data set that have
    the code [c] under table [k]. *)
Definition ids_with_code (idx : laItqLsh) (k : nat) (c : Z)
    (data : list (list float)) : list Z :=
  map (fun i => wrap32 (Z.of_nat i))
    (List.filter (fun i => has_code idx k c (nth i data []))
       (seq 0 (length data))).


(** The loop of [queryByLoss] over the codes of the generator. *)
Definition qbl_cond `{ProbingGen} (maxNumBuckets : Z)
  : Z * Probing * Scanner → result bool :=
  fun '(numBk, pro, sc) => Ok (numBk <? maxNumBuckets).

Definition qbl_body `{ProbingGen} (idx : laItqLsh)
  : Z * Probing * Scanner → result (Z * Probing * Scanner) :=
  fun '(numBk, pro, sc) =>
    let '(probedBId, pro) := Probing_pop pro in
    sc ← probe idx 0 probedBId sc;
    Ok (numBk + 1, pro, sc).

(** ** A random source for the examples *)

(** A counter: the draw from [a .. b] is [a + g mod (b - a + 1)], and the
    counter advances by one. *)
Definition counter_draw (a b g : Z) : Z * Z := (a + g mod (b - a + 1), g + 1).

(** The loop of [train_sample]. *)
Definition ts_cond `{RandomSource} (S : Z) : list Z * rng → result bool :=
  fun '(seqs, g) => Ok (negb (Z.of_nat (length seqs) =? S)).

Definition ts_body `{RandomSource} (size : Z)
  : list Z * rng → result (list Z * rng) :=
  fun '(seqs, g) =>
    let '(target, g) := uniform_int 0 (wrap32 (size - 1)) g in
    Ok (if existsb (Z.eqb target) seqs then seqs else seqs ++ [target], g).

(** The sample holds distinct sequence numbers of the data set. *)
Definition sample_ok (size : Z) (seqs : list Z) : Prop :=
  NoDup seqs ∧ Forall (fun x => 0 ≤ x < size) seqs.

(** ** Signs seen in a data set *)

(** Some vector of the data set has, at coordinate [i] of its rotated
    coordinates under table 0, a value whose test [>= 0] gives [b]. *)
Definition sign_seenb (idx : laItqLsh) (data : list (list float)) (i : nat)
    (b : bool) : bool :=
  existsb (fun v =>
    match getHashFloats idx 0 v with
    | Ok fs =>
        match fs !! i with
        | Some x => eqb (fle fzero x) b
        | None => false
        end
    | _ => false
    end) data.

(** What the loops of [getMeanAndSTD] maintain: a count that is not zero,
    and a sum of squared deviations that is not the zero it started from,
    come from an item of the data set with that sign at the coordinate. *)
Definition counts_inv (idx : laItqLsh) (data : list (list float))
    (st : list float * list float * list Z * list Z) : Prop :=
  (∀ (i : nat) (c : Z), st.1.2 !! i = Some c → c ≠ 0 →
     sign_seenb idx data i true = true)
  ∧ (∀ (i : nat) (c : Z), st.2 !! i = Some c → c ≠ 0 →
       sign_seenb idx data i false = true).

Definition devs_inv (idx : laItqLsh) (data : list (list float)) (n : nat)
    (st : list float * list float) : Prop :=
  length st.1 = n ∧ length st.2 = n
  ∧ (∀ (i : nat) (s : float), st.1 !! i = Some s → s ≠ fzero →
       sign_seenb idx data i true = true)
  ∧ (∀ (i : nat) (s : float), st.2 !! i = Some s → s ≠ fzero →
       sign_seenb idx data i false = true).

(** The last loop, before coordinate [j]: the deviations of the coordinates
    below [j] passed their assertion, those from [j] on are untouched. *)
Definition std_inv (idx : laItqLsh) (data : list (list float))
    (stdP stdN : list float) (j : nat) (st : list float * list float)
  : Prop :=
  length st.1 = length stdP ∧ length st.2 = length stdN
  ∧ (∀ i : nat, (i < j)%nat →
       (∃ x, st.1 !! i = Some x ∧ flt fzero x = true)
       ∧ (∃ x, st.2 !! i = Some x ∧ flt fzero x = true)
       ∧ sign_seenb idx data i true = true
       ∧ sign_seenb idx data i false = true)
  ∧ (∀ i : nat, (j ≤ i)%nat →
       st.1 !! i = stdP !! i ∧ st.2 !! i = stdN !! i).

Definition f_minus_two : float := S754_finite true (2 ^ 23) (-22).

(** A data set with both signs, and two values of each, at both
    coordinates. *)
Definition data_stats : list (list float) :=
  [[f_one; f_one]; [f_two; f_two]; [f_minus_one; f_minus_one];
   [f_minus_two; f_minus_two]].

(** The statistics of [data_stats] under [idx_2bit]: means 1.5 and -1.5,
    deviations 0.5. *)
Definition stats_2bit : list (list float) :=
  [[S754_finite false 12582912 (-23); S754_finite false 12582912 (-23)];
   [S754_finite true 12582912 (-23); S754_finite true 12582912 (-23)];
   [f_half; f_half]; [f_half; f_half]].

(** ** A query whose projection overflows *)




(** ** Loading into an index that is not new *)

(** The first [l] tables of the loading index hold no bucket. *)
Definition no_bucketsb (l : nat) (ld : laItqLsh) : bool :=
  forallb (fun tbl : bucketMap => match tbl with [] => true | _ => false end)
          (take l (tables ld)).

(** The index under construction by [load] into [ld] from the file of
    [idx], once its first [k] tables are read: the entries from [k] on are
    those of [ld] after the resize. *)
Definition loading_prefix (idx ld : laItqLsh) (k : nat) : laItqLsh :=
  let p := param idx in
  let l := Z.to_nat (Param.L p) in
  let n := Z.to_nat (Param.N p) in
  mkIndex (Param.mk (Param.M p) (Param.L p) (Param.D p) (Param.N p)
                    (Param.S p) (Param.I (param ld)))
    (take k (pcsAll idx) ++ drop k (resize_ l [] (pcsAll ld)))
    (take k (omegasAll idx) ++ drop k (resize_ l [] (omegasAll ld)))
    (take k (map (take n) (rndArray idx)) ++ drop k (resize_ l [] (rndArray ld)))
    (take k (tables idx) ++ drop k (resize_ l [] (tables ld)))
    (meanAndSTD ld).

(** The index that [load] into [ld] builds from the file of [idx]. *)
Definition reloaded_into (idx ld : laItqLsh) : laItqLsh :=
  mkIndex (Param.mk (Param.M (param idx)) (Param.L (param idx))
             (Param.D (param idx)) (Param.N (param idx))
             (Param.S (param idx)) (Param.I (param ld)))
    (pcsAll idx) (omegasAll idx)
    (map (take (Z.to_nat (Param.N (param idx)))) (rndArray idx))
    (tables idx) (meanAndSTD ld).

(** A loading index that holds a bucket already. *)
Definition loader_bucket5 : laItqLsh :=
  mkIndex (Param.mk 0 0 0 0 0 0) [] [] [] [[(5, [77])]] [].

(** [idx_2bit_hashed] with a third entry in every row of its projection
    matrix: the table count is [L], the matrix is wider than [D]. *)
Definition idx_wide : laItqLsh :=
  mkIndex (Param.mk 521 1 2 2 4 10)
    [[[f_one; fzero; f_two]; [fzero; f_one; f_two]]]
    [[[f_one; fzero]; [fzero; f_one]]]
    [[7; 9]] [[(0, [3]); (1, [1; 5]); (2, [2]); (3, [0; 4])]] [].

(** An index after [reset], before [train]: the table count is [L], the
    matrices have no row. *)
Definition idx_untrained : laItqLsh :=
  mkIndex (Param.mk 521 1 2 2 4 10) [[]] [[]] [[7; 9]] [[]] [].

(** * Properties *)

(** ** Facts about outcomes and loops *)

Lemma bind_Ok {A B : Type} (m : result A) (f : A → result B) (b : B) :
  m ≫= f = Ok b ↔ ∃ a, m = Ok a ∧ f a = Ok b.
Proof.
  destruct m; simpl; split; try (intros [a [Ha _]]; discriminate Ha);
    try discriminate.
  - intros H; exists a; auto.
  - intros [a' [Ha Hf]]. injection Ha as ->. exact Hf.
Qed.

Lemma at_Ok {A : Type} (v : list A) (i : nat) (x : A) :
  at_ v i = Ok x ↔ v !! i = Some x.
Proof.
  unfold at_. destruct (v !! i); split; intros H; congruence.
Qed.

Lemma at_lt {A : Type} (v : list A) (i : nat) :
  (i < length v)%nat → ∃ x, at_ v i = Ok x ∧ v !! i = Some x.
Proof.
  intros Hi. destruct (lookup_lt_is_Some_2 v i Hi) as [x Hx].
  exists x. split; [by apply at_Ok | done].
Qed.

(** A loop whose body computes a value and then updates the state purely
    is the fold of the update over the collected values. *)
Lemma for_collect {B St : Type} (g : nat → result B)
    (step : nat → B → St → St) (n from : nat) (s : St) :
  for_ n from (fun i st => p ← g i; Ok (step i p st)) s
  = ps ← collect n from g; Ok (fold_idx step from ps s).
Proof.
  revert from s. induction n as [|n IH]; intros from s; simpl; [done|].
  destruct (g from) as [p| | |]; simpl; try done.
  rewrite IH. destruct (collect n (S from) g); done.
Qed.

Lemma collect_length {B : Type} (g : nat → result B) (n from : nat)
    (ps : list B) :
  collect n from g = Ok ps → length ps = n.
Proof.
  revert from ps. induction n as [|n IH]; intros from ps; simpl.
  - intros [= <-]. done.
  - intros H. apply bind_Ok in H as [p [_ H]].
    apply bind_Ok in H as [ps' [Hps [= <-]]].
    simpl. f_equal. eauto.
Qed.

Lemma collect_Ok {B : Type} (g : nat → result B) (n from : nat) :
  (∀ i, (from ≤ i < from + n)%nat → ∃ p, g i = Ok p) →
  ∃ ps, collect n from g = Ok ps.
Proof.
  revert from. induction n as [|n IH]; intros from Hg; simpl; [eauto|].
  destruct (Hg from) as [p ->]; [lia|].
  destruct (IH (S from)) as [ps ->]; [intros i Hi; apply Hg; lia|].
  simpl. eauto.
Qed.

Lemma fold_idx_insert {B : Type} (ps pre post : list B) :
  length post = length ps →
  fold_idx (fun i p (st : list B) => <[i := p]> st) (length pre) ps
           (pre ++ post)
  = pre ++ ps.
Proof.
  revert pre post. induction ps as [|p ps IH]; intros pre post Hlen; simpl.
  - destruct post; [done | discriminate].
  - destruct post as [|q post]; [discriminate|].
    assert (E : <[length pre := p]> (pre ++ q :: post) = (pre ++ [p]) ++ post).
    { rewrite insert_app_r_alt by lia.
      replace (length pre - length pre)%nat with 0%nat by lia.
      simpl. by rewrite <- app_assoc. }
    rewrite E.
    replace (Datatypes.S (length pre)) with (length (pre ++ [p]))
      by (rewrite length_app; simpl; lia).
    rewrite IH by (simpl in Hlen; lia).
    by rewrite <- app_assoc.
Qed.

Lemma fold_idx_const {B St : Type} (step : B → St → St) (from : nat)
    (ps : list B) (s : St) :
  fold_idx (fun _ => step) from ps s = fold_left (fun st p => step p st) ps s.
Proof.
  revert from s. induction ps as [|p ps IH]; intros from s; simpl; auto.
Qed.

(** ** Hasher: the two entry points run the same projection *)

Lemma getHashFloats_products idx k domin :
  getHashFloats idx k domin = hashProducts idx k domin.
Proof.
  unfold getHashFloats, hashProducts.
  destruct (at_ (pcsAll idx) k) as [pcs| | |]; simpl; try done.
  destruct (project domin pcs) as [dpc| | |]; simpl; try done.
  rewrite (for_collect (rotated idx k dpc)
             (fun i p (st : list float) => <[i := p]> st)).
  destruct (collect (length dpc) 0 (rotated idx k dpc)) as [ps| | |] eqn:E;
    simpl; try done.
  apply collect_length in E.
  f_equal.
  apply (fold_idx_insert ps [] (replicate (length dpc) fzero)).
  rewrite length_replicate. done.
Qed.

Lemma getHashVal_products idx k domin :
  getHashVal idx k domin
  = ps ← hashProducts idx k domin; Ok (packProducts ps).
Proof.
  unfold getHashVal, hashProducts.
  destruct (at_ (pcsAll idx) k) as [pcs| | |]; simpl; try done.
  destruct (project domin pcs) as [dpc| | |]; simpl; try done.
  rewrite (for_collect (rotated idx k dpc) (fun _ p h => packStep p h)).
  destruct (collect (length dpc) 0 (rotated idx k dpc)) as [ps| | |];
    simpl; try done.
  by rewrite fold_idx_const.
Qed.

Lemma shapeb_spec {A : Type} (m : list (list A)) rows cols :
  shapeb m rows cols = true ↔
  length m = rows ∧ ∀ i r, m !! i = Some r → length r = cols.
Proof.
  unfold shapeb. rewrite andb_true_iff, Nat.eqb_eq, forallb_forall.
  split; intros [H1 H2]; split; auto.
  - intros i r Hr. apply Nat.eqb_eq, H2.
    apply list_elem_of_In, list_elem_of_lookup. eauto.
  - intros r Hr. apply list_elem_of_In, list_elem_of_lookup in Hr as [i Hi].
    apply Nat.eqb_eq. eauto.
Qed.

Lemma accumulate_Ok (vec row : list float) (j : nat) (acc : float) :
  (j + length row ≤ length vec)%nat → ∃ r, accumulate vec row j acc = Ok r.
Proof.
  revert j acc. induction row as [|w row IH]; intros j acc Hlen; simpl.
  - eauto.
  - simpl in Hlen. destruct (at_lt vec j) as [x [-> _]]; [lia|]. simpl.
    apply IH. lia.
Qed.

Lemma project_Ok (domin : list float) (pcs : list (list float)) :
  (∀ i r, pcs !! i = Some r → (length r ≤ length domin)%nat) →
  ∃ dpc, project domin pcs = Ok dpc ∧ length dpc = length pcs.
Proof.
  induction pcs as [|row pcs IH]; intros Hrows; simpl.
  - eauto.
  - destruct (accumulate_Ok domin row 0 fzero) as [x ->].
    { specialize (Hrows 0%nat row eq_refl). lia. }
    destruct IH as [xs [-> Hxs]].
    { intros i r Hr. apply (Hrows (Datatypes.S i) r Hr). }
    simpl. eexists; split; [done|]. simpl. by rewrite Hxs.
Qed.

Lemma hashProducts_Ok idx k domin :
  trainedb idx k = true → vecb idx domin = true →
  ∃ ps, hashProducts idx k domin = Ok ps
        ∧ length ps = Z.to_nat (Param.N (param idx)).
Proof.
  unfold trainedb, vecb, hashProducts. intros Ht Hv.
  apply Nat.eqb_eq in Hv.
  apply andb_true_iff in Ht as [_ Ht].
  destruct (pcsAll idx !! k) as [pcs|] eqn:Epcs; [|done].
  destruct (omegasAll idx !! k) as [om|] eqn:Eom; [|done].
  apply andb_true_iff in Ht as [Hp Ho].
  apply shapeb_spec in Hp as [Hp1 Hp2]. apply shapeb_spec in Ho as [Ho1 Ho2].
  rewrite (proj2 (at_Ok (pcsAll idx) k pcs) Epcs). simpl.
  destruct (project_Ok domin pcs) as [dpc [-> Hd]].
  { intros i r Hr. rewrite (Hp2 i r Hr). lia. }
  simpl.
  destruct (collect_Ok (rotated idx k dpc) (length dpc) 0) as [ps Hps].
  { intros i Hi. unfold rotated.
    rewrite (proj2 (at_Ok (omegasAll idx) k om) Eom). simpl.
    destruct (at_lt om i) as [row [-> Hrow]]; [lia|]. simpl.
    apply accumulate_Ok. rewrite (Ho2 i row Hrow). lia. }
  exists ps. split; [done|].
  apply collect_length in Hps. lia.
Qed.

Lemma getHashFloats_Ok idx k domin :
  trainedb idx k = true → vecb idx domin = true →
  ∃ fs, getHashFloats idx k domin = Ok fs
        ∧ length fs = Z.to_nat (Param.N (param idx))
        ∧ getHashBits idx k domin = Ok (quantization fs)
        ∧ getHashVal idx k domin = Ok (packProducts fs).
Proof.
  intros Ht Hv. destruct (hashProducts_Ok idx k domin Ht Hv) as [ps [Hps Hl]].
  exists ps. unfold getHashBits.
  rewrite getHashVal_products, getHashFloats_products, Hps. done.
Qed.

(** ** Width of the packed code *)

Lemma wrap32_range z : 0 ≤ wrap32 z < 2 ^ 32.
Proof. unfold wrap32. apply Z.mod_pos_bound. lia. Qed.

Lemma wrap32_le z : 0 ≤ z → wrap32 z ≤ z.
Proof. intros Hz. unfold wrap32. apply Z.mod_le; lia. Qed.

Lemma wrap32_small z : 0 ≤ z < 2 ^ 32 → wrap32 z = z.
Proof. intros Hz. unfold wrap32. apply Z.mod_small. lia. Qed.

Lemma packStep_bound p h n :
  0 ≤ n → 0 ≤ h < 2 ^ n → 0 ≤ packStep p h < 2 ^ (n + 1).
Proof.
  intros Hn Hh. unfold packStep.
  assert (H2 : 2 ^ (n + 1) = 2 * 2 ^ n) by (rewrite Z.pow_add_r; lia).
  pose proof (wrap32_range (h * 2)) as Hr.
  pose proof (wrap32_le (h * 2)) as Hle.
  pose proof (wrap32_range (wrap32 (h * 2) + 1)) as Hr'.
  pose proof (wrap32_le (wrap32 (h * 2) + 1)) as Hle'.
  destruct (flt fzero p); lia.
Qed.

Lemma packStep_u32 p h : 0 ≤ packStep p h < 2 ^ 32.
Proof.
  unfold packStep. destruct (flt fzero p); apply wrap32_range.
Qed.

Lemma fold_packStep_bound ps h n :
  0 ≤ n → 0 ≤ h < 2 ^ n →
  0 ≤ fold_left (fun h p => packStep p h) ps h < 2 ^ (n + Z.of_nat (length ps)).
Proof.
  revert h n. induction ps as [|p ps IH]; intros h n Hn Hh; simpl length.
  - simpl. replace (n + Z.of_nat 0) with n by lia. done.
  - simpl fold_left.
    replace (n + Z.of_nat (Datatypes.S (length ps)))
      with ((n + 1) + Z.of_nat (length ps)) by lia.
    apply IH; [lia|]. by apply packStep_bound.
Qed.

Lemma fold_packStep_u32 ps h :
  0 ≤ h < 2 ^ 32 → 0 ≤ fold_left (fun h p => packStep p h) ps h < 2 ^ 32.
Proof.
  revert h. induction ps as [|p ps IH]; intros h Hh; simpl; [done|].
  apply IH, packStep_u32.
Qed.

(** The loop of [getHashVal] shifts in one binary digit for each rotated
    coordinate: the code has as many digits as there are coordinates. *)
Lemma packProducts_bound ps :
  0 ≤ packProducts ps < 2 ^ Z.of_nat (length ps)
  ∧ 0 ≤ packProducts ps < 2 ^ 32.
Proof.
  unfold packProducts. split.
  - apply (fold_packStep_bound ps 0 0); lia.
  - apply fold_packStep_u32. lia.
Qed.

(** ** Generic loop invariants *)

Lemma for_inv {St : Type} (P : St → Prop) (n from : nat)
    (body : nat → St → result St) (s : St) :
  P s →
  (∀ i s, (from ≤ i < from + n)%nat → P s → ∃ s', body i s = Ok s' ∧ P s') →
  ∃ s', for_ n from body s = Ok s' ∧ P s'.
Proof.
  revert from s. induction n as [|n IH]; intros from s Hs Hbody; simpl.
  - eauto.
  - destruct (Hbody from s) as [s1 [-> Hs1]]; [lia | done |]. simpl.
    apply IH; [done|]. intros i s2 Hi. apply Hbody. lia.
Qed.

Lemma foreach_inv {A St : Type} (P : St → Prop) (l : list A)
    (body : A → St → result St) (s : St) :
  P s →
  (∀ x s, x ∈ l → P s → ∃ s', body x s = Ok s' ∧ P s') →
  ∃ s', foreach_ l body s = Ok s' ∧ P s'.
Proof.
  revert s. induction l as [|x l IH]; intros s Hs Hbody; simpl.
  - eauto.
  - destruct (Hbody x s) as [s1 [-> Hs1]]; [left | done |]. simpl.
    apply IH; [done|]. intros y s2 Hy. apply Hbody. by right.
Qed.

(** ** The sign test of [getHashVal] against the one of [quantization] *)

Lemma packStep_mod (p : float) (h a : Z) :
  h = a mod 2 ^ 32 →
  packStep p h = (2 * a + Z.b2z (flt fzero p)) mod 2 ^ 32.
Proof.
  intros ->. unfold packStep, wrap32.
  generalize (2 ^ 32). intros m.
  destruct (flt fzero p); cbn [Z.b2z].
  - rewrite Zmult_mod_idemp_l, Zplus_mod_idemp_l. f_equal. lia.
  - rewrite Zmult_mod_idemp_l. f_equal. lia.
Qed.

(** [getHashVal] packs, most significant bit first and modulo [2^32], the
    bits [product > 0]. *)
Lemma packProducts_packBits (ps : list float) :
  packProducts ps = wrap32 (packBits (map (fun p => flt fzero p) ps)).
Proof.
  unfold packProducts, packBits.
  assert (G : ∀ h a, 0 ≤ h < 2 ^ 32 → h = a mod 2 ^ 32 →
    fold_left (fun h p => packStep p h) ps h
    = wrap32 (fold_left (fun acc (x : bool) => 2 * acc + Z.b2z x)
                        (map (fun p => flt fzero p) ps) a)).
  { induction ps as [|p ps IH]; intros h a Hh Ha; cbn [fold_left map].
    - unfold wrap32. rewrite <- Ha. done.
    - apply IH; [apply packStep_u32|]. by apply packStep_mod. }
  apply G; [lia | done].
Qed.

(** The two sign tests agree on every float but the zeros. *)
Lemma sign_tests_agree (x : float) :
  is_fzero x = false → flt fzero x = fle fzero x.
Proof.
  destruct x as [s|s| |s m e]; try done; by destruct s.
Qed.

Lemma sign_tests_differ (x : float) :
  is_fzero x = true → flt fzero x = false ∧ fle fzero x = true.
Proof.
  destruct x as [s|s| |s m e]; try done.
Qed.

(** Away from the zeros, [getHashVal] is the packing of [getHashBits]. *)
Lemma getHashVal_getHashBits_off_zero idx k domin :
  trainedb idx k = true → vecb idx domin = true →
  ∃ fs bits, getHashFloats idx k domin = Ok fs
    ∧ getHashBits idx k domin = Ok bits
    ∧ (forallb (fun x => negb (is_fzero x)) fs = true →
       getHashVal idx k domin = Ok (wrap32 (packBits bits))).
Proof.
  intros Ht Hv.
  destruct (getHashFloats_Ok idx k domin Ht Hv) as [fs [Hfs [_ [Hb Hh]]]].
  exists fs, (quantization fs). repeat split; try done.
  intros Hnz. rewrite Hh, packProducts_packBits. do 3 f_equal.
  unfold quantization. apply map_ext_in. intros x Hx.
  rewrite forallb_forall in Hnz. specialize (Hnz x Hx).
  rewrite sign_tests_agree by (by destruct (is_fzero x)).
  by destruct (fle fzero x).
Qed.

(** C1.  Stated for every trained table and every vector, the claim is that
    [getHashVal] is the most-significant-bit-first packing of [getHashBits],
    zero counting as positive in both.  On the one-bit table [idx_1bit] and
    the vector [[0]] the rotated coordinate is [0]: [getHashVal] tests
    [product > 0] and returns the code 0, while [quantization] tests
    [hashFloats[i] >= 0] and [getHashBits] returns the bit 1, whose packing
    is 1. *)
Theorem C1_getHashVal_strict_at_zero :
  trainedb idx_1bit 0 = true ∧ vecb idx_1bit [fzero] = true
  ∧ getHashFloats idx_1bit 0 [fzero] = Ok [fzero]
  ∧ getHashVal idx_1bit 0 [fzero] = Ok 0
  ∧ getHashBits idx_1bit 0 [fzero] = Ok [true]
  ∧ wrap32 (packBits [true]) = 1.
Proof. repeat split; vm_compute; reflexivity. Qed.

(** ** Code width *)

Lemma trainedb_ext idx idx' k :
  param idx' = param idx → pcsAll idx' = pcsAll idx →
  omegasAll idx' = omegasAll idx → trainedb idx' k = trainedb idx k.
Proof. unfold trainedb. by intros -> -> ->. Qed.

Lemma vecb_ext idx idx' v :
  param idx' = param idx → vecb idx' v = vecb idx v.
Proof. unfold vecb. by intros ->. Qed.

Lemma bm_push_back_keys (m : bucketMap) (key item key' : Z) :
  key' ∈ bm_keys (bm_push_back m key item) → key' = key ∨ key' ∈ bm_keys m.
Proof.
  unfold bm_keys. induction m as [|[k v] m IH]; simpl.
  - intros H. apply list_elem_of_singleton in H. by left.
  - destruct (key <? k) eqn:E1; [|destruct (key =? k) eqn:E2]; simpl.
    + intros H. apply elem_of_cons in H as [H|H]; [by left|by right].
    + intros H. by right.
    + intros H. apply elem_of_cons in H as [H|H].
      * right. subst. apply list_elem_of_here.
      * destruct (IH H); [by left|]. right. by apply list_elem_of_further.
Qed.

(** The model around the tables: parameters and matrices. *)
Definition same_model (idx idx' : laItqLsh) : Prop :=
  param idx' = param idx ∧ pcsAll idx' = pcsAll idx
  ∧ omegasAll idx' = omegasAll idx
  ∧ length (tables idx') = length (tables idx).

Lemma code_widthb_spec idx :
  code_widthb idx = true ↔
  ∀ tbl key, tbl ∈ tables idx → key ∈ bm_keys tbl →
             0 ≤ key ≤ 2 ^ Param.N (param idx) - 1.
Proof.
  unfold code_widthb. rewrite forallb_forall. split.
  - intros H tbl key Ht Hk. apply list_elem_of_In in Ht, Hk.
    specialize (H tbl Ht). rewrite forallb_forall in H.
    specialize (H key Hk). lia.
  - intros H tbl Ht. apply forallb_forall. intros key Hk.
    apply list_elem_of_In in Ht, Hk. specialize (H tbl key Ht Hk). lia.
Qed.

Lemma all_trainedb_spec idx :
  all_trainedb idx = true ↔
  (∀ k, (k < Z.to_nat (Param.L (param idx)))%nat → trainedb idx k = true)
  ∧ Z.of_nat (length (tables idx)) = Param.L (param idx).
Proof.
  unfold all_trainedb. rewrite andb_true_iff, forallb_forall, Z.eqb_eq.
  split; intros [H1 H2]; split; try done.
  - intros k Hk. apply H1, in_seq. lia.
  - intros k Hk. apply in_seq in Hk. apply H1. lia.
Qed.

(** One call of [insert] on a trained index succeeds and stores only codes
    of [N] binary digits. *)
Lemma insert_code_width idx key domin :
  all_trainedb idx = true → vecb idx domin = true → code_widthb idx = true →
  ∃ idx', insert idx key domin = Ok idx'
          ∧ same_model idx idx' ∧ code_widthb idx' = true.
Proof.
  intros Ht Hv Hw. unfold insert.
  apply all_trainedb_spec in Ht as [Ht Hlen].
  apply (for_inv (fun idx' => same_model idx idx' ∧ code_widthb idx' = true)).
  { by repeat split. }
  intros k idx1 Hk [[Hp [Hpc [Hom Hl]]] Hw1].
  destruct (getHashFloats_Ok idx1 k domin) as [fs [_ [Hfs [_ ->]]]].
  { rewrite (trainedb_ext idx idx1 k Hp Hpc Hom). apply Ht. lia. }
  { by rewrite (vecb_ext idx idx1 domin Hp). }
  simpl. destruct (at_lt (tables idx1) k) as [tbl [-> Htbl]]; [lia|]. simpl.
  eexists; split; [done|]. split.
  { repeat split; simpl; try done. rewrite length_insert. done. }
  apply code_widthb_spec. intros tbl' key' Hin Hkey. simpl in *.
  apply list_elem_of_lookup in Hin as [j Hj].
  destruct (decide (j = k)) as [->|Hne].
  - rewrite list_lookup_insert_eq in Hj by lia. injection Hj as <-.
    apply bm_push_back_keys in Hkey as [->|Hkey].
    + destruct (packProducts_bound fs) as [Hb _]. rewrite Hfs in Hb.
      assert (0 ≤ Param.N (param idx1)).
      { specialize (Ht k ltac:(lia)). unfold trainedb in Ht.
        rewrite Hp. lia. }
      rewrite Z2Nat.id in Hb by done. lia.
    + rewrite code_widthb_spec in Hw1. apply (Hw1 tbl key'); [|done].
      apply list_elem_of_lookup. eauto.
  - rewrite list_lookup_insert_ne in Hj by done.
    rewrite code_widthb_spec in Hw1. apply (Hw1 tbl' key'); [|done].
    apply list_elem_of_lookup. eauto.
Qed.

Lemma all_trainedb_same idx idx' :
  same_model idx idx' → all_trainedb idx = true → all_trainedb idx' = true.
Proof.
  intros [Hp [Hpc [Hom Hl]]] H. apply all_trainedb_spec in H as [H1 H2].
  apply all_trainedb_spec. rewrite Hp, Hl. split; [|done].
  intros k Hk. rewrite (trainedb_ext idx idx' k Hp Hpc Hom). by apply H1.
Qed.

Lemma same_model_trans a b c :
  same_model a b → same_model b c → same_model a c.
Proof.
  intros [H1 [H2 [H3 H4]]] [G1 [G2 [G3 G4]]].
  repeat split; congruence.
Qed.

(** C9.  On an index all of whose [L] tables are trained, every sequence of
    calls of [insert] with vectors of dimension [D], and every call of
    [hash] on such a dataset, runs to its end and leaves every key of every
    table at most [2^N - 1], provided the keys already stored are: the code
    that [getHashVal] returns has [N] binary digits. *)
Theorem C9_code_width_invariant (idx : laItqLsh)
    (calls : list (Z * list float)) (data : list (list float)) :
  all_trainedb idx = true →
  code_widthb idx = true →
  forallb (fun c => vecb idx (snd c)) calls = true →
  forallb (vecb idx) data = true →
  (∃ idx', insert_all idx calls = Ok idx'
     ∧ ∀ tbl key, tbl ∈ tables idx' → key ∈ bm_keys tbl →
                  0 ≤ key ≤ 2 ^ Param.N (param idx) - 1)
  ∧ (∃ idx', hash idx data = Ok idx'
     ∧ ∀ tbl key, tbl ∈ tables idx' → key ∈ bm_keys tbl →
                  0 ≤ key ≤ 2 ^ Param.N (param idx) - 1).
Proof.
  intros Ht Hw Hcalls Hdata.
  set (P := fun idx' => same_model idx idx' ∧ code_widthb idx' = true).
  assert (Hstep : ∀ idx1 key v, P idx1 → vecb idx v = true →
            ∃ idx2, insert idx1 key v = Ok idx2 ∧ P idx2).
  { intros idx1 key v [Hs Hw1] Hv.
    destruct (insert_code_width idx1 key v) as [idx2 [E [Hs2 Hw2]]];
      [ by apply (all_trainedb_same idx)
      | by rewrite (vecb_ext idx idx1 v (proj1 Hs))
      | done | ].
    exists idx2. split; [done|]. split; [|done].
    by apply (same_model_trans idx idx1 idx2). }
  assert (Hfin : ∀ idx', P idx' →
            ∀ tbl key, tbl ∈ tables idx' → key ∈ bm_keys tbl →
                       0 ≤ key ≤ 2 ^ Param.N (param idx) - 1).
  { intros idx' [[Hp _] Hw']. rewrite <- Hp. by apply code_widthb_spec. }
  split.
  - destruct (foreach_inv P calls
                (fun '(key, v) idx => insert idx key v) idx)
      as [idx' [E HP]].
    + by repeat split.
    + intros [key v] idx1 Hin HP. apply Hstep; [done|].
      rewrite forallb_forall in Hcalls.
      apply (Hcalls (key, v)). by apply list_elem_of_In.
    + exists idx'. split; [exact E | by apply Hfin].
  - destruct (for_inv P (length data) 0
                (fun i idx => v ← at_ data i; insert idx (wrap32 (Z.of_nat i)) v)
                idx) as [idx' [E HP]].
    + by repeat split.
    + intros i idx1 Hi HP.
      destruct (at_lt data i) as [v [-> Hv]]; [lia|]. simpl.
      apply Hstep; [done|]. rewrite forallb_forall in Hdata.
      apply Hdata, list_elem_of_In, list_elem_of_lookup. eauto.
    + exists idx'. split; [exact E | by apply Hfin].
Qed.

Lemma C9_code_width_invariant_witness :
  (∃ idx', insert_all idx_2bit [(5, [f_one; f_minus_one]); (9, [fzero; f_two])]
           = Ok idx'
     ∧ ∀ tbl key, tbl ∈ tables idx' → key ∈ bm_keys tbl →
                  0 ≤ key ≤ 2 ^ Param.N (param idx_2bit) - 1)
  ∧ (∃ idx', hash idx_2bit data_2bit = Ok idx'
     ∧ ∀ tbl key, tbl ∈ tables idx' → key ∈ bm_keys tbl →
                  0 ≤ key ≤ 2 ^ Param.N (param idx_2bit) - 1).
Proof.
  apply (C9_code_width_invariant idx_2bit
           [(5, [f_one; f_minus_one]); (9, [fzero; f_two])] data_2bit);
    reflexivity.
Defined.

(** ** [unsignedToBools] *)

Lemma while_unfold {St : Type} (fuel : nat) (cond : St → result bool)
    (body : St → result St) (s : St) :
  while_ fuel cond body s
  = c ← cond s;
    if c : bool then
      match fuel with
      | O => OutOfFuel
      | Datatypes.S fuel' => s' ← body s; while_ fuel' cond body s'
      end
    else Ok s.
Proof. destruct fuel; reflexivity. Qed.

Definition utb_cond : list bool * Z * Z → result bool :=
  fun '(bits, nBits, num) => Ok (0 <? num).

Definition utb_body : list bool * Z * Z → result (list bool * Z * Z) :=
  fun '(bits, nBits, num) =>
    let nBits := nBits - 1 in
    if (0 <=? nBits) && (nBits <? Z.of_nat (length bits))
    then Ok (<[Z.to_nat nBits := Z.odd num]> bits, nBits, num / 2)
    else Undefined.

Lemma utb_body_in (bits : list bool) (nb num : Z) :
  1 ≤ nb ≤ Z.of_nat (length bits) →
  utb_body (bits, nb, num)
  = Ok (<[Z.to_nat (nb - 1) := Z.odd num]> bits, nb - 1, num / 2).
Proof.
  intros H. unfold utb_body.
  replace ((0 <=? nb - 1) && (nb - 1 <? Z.of_nat (length bits)))
    with true by (symmetry; apply andb_true_iff; lia).
  done.
Qed.

Lemma utb_body_out (bits : list bool) (num : Z) :
  utb_body (bits, 0, num) = Undefined.
Proof. reflexivity. Qed.

(** The loop writes the digits of [num] below position [nBits], from the
    least significant one downwards, and leaves the rest as it is. *)
Lemma utb_loop_ok (fuel : nat) (bits : list bool) (nb num : Z) :
  0 ≤ num < 2 ^ Z.of_nat fuel →
  0 ≤ nb ≤ Z.of_nat (length bits) →
  num < 2 ^ nb →
  (∀ i, (Z.of_nat i < nb) → bits !! i = Some false) →
  ∃ bits' nb' num',
    while_ fuel utb_cond utb_body (bits, nb, num) = Ok (bits', nb', num')
    ∧ length bits' = length bits
    ∧ ∀ i, bits' !! i =
           if Z.of_nat i <? nb
           then Some (Z.testbit num (nb - 1 - Z.of_nat i))
           else bits !! i.
Proof.
  revert bits nb num.
  induction fuel as [|fuel IH]; intros bits nb num Hnum Hnb Hlt Hfalse;
    rewrite while_unfold; cbn [utb_cond mbind result_bind].
  - assert (num = 0) by (simpl in Hnum; lia). subst num. simpl.
    exists bits, nb, 0. repeat split.
    intros i. destruct (Z.of_nat i <? nb) eqn:E; [|done].
    rewrite Z.testbit_0_l. apply Hfalse. lia.
  - destruct (0 <? num) eqn:Epos.
    2:{ assert (num = 0) by lia. subst num.
        exists bits, nb, 0. repeat split.
        intros i. destruct (Z.of_nat i <? nb) eqn:E; [|done].
        rewrite Z.testbit_0_l. apply Hfalse. lia. }
    assert (Hnb1 : 1 ≤ nb).
    { destruct (Z.le_gt_cases 1 nb); [done|].
      assert (nb = 0) by lia. subst nb. simpl in Hlt. lia. }
    rewrite utb_body_in by lia.
    cbn [mbind result_bind].
    assert (Hpow : 2 ^ nb = 2 * 2 ^ (nb - 1)).
    { rewrite <- Z.pow_succ_r by lia. f_equal. lia. }
    assert (Hpowf : 2 ^ Z.of_nat (Datatypes.S fuel) = 2 * 2 ^ Z.of_nat fuel).
    { rewrite Nat2Z.inj_succ, Z.pow_succ_r by lia. done. }
    destruct (IH (<[Z.to_nat (nb - 1) := Z.odd num]> bits) (nb - 1) (num / 2))
      as (bits' & nb' & num' & E & Hlen & Hlook).
    + split; [apply Z.div_pos; lia|].
      apply Z.div_lt_upper_bound; lia.
    + rewrite length_insert. lia.
    + apply Z.div_lt_upper_bound; lia.
    + intros i Hi. rewrite list_lookup_insert_ne by lia. apply Hfalse. lia.
    + exists bits', nb', num'. split; [exact E|].
      split; [by rewrite Hlen, length_insert|].
      intros i. rewrite Hlook.
      destruct (Z.of_nat i <? nb - 1) eqn:E1.
      * replace (Z.of_nat i <? nb) with true by lia.
        f_equal. rewrite <- Z.div2_div, Z.div2_spec, Z.shiftr_spec by lia.
        f_equal. lia.
      * destruct (Z.of_nat i <? nb) eqn:E2.
        -- assert (i = Z.to_nat (nb - 1)) by lia. subst i.
           rewrite list_lookup_insert_eq by lia.
           f_equal. rewrite <- Z.bit0_odd. f_equal. lia.
        -- rewrite list_lookup_insert_ne by lia. done.
Qed.

(** With a code of more than [nBits] digits the loop comes to
    [bits[--nBits]] with [nBits] at zero. *)
Lemma utb_loop_undefined (fuel : nat) (bits : list bool) (nb num : Z) :
  0 ≤ num < 2 ^ Z.of_nat fuel →
  0 ≤ nb ≤ Z.of_nat (length bits) →
  2 ^ nb ≤ num →
  while_ fuel utb_cond utb_body (bits, nb, num) = Undefined.
Proof.
  revert bits nb num.
  induction fuel as [|fuel IH]; intros bits nb num Hnum Hnb Hge;
    rewrite while_unfold; cbn [utb_cond mbind result_bind].
  - assert (0 < 2 ^ nb) by (apply Z.pow_pos_nonneg; lia).
    simpl in Hnum. lia.
  - assert (0 < 2 ^ nb) by (apply Z.pow_pos_nonneg; lia).
    replace (0 <? num) with true by lia.
    destruct (Z.eq_dec nb 0) as [->|Hne].
    + rewrite utb_body_out. done.
    + rewrite utb_body_in by lia.
      cbn [mbind result_bind].
      assert (Hpow : 2 ^ nb = 2 * 2 ^ (nb - 1)).
      { rewrite <- Z.pow_succ_r by lia. f_equal. lia. }
      assert (Hpowf : 2 ^ Z.of_nat (Datatypes.S fuel) = 2 * 2 ^ Z.of_nat fuel).
      { rewrite Nat2Z.inj_succ, Z.pow_succ_r by lia. done. }
      apply IH.
      * split; [apply Z.div_pos; lia|]. apply Z.div_lt_upper_bound; lia.
      * rewrite length_insert. lia.
      * apply Z.div_le_lower_bound; lia.
Qed.

Lemma unsignedToBools_unfold idx num :
  unsignedToBools idx num =
  let nBits := toInt (Param.N (param idx)) in
  if nBits <? 0 then Undefined else
  let bits := replicate (Z.to_nat nBits) false in
  '(bits, _, _) ← while_ 32 utb_cond utb_body (bits, nBits, num);
  _ ← assert_ (Z.of_nat (length bits) =? Param.N (param idx));
  Ok bits.
Proof. reflexivity. Qed.

Lemma codeBits_length n num : length (codeBits n num) = n.
Proof. unfold codeBits. by rewrite length_map, length_seq. Qed.

Lemma codeBits_lookup n num i :
  (i < n)%nat →
  codeBits n num !! i = Some (Z.testbit num (Z.of_nat (n - 1 - i))).
Proof.
  intros Hi. unfold codeBits. rewrite list_lookup_fmap.
  rewrite lookup_seq_lt by done. done.
Qed.

Lemma packBits_snoc bits b :
  packBits (bits ++ [b]) = 2 * packBits bits + Z.b2z b.
Proof. unfold packBits. by rewrite fold_left_app. Qed.

Lemma codeBits_succ n num :
  codeBits (Datatypes.S n) num = codeBits n (num / 2) ++ [Z.odd num].
Proof.
  apply list_eq. intros i.
  destruct (decide (i < n)%nat) as [Hi|Hi].
  - rewrite lookup_app_l by (rewrite codeBits_length; lia).
    rewrite !codeBits_lookup by lia. f_equal.
    rewrite <- Z.div2_div, Z.div2_spec, Z.shiftr_spec by lia.
    f_equal. lia.
  - destruct (decide (i = n)) as [->|Hne].
    + rewrite lookup_app_r by (rewrite codeBits_length; lia).
      rewrite codeBits_length, Nat.sub_diag. simpl.
      rewrite codeBits_lookup by lia.
      replace (Datatypes.S n - 1 - n)%nat with 0%nat by lia.
      by rewrite Z.bit0_odd.
    + rewrite !lookup_ge_None_2; [done| |].
      * rewrite length_app, codeBits_length. simpl. lia.
      * rewrite codeBits_length. lia.
Qed.

(** The digits of a code of at most [n] digits pack back to the code. *)
Lemma packBits_codeBits n num :
  0 ≤ num < 2 ^ Z.of_nat n → packBits (codeBits n num) = num.
Proof.
  revert num. induction n as [|n IH]; intros num Hnum.
  - simpl in Hnum. unfold codeBits, packBits. simpl. lia.
  - rewrite codeBits_succ, packBits_snoc.
    rewrite Nat2Z.inj_succ, Z.pow_succ_r in Hnum by lia.
    rewrite IH.
    + rewrite <- Z.bit0_odd, Z.bit0_mod.
      pose proof (Z.div_mod num 2). lia.
    + split; [apply Z.div_pos; lia|]. apply Z.div_lt_upper_bound; lia.
Qed.

Lemma toInt_small z : 0 ≤ z < 2 ^ 31 → toInt z = z.
Proof. intros Hz. unfold toInt. replace (z <? 2 ^ 31) with true by lia. done. Qed.

Lemma unsignedToBools_Ok idx num :
  0 ≤ Param.N (param idx) < 2 ^ 31 →
  0 ≤ num < 2 ^ 32 → num < 2 ^ Param.N (param idx) →
  unsignedToBools idx num
  = Ok (codeBits (Z.to_nat (Param.N (param idx))) num).
Proof.
  intros Hn Hnum Hlt. rewrite unsignedToBools_unfold. cbv zeta.
  rewrite toInt_small by done.
  replace (Param.N (param idx) <? 0) with false by lia.
  destruct (utb_loop_ok 32
              (replicate (Z.to_nat (Param.N (param idx))) false)
              (Param.N (param idx)) num)
    as (bits' & nb' & num' & E & Hlen & Hlook).
  - done.
  - rewrite length_replicate. lia.
  - done.
  - intros i Hi. apply lookup_replicate_2. lia.
  - rewrite E. cbn [mbind result_bind].
    rewrite length_replicate in Hlen.
    replace (Z.of_nat (length bits') =? Param.N (param idx)) with true by lia.
    simpl. f_equal. apply list_eq. intros i. rewrite Hlook.
    destruct (Z.of_nat i <? Param.N (param idx)) eqn:Ei.
    + rewrite codeBits_lookup by lia. do 2 f_equal. lia.
    + rewrite (proj1 (lookup_replicate_None _ _ _)) by lia.
      symmetry. apply lookup_ge_None_2. rewrite codeBits_length. lia.
Qed.

Lemma unsignedToBools_Undefined idx num :
  0 ≤ Param.N (param idx) < 2 ^ 31 →
  0 ≤ num < 2 ^ 32 → 2 ^ Param.N (param idx) ≤ num →
  unsignedToBools idx num = Undefined.
Proof.
  intros Hn Hnum Hge. rewrite unsignedToBools_unfold. cbv zeta.
  rewrite toInt_small by done.
  replace (Param.N (param idx) <? 0) with false by lia.
  rewrite utb_loop_undefined; [done | done | | done].
  rewrite length_replicate. lia.
Qed.

(** C10.  For a code length [N] that an [int] holds and an [unsigned]
    [num]: when [num < 2^N], [unsignedToBools] never leaves its vector and
    returns exactly [N] entries, entry [i] being bit [N - 1 - i] of [num], so
    that their most-significant-bit-first value is [num]; when [num >= 2^N]
    the write index is decremented below zero and the write is out of the
    vector. *)
Theorem C10_unsignedToBools_bounds (idx : laItqLsh) (num : Z) :
  0 ≤ Param.N (param idx) < 2 ^ 31 →
  0 ≤ num < 2 ^ 32 →
  (num < 2 ^ Param.N (param idx) →
   ∃ bits, unsignedToBools idx num = Ok bits
     ∧ Z.of_nat (length bits) = Param.N (param idx)
     ∧ packBits bits = num
     ∧ ∀ i, (Z.of_nat i < Param.N (param idx)) →
            bits !! i = Some (Z.testbit num (Param.N (param idx) - 1 - Z.of_nat i)))
  ∧ (2 ^ Param.N (param idx) ≤ num → unsignedToBools idx num = Undefined).
Proof.
  intros Hn Hnum. split.
  - intros Hlt. eexists. split; [by apply unsignedToBools_Ok|].
    split; [rewrite codeBits_length; lia|]. split.
    + apply packBits_codeBits. rewrite Z2Nat.id by lia. lia.
    + intros i Hi. rewrite codeBits_lookup by lia. do 2 f_equal. lia.
  - by apply unsignedToBools_Undefined.
Qed.

Lemma C10_unsignedToBools_bounds_witness :
  (2 < 2 ^ Param.N (param idx_2bit) →
   ∃ bits, unsignedToBools idx_2bit 2 = Ok bits
     ∧ Z.of_nat (length bits) = Param.N (param idx_2bit)
     ∧ packBits bits = 2
     ∧ ∀ i, (Z.of_nat i < Param.N (param idx_2bit)) →
            bits !! i
            = Some (Z.testbit 2 (Param.N (param idx_2bit) - 1 - Z.of_nat i)))
  ∧ (2 ^ Param.N (param idx_2bit) ≤ 2 → unsignedToBools idx_2bit 2 = Undefined).
Proof.
  apply (C10_unsignedToBools_bounds idx_2bit 2); simpl; lia.
Defined.

(** ** The bit count of [queryRanking] *)

Lemma land_odd (a b : Z) : Z.odd (Z.land a b) = Z.odd a && Z.odd b.
Proof. rewrite <- !Z.bit0_odd. apply Z.land_spec. Qed.

Lemma land_half (a b : Z) : Z.land a b / 2 = Z.land (a / 2) (b / 2).
Proof.
  rewrite <- !Z.div2_div, !Z.div2_spec. apply Z.shiftr_land.
Qed.

Lemma lxor_odd (a b : Z) : Z.odd (Z.lxor a b) = xorb (Z.odd a) (Z.odd b).
Proof. rewrite <- !Z.bit0_odd. apply Z.lxor_spec. Qed.

Lemma lxor_half (a b : Z) : Z.lxor a b / 2 = Z.lxor (a / 2) (b / 2).
Proof.
  rewrite <- !Z.div2_div, !Z.div2_spec. apply Z.shiftr_lxor.
Qed.

Lemma half_range (x : Z) (w : nat) :
  0 ≤ x < 2 ^ Z.of_nat (Datatypes.S w) → 0 ≤ x / 2 < 2 ^ Z.of_nat w.
Proof.
  rewrite Nat2Z.inj_succ, Z.pow_succ_r by lia. intros H.
  split; [apply Z.div_pos; lia | apply Z.div_lt_upper_bound; lia].
Qed.

Lemma odd_half (x : Z) : x = 2 * (x / 2) + Z.b2z (Z.odd x).
Proof.
  rewrite <- Z.bit0_odd, Z.bit0_mod. pose proof (Z.div_mod x 2). lia.
Qed.

Lemma popcount_nonneg w x : 0 ≤ popcount w x.
Proof.
  revert x. induction w as [|w IH]; intros x; simpl; [lia|].
  specialize (IH (x / 2)). destruct (Z.odd x); simpl; lia.
Qed.

Lemma popcount_0 w : popcount w 0 = 0.
Proof.
  induction w as [|w IH]; cbn [popcount]; [done|].
  change (0 / 2) with 0. by rewrite IH.
Qed.

Lemma popcount_pos w x : 0 < x < 2 ^ Z.of_nat w → 0 < popcount w x.
Proof.
  revert x. induction w as [|w IH]; intros x Hx.
  - simpl in Hx. lia.
  - cbn [popcount]. pose proof (odd_half x) as E.
    pose proof (popcount_nonneg w (x / 2)).
    destruct (Z.odd x); simpl Z.b2z in *; [lia|].
    assert (0 < x / 2) by lia.
    pose proof (half_range x w ltac:(lia)).
    specialize (IH (x / 2) ltac:(lia)). lia.
Qed.

(** A number below [2^n] has at most [n] bits set. *)
Lemma popcount_le w x n :
  0 ≤ n → 0 ≤ x < 2 ^ n → popcount w x ≤ n.
Proof.
  revert x n. induction w as [|w IH]; intros x n Hn Hx; cbn [popcount]; [lia|].
  destruct (Z.eq_dec x 0) as [->|Hx0].
  - rewrite Z.div_0_l by lia. rewrite popcount_0. simpl. lia.
  - assert (1 ≤ n).
    { destruct (Z.eq_dec n 0) as [->|]; [simpl in Hx|]; lia. }
    assert (Hp : 2 ^ n = 2 * 2 ^ (n - 1)).
    { rewrite <- Z.pow_succ_r by lia. f_equal. lia. }
    specialize (IH (x / 2) (n - 1) ltac:(lia)).
    assert (0 ≤ x / 2 < 2 ^ (n - 1)).
    { split; [apply Z.div_pos; lia | apply Z.div_lt_upper_bound; lia]. }
    destruct (Z.odd x); simpl; lia.
Qed.

(** One turn of the loop, [xorVal &= xorVal - 1], clears the lowest bit
    that is set. *)
Lemma clear_lowest_bit w x :
  0 < x < 2 ^ Z.of_nat w →
  0 ≤ Z.land x (x - 1) < 2 ^ Z.of_nat w
  ∧ popcount w (Z.land x (x - 1)) = popcount w x - 1.
Proof.
  revert x. induction w as [|w IH]; intros x Hx.
  - simpl in Hx. lia.
  - pose proof (half_range x w ltac:(lia)) as Hh.
    pose proof (odd_half x) as Ex.
    pose proof (odd_half (Z.land x (x - 1))) as El.
    rewrite land_odd, land_half in El.
    cbn [popcount]. rewrite land_odd, land_half.
    rewrite Nat2Z.inj_succ, Z.pow_succ_r by lia.
    destruct (Z.odd x) eqn:Eo; simpl Z.b2z in *.
    + assert (E1 : (x - 1) / 2 = x / 2).
      { replace (x - 1) with (x / 2 * 2) by lia. apply Z.div_mul. lia. }
      assert (E2 : Z.odd (x - 1) = false).
      { replace (x - 1) with (2 * (x / 2)) by lia.
        rewrite Z.odd_mul. done. }
      rewrite E1, E2 in *. rewrite Z.land_diag in *. simpl in *. lia.
    + assert (0 < x / 2) by lia.
      assert (E1 : (x - 1) / 2 = x / 2 - 1).
      { replace (x - 1) with (1 + (x / 2 - 1) * 2) by lia.
        rewrite Z.div_add by lia. done. }
      rewrite E1 in *. simpl andb in *. simpl Z.b2z in *.
      destruct (IH (x / 2) ltac:(lia)) as [Hr Hp].
      rewrite Hp. lia.
Qed.

Definition cb_cond : Z * Z → result bool :=
  fun '(xorVal, hamDist) => Ok (negb (xorVal =? 0)).

Definition cb_body : Z * Z → result (Z * Z) :=
  fun '(xorVal, hamDist) =>
    Ok (Z.land xorVal (wrap32 (xorVal - 1)), wrap32 (hamDist + 1)).

Lemma countBits_loop (fuel : nat) (x h : Z) :
  0 ≤ x < 2 ^ 32 → 0 ≤ h → h + popcount 32 x < 2 ^ 32 →
  popcount 32 x ≤ Z.of_nat fuel →
  while_ fuel cb_cond cb_body (x, h) = Ok (0, h + popcount 32 x).
Proof.
  revert x h. induction fuel as [|fuel IH]; intros x h Hx Hh Hsum Hfuel;
    rewrite while_unfold; cbn [cb_cond mbind result_bind].
  - destruct (Z.eq_dec x 0) as [->|Hne].
    + simpl. do 2 f_equal. lia.
    + pose proof (popcount_pos 32 x ltac:(simpl; lia)). lia.
  - destruct (Z.eq_dec x 0) as [->|Hne].
    + simpl. do 2 f_equal. lia.
    + replace (x =? 0) with false by lia. cbn [negb cb_body mbind result_bind].
      rewrite (wrap32_small (x - 1)) by lia.
      destruct (clear_lowest_bit 32 x ltac:(simpl; lia)) as [Hr Hp].
      pose proof (popcount_nonneg 32 (Z.land x (x - 1))).
      rewrite (wrap32_small (h + 1)) by lia.
      rewrite IH; [| simpl in Hr; lia | lia | lia | lia].
      do 2 f_equal. lia.
Qed.

Lemma popcount_32_le x : 0 ≤ x < 2 ^ 32 → popcount 32 x ≤ 32.
Proof. intros Hx. apply popcount_le; lia. Qed.

Lemma countBits_popcount (x : Z) :
  0 ≤ x < 2 ^ 32 → countBits x = Ok (popcount 32 x).
Proof.
  intros Hx. unfold countBits.
  change (while_ 32 _ _ (x, 0)) with (while_ 32 cb_cond cb_body (x, 0)).
  pose proof (popcount_32_le x Hx).
  rewrite countBits_loop; [done | done | lia | lia | lia].
Qed.

Lemma lxor_nonneg' (a b : Z) : 0 ≤ a → 0 ≤ b → 0 ≤ Z.lxor a b.
Proof. intros Ha Hb. apply Z.lxor_nonneg. split; intros; lia. Qed.

Lemma filter_testbit_shift (x : Z) (l : list nat) :
  List.filter (fun i => Z.testbit x (Z.of_nat i)) (map Datatypes.S l)
  = map Datatypes.S (List.filter (fun i => Z.testbit (x / 2) (Z.of_nat i)) l).
Proof.
  induction l as [|i l IHl]; [done|]. cbn [map List.filter].
  replace (Z.testbit x (Z.of_nat (Datatypes.S i)))
    with (Z.testbit (x / 2) (Z.of_nat i)).
  - destruct (Z.testbit (x / 2) (Z.of_nat i)); cbn [map]; by rewrite IHl.
  - rewrite <- Z.div2_div, Z.div2_spec, Z.shiftr_spec by lia.
    f_equal. lia.
Qed.

(** The bits set in [a xor b] are the positions where [a] and [b] differ. *)
Lemma popcount_filter (w : nat) (x : Z) :
  0 ≤ x →
  popcount w x
  = Z.of_nat (length (List.filter (fun i => Z.testbit x (Z.of_nat i))
                                  (seq 0 w))).
Proof.
  revert x. induction w as [|w IH]; intros x Hx; [done|].
  cbn [popcount]. rewrite <- cons_seq, <- seq_shift. cbn [List.filter].
  rewrite Z.bit0_odd.
  rewrite filter_testbit_shift, IH by (apply Z.div_pos; lia).
  destruct (Z.odd x); simpl length; rewrite length_map; simpl Z.b2z; lia.
Qed.

Lemma hammingDist_popcount (a b : Z) :
  0 ≤ a → 0 ≤ b → popcount 32 (Z.lxor a b) = hammingDist a b.
Proof.
  intros Ha Hb. rewrite popcount_filter by (by apply lxor_nonneg').
  unfold hammingDist. do 2 f_equal.
  apply filter_ext. intros i. apply Z.lxor_spec.
Qed.

Lemma lxor_range (a b n : Z) :
  0 ≤ n → 0 ≤ a < 2 ^ n → 0 ≤ b < 2 ^ n → 0 ≤ Z.lxor a b < 2 ^ n.
Proof.
  intros Hn Ha Hb. split; [apply lxor_nonneg'; lia|].
  destruct (Z.eq_dec (Z.lxor a b) 0) as [->|Hne].
  { apply Z.pow_pos_nonneg; lia. }
  assert (0 < Z.lxor a b).
  { pose proof (lxor_nonneg' a b ltac:(lia) ltac:(lia)). lia. }
  assert (0 < n).
  { destruct (Z.eq_dec n 0) as [->|]; [|lia].
    assert (a = 0) by (simpl in Ha; lia). assert (b = 0) by (simpl in Hb; lia).
    subst. simpl in Hne. done. }
  apply Z.log2_lt_pow2; [done|].
  pose proof (Z.log2_lxor a b ltac:(lia) ltac:(lia)) as Hl.
  assert (∀ c, 0 ≤ c < 2 ^ n → Z.log2 c < n) as Hlog.
  { intros c Hc. destruct (Z.eq_dec c 0) as [->|].
    - simpl. lia.
    - apply Z.log2_lt_pow2; lia. }
  pose proof (Hlog a Ha). pose proof (Hlog b Hb). lia.
Qed.


Lemma hammingDist_le (a b n : Z) :
  0 ≤ n → 0 ≤ a < 2 ^ n → 0 ≤ b < 2 ^ n → 0 ≤ hammingDist a b ≤ n.
Proof.
  intros Hn Ha Hb. rewrite <- hammingDist_popcount by lia.
  split; [apply popcount_nonneg|].
  apply popcount_le; [done|]. by apply lxor_range.
Qed.

(** ** The distance classes *)










Lemma ret_bind {A B : Type} (a : A) (f : A → result B) : Ok a ≫= f = f a.
Proof. reflexivity. Qed.



(** ** The probing loop of [queryRanking] *)

Lemma probe_Ok idx (t : nat) (bucketId : Z) (sc : Scanner) (tbl : bucketMap) :
  Param.L (param idx) = 1 → tables idx !! t = Some tbl →
  probe idx t bucketId sc
  = Ok (mkScanner (sc_query sc) (sc_probed sc ++ [(t, bucketId)])
          (sc_scanned sc ++ default [] (bm_find tbl bucketId)) (sc_topk sc)).
Proof.
  intros HL Ht. unfold probe. rewrite HL. cbn [Z.eqb Pos.eqb assert_].
  cbn [mbind result_bind].
  rewrite (proj2 (at_Ok (tables idx) t tbl) Ht). done.
Qed.












Lemma for_one {St : Type} (body : nat → St → result St) (s : St) :
  for_ 1 0 body s = body 0%nat s.
Proof. simpl. by destruct (body 0%nat s). Qed.








Example idx_2bit_hashed_is_hash :
  hash idx_2bit data_2bit = Ok idx_2bit_hashed.
Proof. vm_compute. reflexivity. Qed.


(** ** Insertion sort meets the contract of [std::sort] *)

Lemma fail_bind {A B : Type} (f : A → result B) :
  AssertFail ≫= f = AssertFail.
Proof. reflexivity. Qed.

Lemma insert_sorted_perm {A : Type} (lt : A → A → bool) (x : A) (l : list A) :
  Permutation (insert_sorted lt x l) (x :: l).
Proof.
  induction l as [|y l IH]; cbn [insert_sorted]; [done|].
  destruct (lt x y); [done|].
  rewrite IH. apply perm_swap.
Qed.

Lemma isort_perm {A : Type} (lt : A → A → bool) (l : list A) :
  Permutation (isort lt l) l.
Proof.
  unfold isort.
  assert (G : ∀ acc, Permutation
            (fold_left (fun acc x => insert_sorted lt x acc) l acc) (acc ++ l)).
  { induction l as [|x l IH]; intros acc; cbn [fold_left].
    - by rewrite app_nil_r.
    - rewrite IH, insert_sorted_perm.
      by rewrite (Permutation_middle acc l x). }
  apply (G []).
Qed.

Section InsertionSort.
Context {A : Type} (lt : A → A → bool) (dom : list A).
Hypothesis swo : strict_weak_on lt dom.

Lemma swo_asym x y : x ∈ dom → y ∈ dom → lt x y = true → lt y x = false.
Proof.
  intros Hx Hy Hxy. destruct swo as (Hirr & Htr & _).
  destruct (lt y x) eqn:Hyx; [|done].
  rewrite <- (Hirr x Hx). symmetry. by apply (Htr x y x).
Qed.

Lemma insert_sorted_sorted x l :
  x ∈ dom → (∀ y, y ∈ l → y ∈ dom) →
  StronglySorted (fun a b => lt b a = false) l →
  StronglySorted (fun a b => lt b a = false) (insert_sorted lt x l).
Proof.
  intros Hx Hl Hs. induction Hs as [|y l Hs IH Hall]; cbn [insert_sorted].
  - repeat constructor.
  - assert (Hy : y ∈ dom) by (apply Hl; left).
    assert (Hl' : ∀ z, z ∈ l → z ∈ dom) by (intros z Hz; apply Hl; by right).
    destruct (lt x y) eqn:Hxy.
    + constructor; [by constructor|]. constructor.
      * by apply swo_asym.
      * rewrite Forall_forall in Hall |- *. intros z Hz.
        destruct (lt z x) eqn:Hzx; [|done].
        destruct swo as (_ & Htr & _).
        rewrite <- (Hall z Hz). symmetry.
        apply (Htr z x y); auto.
    + constructor; [by apply IH|].
      rewrite Forall_forall. intros z Hz.
      apply (elem_of_Permutation_proper z _ _ (insert_sorted_perm lt x l))
        in Hz.
      apply elem_of_cons in Hz as [->|Hz]; [done|].
      rewrite Forall_forall in Hall. by apply Hall.
Qed.

Lemma isort_sorted_on l :
  (∀ y, y ∈ l → y ∈ dom) →
  StronglySorted (fun a b => lt b a = false) (isort lt l).
Proof.
  intros Hl. unfold isort.
  assert (G : ∀ acc, (∀ y, y ∈ acc → y ∈ dom) →
            StronglySorted (fun a b => lt b a = false) acc →
            StronglySorted (fun a b => lt b a = false)
              (fold_left (fun acc x => insert_sorted lt x acc) l acc)).
  { induction l as [|x l IH]; intros acc Hacc Hs; cbn [fold_left]; [done|].
    apply IH.
    - intros y Hy. apply Hl. by right.
    - intros y Hy.
      apply (elem_of_Permutation_proper y _ _ (insert_sorted_perm lt x acc))
        in Hy.
      apply elem_of_cons in Hy as [->|Hy]; [apply Hl; left | by apply Hacc].
    - apply insert_sorted_sorted; [apply Hl; left | done | done]. }
  apply G; [intros y Hy; by apply elem_of_nil in Hy | constructor].
Qed.
End InsertionSort.

#[local] Instance isort_StdSort : StdSort.
Proof.
  refine {| std_sort := fun A lt l => isort lt l |}.
  - intros A lt l. apply isort_perm.
  - intros A lt l Hswo. by apply (isort_sorted_on lt l Hswo).
Defined.

(** ** The comparison of floats is a strict weak ordering off the NaN *)








(** ** Sums of absolute values are no NaN *)

Lemma shr_1_nonneg (mrs : shr_record) :
  0 ≤ shr_m mrs → 0 ≤ shr_m (shr_1 mrs).
Proof.
  destruct mrs as [m r s]. cbn [shr_m shr_1].
  destruct m as [|[p|p|]|p]; cbn [shr_m]; lia.
Qed.

Lemma iter_pos_shr_1_nonneg (p : positive) (mrs : shr_record) :
  0 ≤ shr_m mrs → 0 ≤ shr_m (SpecFloat.iter_pos shr_1 p mrs).
Proof.
  revert mrs. induction p as [p IH|p IH|]; intros mrs H; cbn [SpecFloat.iter_pos].
  - apply IH, IH, shr_1_nonneg, H.
  - apply IH, IH, H.
  - apply shr_1_nonneg, H.
Qed.

Lemma shr_fexp_nonneg (prec emax m e : Z) (l : location) :
  0 ≤ m → 0 ≤ shr_m (fst (shr_fexp prec emax m e l)).
Proof.
  intros Hm. unfold shr_fexp, shr.
  assert (H0 : 0 ≤ shr_m (shr_record_of_loc m l)).
  { destruct l as [|[| |]]; cbn [shr_record_of_loc shr_m]; done. }
  destruct (fexp prec emax (Zdigits2 m + e) - e) as [|p|p]; cbn [fst];
    [done | | done].
  by apply iter_pos_shr_1_nonneg.
Qed.

Lemma round_nearest_even_nonneg (m : Z) (l : location) :
  0 ≤ m → 0 ≤ round_nearest_even m l.
Proof.
  intros Hm. unfold round_nearest_even.
  destruct l as [|[| |]]; try done; [destruct (Z.even m)|]; lia.
Qed.

Lemma binary_round_aux_nonneg (prec emax m e : Z) (l : location) :
  0 ≤ m → fnonneg (binary_round_aux prec emax false m e l) = true.
Proof.
  intros Hm. unfold binary_round_aux.
  pose proof (shr_fexp_nonneg prec emax m e l Hm) as H1.
  destruct (shr_fexp prec emax m e l) as [mrs' e'] eqn:E1. cbn [fst] in H1.
  pose proof (shr_fexp_nonneg prec emax
                (round_nearest_even (shr_m mrs') (loc_of_shr_record mrs'))
                e' loc_Exact
                (round_nearest_even_nonneg _ _ H1)) as H2.
  destruct (shr_fexp prec emax _ e' loc_Exact) as [mrs'' e''] eqn:E2.
  cbn [fst] in H2.
  destruct (shr_m mrs'') as [|p|p]; [done | | lia].
  by destruct (e'' <=? emax - prec).
Qed.

Lemma fadd_nonneg (x y : float) :
  fnonneg x = true → fnonneg y = true → fnonneg (fadd x y) = true.
Proof.
  unfold fadd. intros Hx Hy.
  destruct x as [sx|sx| |sx mx ex], y as [sy|sy| |sy my ey];
    cbn [fnonneg] in Hx, Hy; try discriminate;
    try destruct sx; try destruct sy; try discriminate; try reflexivity.
  cbn [SFadd cond_Zopp].
  destruct (shl_align mx ex (Z.min ex ey)) as [ma ea].
  destruct (shl_align my ey (Z.min ex ey)) as [mb eb].
  cbn [fst]. change (Z.pos ma + Z.pos mb) with (Z.pos (ma + mb)).
  unfold binary_normalize, binary_round.
  match goal with
  | |- context [shl_align ?a ?b ?c] => destruct (shl_align a b c) as [mz ez]
  end.
  by apply binary_round_aux_nonneg.
Qed.

Lemma fabs_nonneg (x : float) : is_nan x = false → fnonneg (fabs x) = true.
Proof. by destruct x. Qed.


(** ** The loss of a bucket *)

Definition bl_body (queryBits : list bool) (queryFloats : list float)
    (bucketBits : list bool) : nat → float → result float :=
  fun bIdx dst =>
    q ← at_ queryBits bIdx;
    b ← at_ bucketBits bIdx;
    if negb (eqb q b)
    then x ← at_ queryFloats bIdx; Ok (fadd dst (fabs x))
    else Ok dst.

Lemma bl_body_unfold qbits qfloats bbits (bIdx : nat) (dst : float) :
  bl_body qbits qfloats bbits bIdx dst
  = (q ← at_ qbits bIdx;
     b ← at_ bbits bIdx;
     if negb (eqb q b)
     then x ← at_ qfloats bIdx; Ok (fadd dst (fabs x))
     else Ok dst).
Proof. reflexivity. Qed.

Lemma bucketLoss_loop (qbits : list bool) (qfloats : list float)
    (bbits : list bool) (n from : nat) (dst : float) :
  (from + n ≤ length qbits)%nat →
  (length qbits ≤ length bbits)%nat → (length qbits ≤ length qfloats)%nat →
  for_ n from (bl_body qbits qfloats bbits) dst
  = Ok (fold_left fadd
          (map (fun i => fabs (nth i qfloats fzero))
             (List.filter
                (fun i => negb (eqb (nth i qbits false) (nth i bbits false)))
                (seq from n)))
          dst).
Proof.
  revert from dst. induction n as [|n IH]; intros from dst Hn Hb Hf; [done|].
  cbn [for_ seq List.filter]. rewrite bl_body_unfold.
  destruct (at_lt qbits from ltac:(lia)) as [q [-> Hq]].
  destruct (at_lt bbits from ltac:(lia)) as [b [-> Hbb]].
  destruct (at_lt qfloats from ltac:(lia)) as [x [Ex Hx]].
  rewrite !ret_bind.
  rewrite (nth_lookup_Some qbits from false q Hq).
  rewrite (nth_lookup_Some bbits from false b Hbb).
  destruct (negb (eqb q b)).
  - rewrite Ex, !ret_bind. rewrite IH by lia. cbn [map fold_left].
    by rewrite (nth_lookup_Some qfloats from fzero x Hx).
  - rewrite ret_bind. by rewrite IH by lia.
Qed.

(** The inner loop of [queryRankingByLoss] computes [lossSum]. *)
Lemma bucketLoss_lossSum (qbits : list bool) (qfloats : list float)
    (bbits : list bool) :
  (length qbits ≤ length bbits)%nat → (length qbits ≤ length qfloats)%nat →
  bucketLoss qbits qfloats bbits = Ok (lossSum qbits qfloats bbits).
Proof.
  intros Hb Hf. unfold bucketLoss, lossSum.
  apply (bucketLoss_loop qbits qfloats bbits (length qbits) 0 fzero);
    [lia | done | done].
Qed.

Lemma fold_fadd_nonneg (xs : list float) (acc : float) :
  Forall (fun x => fnonneg x = true) xs → fnonneg acc = true →
  fnonneg (fold_left fadd xs acc) = true.
Proof.
  revert acc. induction xs as [|x xs IH]; intros acc Hxs Hacc; [done|].
  apply Forall_cons in Hxs as [Hx Hxs]. cbn [fold_left].
  apply IH; [done|]. by apply fadd_nonneg.
Qed.

Lemma lossSum_nonneg (qbits : list bool) (qfloats : list float)
    (bbits : list bool) :
  forallb (fun x => negb (is_nan x)) qfloats = true →
  fnonneg (lossSum qbits qfloats bbits) = true.
Proof.
  intros Hq. unfold lossSum. apply fold_fadd_nonneg; [|done].
  apply Forall_forall. intros y Hy. apply list_elem_of_In in Hy.
  apply in_map_iff in Hy as [i [<- _]]. apply fabs_nonneg.
  destruct (nth_in_or_default i qfloats fzero) as [Hin| ->]; [|done].
  rewrite forallb_forall in Hq. specialize (Hq _ Hin).
  by destruct (is_nan (nth i qfloats fzero)).
Qed.




(** ** The probing loop of [queryRankingByLoss] *)












(** ** The precondition check of the direct strategies *)

Lemma assert_false_bind {B : Type} (b : bool) (f : unit → result B) :
  b = false → assert_ b ≫= f = AssertFail.
Proof. by intros ->. Qed.

(** C5, as the code has it.  Each direct strategy checks the parameter [L]:
    whenever [L] differs from 1, [query], [queryRanking],
    [queryRankingByLoss] and [queryByLoss] fail the assertion. *)
Theorem C5_direct_strategies_assert_L `{StdSort} `{ProbingGen}
    (idx : laItqLsh) (domin : list float) (sc : Scanner)
    (maxNumBuckets : Z) (withMeanAndSTD : bool) :
  Param.L (param idx) ≠ 1 →
  query idx domin sc = AssertFail
  ∧ queryRanking idx domin sc maxNumBuckets = AssertFail
  ∧ queryRankingByLoss idx domin sc maxNumBuckets = AssertFail
  ∧ queryByLoss idx domin sc maxNumBuckets withMeanAndSTD = AssertFail.
Proof.
  intros HL.
  assert (E : (Param.L (param idx) =? 1) = false) by lia.
  unfold query, queryRanking, queryRankingByLoss, queryByLoss.
  repeat split; by apply assert_false_bind.
Qed.

Lemma C5_direct_strategies_assert_L_witness :
  query idx_two_tables [f_one; f_minus_one] sc_init = AssertFail
  ∧ queryRanking idx_two_tables [f_one; f_minus_one] sc_init 3 = AssertFail
  ∧ @queryRankingByLoss isort_StdSort idx_two_tables [f_one; f_minus_one]
      sc_init 3 = AssertFail
  ∧ @queryByLoss (specProbing normalize_x4) idx_two_tables
      [f_one; f_minus_one] sc_init 3 false = AssertFail.
Proof.
  apply (@C5_direct_strategies_assert_L isort_StdSort
           (specProbing normalize_x4) idx_two_tables [f_one; f_minus_one]
           sc_init 3 false).
  simpl. lia.
Defined.

(** C5, as stated, fails: after [rehash(data_2bit, 2)] the index holds two
    populated tables while [L] is still 1, and every direct strategy passes
    its check and runs to its end on table 0. *)
Lemma C5_counterexample_rehashed_index_passes_check :
  @rehash (specProbing normalize_x4) idx_2bit data_2bit 2
  = Ok idx_2bit_rehashed
  ∧ length (tables idx_2bit_rehashed) = 2%nat
  ∧ Forall (fun tbl : bucketMap => tbl ≠ []) (tables idx_2bit_rehashed)
  ∧ query idx_2bit_rehashed [f_one; f_minus_one] sc_init
    = Ok (mkScanner [f_one; f_minus_one] [(0%nat, 2)] [2] true)
  ∧ queryRanking idx_2bit_rehashed [f_one; f_minus_one] sc_init 2
    = Ok (mkScanner [f_one; f_minus_one] [(0%nat, 2); (0%nat, 0)] [2; 3] true)
  ∧ @queryRankingByLoss isort_StdSort idx_2bit_rehashed
      [f_one; f_minus_one] sc_init 1
    = Ok (mkScanner [f_one; f_minus_one] [(0%nat, 2)] [2] true)
  ∧ @queryByLoss (specProbing normalize_x4) idx_2bit_rehashed
      [f_one; f_minus_one] sc_init 1 false
    = Ok (mkScanner [f_one; f_minus_one] [(0%nat, 2)] [2] true).
Proof.
  split; [vm_compute; reflexivity|]. split; [reflexivity|].
  split; [repeat constructor; discriminate|].
  repeat split; vm_compute; reflexivity.
Qed.

(** ** The normalization flag of [queryByLoss] *)

(** C4.  Stated for every query and budget, the claim is that the generator
    is constructed with the flag given by the caller.  The code constructs
    it with the constant [false]: for every generator the result of
    [queryByLoss] with the flag set is the result with the flag unset, and
    on [idx_2bit_hashed], the query [[1; -2]] and the budget 2, with the
    generator [specProbing normalize_x4], the second bucket probed is 0, the
    first code of the generator built without normalization, where the
    generator built with normalization yields 3. *)
Theorem C4_queryByLoss_drops_flag :
  (∀ (P : ProbingGen) (idx : laItqLsh) (domin : list float) (sc : Scanner)
     (maxNumBuckets : Z),
     @queryByLoss P idx domin sc maxNumBuckets true
     = @queryByLoss P idx domin sc maxNumBuckets false)
  ∧ @queryByLoss (specProbing normalize_x4) idx_2bit_hashed
      [f_one; S754_finite true (2 ^ 23) (-22)] sc_init 2 true
    = Ok (mkScanner [f_one; S754_finite true (2 ^ 23) (-22)]
            [(0%nat, 2); (0%nat, 0)] [2; 3] true)
  ∧ fst (specProbing_pop (specProbing_new normalize_x4 [true; false]
           [f_one; S754_finite true (2 ^ 23) (-22)] false)) = 0
  ∧ fst (specProbing_pop (specProbing_new normalize_x4 [true; false]
           [f_one; S754_finite true (2 ^ 23) (-22)] true)) = 3.
Proof.
  split; [reflexivity|]. repeat split; vm_compute; reflexivity.
Qed.

(** ** The map under [push_back] *)

Lemma bm_find_above (m : bucketMap) (key : Z) :
  Forall (fun k => key < k) (bm_keys m) → bm_find m key = None.
Proof.
  induction m as [|[k v] m IH]; intros H; [done|].
  unfold bm_keys in H. cbn [map fst] in H.
  apply Forall_cons in H as [Hk H]. cbn [bm_find].
  replace (key =? k) with false by lia. by apply IH.
Qed.

Lemma bm_push_back_sorted (m : bucketMap) (key item : Z) :
  bm_sorted m → bm_sorted (bm_push_back m key item).
Proof.
  unfold bm_sorted, bm_keys.
  induction m as [|[k v] m IH]; intros Hs; cbn [bm_push_back map fst].
  - repeat constructor.
  - cbn [map fst] in Hs. apply StronglySorted_inv in Hs as [Hs Hall].
    destruct (key <? k) eqn:E1; [|destruct (key =? k) eqn:E2];
      cbn [map fst].
    + constructor; [by constructor|]. constructor; [lia|].
      eapply Forall_impl; [exact Hall|]. simpl. intros; lia.
    + by constructor.
    + constructor; [by apply IH|].
      apply Forall_forall. intros k' Hk'.
      apply (bm_push_back_keys m key item k') in Hk' as [->|Hk']; [lia|].
      rewrite Forall_forall in Hall. by apply Hall.
Qed.

(** [m[key].push_back(item)] appends to the posting list of [key] and
    leaves the other posting lists as they are. *)
Lemma bm_find_push_back (m : bucketMap) (key item c : Z) :
  bm_sorted m →
  bm_find (bm_push_back m key item) c
  = if c =? key then Some (default [] (bm_find m key) ++ [item])
    else bm_find m c.
Proof.
  unfold bm_sorted, bm_keys.
  induction m as [|[k v] m IH]; intros Hs; cbn [bm_push_back bm_find].
  - by destruct (c =? key).
  - cbn [map fst] in Hs. apply StronglySorted_inv in Hs as [Hs Hall].
    destruct (key <? k) eqn:E1; [|destruct (key =? k) eqn:E2];
      cbn [bm_find].
    + replace (key =? k) with false by lia.
      rewrite (bm_find_above m key).
      2:{ eapply Forall_impl; [exact Hall|]. simpl. intros; lia. }
      destruct (c =? key) eqn:E; [done|]. done.
    + assert (key = k) as -> by lia.
      destruct (c =? k) eqn:E; [done|]. done.
    + rewrite (IH Hs).
      destruct (c =? k) eqn:E3.
      * replace (c =? key) with false by lia. done.
      * done.
Qed.

(** ** The loops of [rehash] *)

Lemma pops_succ `{ProbingGen} (n : nat) (pro : Probing) :
  pops (Datatypes.S n) pro
  = (fst (Probing_pop pro) :: fst (pops n (snd (Probing_pop pro))),
     snd (pops n (snd (Probing_pop pro)))).
Proof.
  cbn [pops]. destruct (Probing_pop pro) as [code pro1]. cbn [fst snd].
  by destruct (pops n pro1).
Qed.

Lemma rehash_inner_unfold `{ProbingGen} (item : Z) (k : nat)
    (idx : laItqLsh) (pro : Probing) :
  rehash_inner item k (idx, pro)
  = (tbl ← at_ (tables idx) k;
     Ok (set_tables idx
           (<[k := bm_push_back tbl (fst (Probing_pop pro)) item]>
              (tables idx)),
         snd (Probing_pop pro))).
Proof.
  unfold rehash_inner. by destruct (Probing_pop pro).
Qed.

Lemma rehash_inner_loop `{ProbingGen} (item : Z) (m from : nat)
    (idx : laItqLsh) (pro : Probing) :
  (from + m)%nat = length (tables idx) →
  for_ m from (rehash_inner item) (idx, pro)
  = Ok (set_tables idx
          (take from (tables idx)
           ++ pushCodes (drop from (tables idx)) (fst (pops m pro)) item),
        snd (pops m pro)).
Proof.
  revert from idx pro. induction m as [|m IH]; intros from idx pro Hlen.
  - cbn [for_ pops fst snd]. unfold pushCodes.
    rewrite drop_ge by lia. cbn [zip_with]. rewrite app_nil_r.
    rewrite take_ge by lia. by destruct idx.
  - cbn [for_]. rewrite rehash_inner_unfold.
    destruct (at_lt (tables idx) from ltac:(lia)) as [tbl [-> Htbl]].
    rewrite !ret_bind. rewrite IH by (cbn [set_tables tables]; rewrite length_insert; lia).
    rewrite pops_succ. cbn [fst snd set_tables tables pcsAll omegasAll param
                              rndArray meanAndSTD].
    do 3 f_equal.
    rewrite (drop_S (tables idx) tbl from Htbl). unfold pushCodes.
    cbn [zip_with].
    rewrite (take_S_r _ from (bm_push_back tbl (fst (Probing_pop pro)) item)).
    2:{ apply list_lookup_insert_eq. apply lookup_lt_Some in Htbl. lia. }
    rewrite take_insert_ge by lia. rewrite drop_insert_lt by lia.
    by rewrite <- app_assoc.
Qed.

Lemma rehash_body_unfold `{ProbingGen} (data : list (list float)) (i : nat)
    (idx : laItqLsh) :
  rehash_body data i idx
  = (v ← at_ data i;
     hashVal ← getHashVal idx 0 v;
     hashBits ← getHashBits idx 0 v;
     hashFloats ← getHashFloats idx 0 v;
     tbl ← at_ (tables idx) 0;
     '(idx, _) ← for_
        (length (<[0%nat := bm_push_back tbl hashVal (wrap32 (Z.of_nat i))]>
                   (tables idx)) - 1) 1
        (rehash_inner (wrap32 (Z.of_nat i)))
        (set_tables idx
           (<[0%nat := bm_push_back tbl hashVal (wrap32 (Z.of_nat i))]>
              (tables idx)),
         Probing_new hashBits hashFloats false);
     Ok idx).
Proof. reflexivity. Qed.

Lemma pops_length `{ProbingGen} (n : nat) (pro : Probing) :
  length (fst (pops n pro)) = n.
Proof.
  revert pro. induction n as [|n IH]; intros pro; [done|].
  rewrite pops_succ. cbn [fst length]. by rewrite IH.
Qed.

Lemma pushCodes_length (ts : list bucketMap) (cs : list Z) (item : Z) :
  length cs = length ts → length (pushCodes ts cs item) = length ts.
Proof. intros Hl. unfold pushCodes. by rewrite length_zip_with_l_eq. Qed.

(** One turn of the loop of [rehash] over the items files the item in every
    table under its code for the table. *)
Lemma rehash_step `{ProbingGen} (idx0 : laItqLsh) (data : list (list float))
    (i : nat) (v : list float) (ts : list bucketMap) :
  trainedb idx0 0 = true → vecb idx0 v = true →
  data !! i = Some v → (1 ≤ length ts)%nat →
  ∃ cs, itemCodes idx0 v (length ts) = Ok cs
        ∧ length cs = length ts
        ∧ rehash_body data i (set_tables idx0 ts)
          = Ok (set_tables idx0 (pushCodes ts cs (wrap32 (Z.of_nat i)))).
Proof.
  intros Ht Hv Hi Hlen.
  destruct (getHashFloats_Ok idx0 0 v Ht Hv) as [fs [Hfs [Hfl [Hbits Hq]]]].
  exists (packProducts fs
          :: fst (pops (length ts - 1)
                       (Probing_new (quantization fs) fs false))).
  split; [|split].
  - unfold itemCodes. by rewrite Hq, ret_bind, Hbits, ret_bind, Hfs, ret_bind.
  - cbn [length]. rewrite pops_length. lia.
  - rewrite rehash_body_unfold.
    rewrite (proj2 (at_Ok data i v) Hi), ret_bind.
    change (getHashVal (set_tables idx0 ts) 0 v) with (getHashVal idx0 0 v).
    change (getHashBits (set_tables idx0 ts) 0 v) with (getHashBits idx0 0 v).
    change (getHashFloats (set_tables idx0 ts) 0 v)
      with (getHashFloats idx0 0 v).
    rewrite Hq, ret_bind, Hbits, ret_bind, Hfs, ret_bind.
    change (tables (set_tables idx0 ts)) with ts.
    destruct ts as [|tbl0 ts']; [simpl in Hlen; lia|].
    change (at_ (tbl0 :: ts') 0) with (Ok tbl0 : result bucketMap).
    rewrite ret_bind.
    set (x := bm_push_back tbl0 (packProducts fs) (wrap32 (Z.of_nat i))).
    change (<[0%nat:=x]> (tbl0 :: ts')) with (x :: ts').
    cbn [length].
    replace (Datatypes.S (length ts') - 1)%nat with (length ts') by lia.
    rewrite rehash_inner_loop by (cbn [set_tables tables length]; lia).
    rewrite ret_bind. done.
Qed.

Definition fileItem : nat → list Z → list bucketMap → list bucketMap :=
  fun i cs ts => pushCodes ts cs (wrap32 (Z.of_nat i)).

Lemma rehash_outer `{ProbingGen} (idx0 : laItqLsh)
    (data : list (list float)) (numTables : nat) :
  trainedb idx0 0 = true → forallb (vecb idx0) data = true →
  (1 ≤ numTables)%nat →
  ∀ (n from : nat) (ts : list bucketMap),
    (from + n)%nat = length data → length ts = numTables →
    ∃ codes,
      Forall2 (fun v cs => itemCodes idx0 v numTables = Ok cs
                           ∧ length cs = numTables)
              (drop from data) codes
      ∧ for_ n from (rehash_body data) (set_tables idx0 ts)
        = Ok (set_tables idx0 (fold_idx fileItem from codes ts)).
Proof.
  intros Ht Hdata HT. induction n as [|n IH]; intros from ts Hn Hts.
  - exists []. rewrite drop_ge by lia. split; [constructor | done].
  - destruct (lookup_lt_is_Some_2 data from ltac:(lia)) as [v Hv].
    assert (Hvec : vecb idx0 v = true).
    { rewrite forallb_forall in Hdata.
      apply Hdata, list_elem_of_In, list_elem_of_lookup. eauto. }
    destruct (rehash_step idx0 data from v ts Ht Hvec Hv ltac:(lia))
      as (cs & Hcs & Hcl & Estep).
    destruct (IH (Datatypes.S from) (fileItem from cs ts) ltac:(lia))
      as (codes & Hcodes & Eloop).
    { unfold fileItem. rewrite pushCodes_length; lia. }
    exists (cs :: codes). split.
    + rewrite (drop_S data v from Hv). constructor; [|done].
      rewrite Hts in Hcs, Hcl. done.
    + cbn [for_ fold_idx]. rewrite Estep, ret_bind. exact Eloop.
Qed.

Lemma rehash_unfold `{ProbingGen} (idx : laItqLsh)
    (data : list (list float)) (numTables : Z) :
  rehash idx data numTables
  = if numTables =? 1 then Ok idx else
    if numTables <? 0 then Undefined else
    for_ (length data) 0 (rehash_body data)
         (set_tables idx (replicate (Z.to_nat numTables) [])).
Proof. reflexivity. Qed.

(** ** What the tables hold after [rehash] *)

Lemma fileItem_fold_lookup (codes : list (list Z)) (from : nat)
    (ts : list bucketMap) (k : nat) (tbl : bucketMap) :
  Forall (fun cs => length cs = length ts) codes →
  ts !! k = Some tbl →
  fold_idx fileItem from codes ts !! k
  = Some (fold_idx
            (fun i cs m => bm_push_back m (nth k cs 0) (wrap32 (Z.of_nat i)))
            from codes tbl).
Proof.
  revert from ts tbl. induction codes as [|cs codes IH];
    intros from ts tbl Hcodes Hk; [done|].
  apply Forall_cons in Hcodes as [Hcs Hcodes]. cbn [fold_idx].
  assert (Hc : cs !! k = Some (nth k cs 0)).
  { apply lookup_lt_Some in Hk.
    destruct (lookup_lt_is_Some_2 cs k ltac:(lia)) as [c Hc].
    by rewrite (nth_lookup_Some cs k 0 c Hc). }
  apply IH.
  - eapply Forall_impl; [exact Hcodes|]. simpl. intros cs' Hl.
    unfold fileItem. rewrite pushCodes_length; lia.
  - unfold fileItem, pushCodes. rewrite lookup_zip_with, Hk, Hc. done.
Qed.

Lemma fileItem_fold_length (codes : list (list Z)) (from : nat)
    (ts : list bucketMap) :
  Forall (fun cs => length cs = length ts) codes →
  length (fold_idx fileItem from codes ts) = length ts.
Proof.
  revert from ts. induction codes as [|cs codes IH]; intros from ts Hcodes;
    [done|].
  apply Forall_cons in Hcodes as [Hcs Hcodes]. cbn [fold_idx].
  assert (Hl : length (fileItem from cs ts) = length ts).
  { unfold fileItem. by rewrite pushCodes_length. }
  rewrite IH; [done|].
  eapply Forall_impl; [exact Hcodes|]. simpl. intros cs' Hl'. lia.
Qed.

Definition merge_postings (o : option (list Z)) (l : list Z)
  : option (list Z) :=
  match l with
  | [] => o
  | _ => Some (default [] o ++ l)
  end.

Lemma push_fold_find (k : nat) (codes : list (list Z)) (from : nat)
    (tbl : bucketMap) :
  bm_sorted tbl →
  bm_sorted (fold_idx
               (fun i cs m => bm_push_back m (nth k cs 0) (wrap32 (Z.of_nat i)))
               from codes tbl)
  ∧ ∀ c, bm_find (fold_idx
               (fun i cs m => bm_push_back m (nth k cs 0) (wrap32 (Z.of_nat i)))
               from codes tbl) c
         = merge_postings (bm_find tbl c) (postingsFrom k from codes c).
Proof.
  revert from tbl. induction codes as [|cs codes IH]; intros from tbl Hs.
  - split; [done|]. intros c. done.
  - cbn [fold_idx postingsFrom].
    destruct (IH (Datatypes.S from)
                 (bm_push_back tbl (nth k cs 0) (wrap32 (Z.of_nat from)))
                 (bm_push_back_sorted _ _ _ Hs)) as [Hs' Hfind].
    split; [exact Hs'|]. intros c. rewrite Hfind.
    rewrite (bm_find_push_back tbl _ _ c Hs).
    rewrite (Z.eqb_sym c (nth k cs 0)).
    destruct (nth k cs 0 =? c) eqn:E.
    + assert (nth k cs 0 = c) as -> by lia.
      destruct (postingsFrom k (Datatypes.S from) codes c) as [|x l];
        cbn [merge_postings app from_option id]; [done|].
      by rewrite <- app_assoc.
    + done.
Qed.

(** C8.  With [T > 1], table 0 trained and a dataset of vectors of dimension
    [D], [rehash(data, T)] runs to its end and leaves the matrices and the
    parameters as they are and exactly [T] tables; item [i] is filed in
    table [k] under the [k]-th of its codes, which are its exact table-0
    code followed by the codes popped in turn from the generator seeded with
    its own bits and floats (and the flag unset): the posting list of a code
    [c] in table [k] is the list of those items, in ascending order, and
    there is no other.  [rehash(data, 1)] returns the index as it is. *)
Theorem C8_rehash_fan_out `{ProbingGen} (idx : laItqLsh)
    (data : list (list float)) (numTables : Z) :
  1 < numTables →
  trainedb idx 0 = true →
  forallb (vecb idx) data = true →
  (∃ (idx' : laItqLsh) (codes : list (list Z)),
     rehash idx data numTables = Ok idx'
     ∧ param idx' = param idx ∧ pcsAll idx' = pcsAll idx
     ∧ omegasAll idx' = omegasAll idx
     ∧ Z.of_nat (length (tables idx')) = numTables
     ∧ Forall2 (fun v cs => itemCodes idx v (Z.to_nat numTables) = Ok cs
                            ∧ length cs = Z.to_nat numTables) data codes
     ∧ ∀ (k : nat) (tbl : bucketMap),
         tables idx' !! k = Some tbl →
         bm_sorted tbl
         ∧ ∀ c, bm_find tbl c
                = match postingsFrom k 0 codes c with
                  | [] => None
                  | l => Some l
                  end)
  ∧ rehash idx data 1 = Ok idx.
Proof.
  intros HT Ht Hdata. split; [|reflexivity].
  rewrite rehash_unfold.
  replace (numTables =? 1) with false by lia.
  replace (numTables <? 0) with false by lia.
  match goal with
  | |- context [set_tables idx ?t] => set (ts0 := (t : list bucketMap))
  end.
  assert (Hts0 : @length bucketMap ts0 = Z.to_nat numTables)
    by apply length_replicate.
  assert (Hts0k : ∀ k, (k < Z.to_nat numTables)%nat →
                       ts0 !! k = Some ([] : bucketMap))
    by (intros k Hk; by apply lookup_replicate_2).
  clearbody ts0.
  destruct (rehash_outer idx data (Z.to_nat numTables) Ht Hdata ltac:(lia)
              (length data) 0 ts0 ltac:(lia) Hts0)
    as (codes & Hcodes & Eloop).
  rewrite drop_0 in Hcodes.
  exists (set_tables idx (fold_idx fileItem 0 codes ts0)), codes.
  split; [exact Eloop|]. split; [done|]. split; [done|]. split; [done|].
  assert (Hlens : Forall (fun cs => length cs = length ts0) codes).
  { rewrite Hts0.
    clear -Hcodes. induction Hcodes as [|v cs data codes [_ Hl] _ IH];
      constructor; done. }
  cbn [set_tables tables]. split.
  { rewrite (fileItem_fold_length codes 0 ts0 Hlens), Hts0. lia. }
  split; [exact Hcodes|].
  intros k tbl Hk.
  assert (Hk0 : (k < Z.to_nat numTables)%nat).
  { apply lookup_lt_Some in Hk.
    rewrite (fileItem_fold_length codes 0 ts0 Hlens), Hts0 in Hk. done. }
  rewrite (fileItem_fold_lookup codes 0 ts0 k [] Hlens (Hts0k k Hk0)) in Hk.
  injection Hk as <-.
  destruct (push_fold_find k codes 0 []) as [Hs Hfind]; [constructor|].
  split; [exact Hs|]. intros c. rewrite Hfind.
  cbn [bm_find]. unfold merge_postings.
  by destruct (postingsFrom k 0 codes c).
Qed.

Lemma C8_rehash_fan_out_witness :
  (∃ (idx' : laItqLsh) (codes : list (list Z)),
     @rehash (specProbing normalize_x4) idx_2bit data_2bit 2 = Ok idx'
     ∧ param idx' = param idx_2bit ∧ pcsAll idx' = pcsAll idx_2bit
     ∧ omegasAll idx' = omegasAll idx_2bit
     ∧ Z.of_nat (length (tables idx')) = 2
     ∧ Forall2 (fun v cs =>
                  @itemCodes (specProbing normalize_x4) idx_2bit v (Z.to_nat 2)
                  = Ok cs
                  ∧ length cs = Z.to_nat 2) data_2bit codes
     ∧ ∀ (k : nat) (tbl : bucketMap),
         tables idx' !! k = Some tbl →
         bm_sorted tbl
         ∧ ∀ c, bm_find tbl c
                = match postingsFrom k 0 codes c with
                  | [] => None
                  | l => Some l
                  end)
  ∧ @rehash (specProbing normalize_x4) idx_2bit data_2bit 1 = Ok idx_2bit.
Proof.
  apply (@C8_rehash_fan_out (specProbing normalize_x4) idx_2bit data_2bit 2);
    first [reflexivity | lia].
Defined.

(** ** The object representation of a float *)

Lemma digits2_bounds (m : positive) :
  2 ^ (Z.pos (digits2_pos m) - 1) ≤ Z.pos m < 2 ^ Z.pos (digits2_pos m).
Proof.
  induction m as [p IH|p IH|]; cbn [digits2_pos].
  - rewrite Pos2Z.inj_succ.
    replace (Z.succ (Z.pos (digits2_pos p)) - 1)
      with (Z.succ (Z.pos (digits2_pos p) - 1)) by lia.
    rewrite !Z.pow_succ_r by lia. lia.
  - rewrite Pos2Z.inj_succ.
    replace (Z.succ (Z.pos (digits2_pos p)) - 1)
      with (Z.succ (Z.pos (digits2_pos p) - 1)) by lia.
    rewrite !Z.pow_succ_r by lia. lia.
  - simpl. lia.
Qed.

Lemma binary32_fields (s : bool) (ex frac : Z) :
  0 ≤ ex < 256 → 0 ≤ frac < 2 ^ 23 →
  let w := sign_bit s + ex * 2 ^ 23 + frac in
  Z.testbit w 31 = s ∧ (w / 2 ^ 23) mod 2 ^ 8 = ex ∧ w mod 2 ^ 23 = frac.
Proof.
  intros Hex Hfrac w. subst w. unfold sign_bit.
  change (2 ^ 23) with 8388608 in *. change (2 ^ 8) with 256.
  change (2 ^ 31) with 2147483648.
  split; [|split].
  - rewrite Z.testbit_odd, Z.shiftr_div_pow2 by lia.
    change (2 ^ 31) with 2147483648.
    destruct s.
    + replace ((2147483648 + ex * 8388608 + frac) / 2147483648) with 1;
        [done|]. apply Z.div_unique with (ex * 8388608 + frac); lia.
    + replace ((0 + ex * 8388608 + frac) / 2147483648) with 0; [done|].
      apply Z.div_unique with (ex * 8388608 + frac); lia.
  - destruct s.
    + replace ((2147483648 + ex * 8388608 + frac) / 8388608) with (256 + ex).
      * symmetry. apply Z.mod_unique with 1; lia.
      * apply Z.div_unique with frac; lia.
    + replace ((0 + ex * 8388608 + frac) / 8388608) with ex.
      * apply Z.mod_small. lia.
      * apply Z.div_unique with frac; lia.
  - destruct s.
    + symmetry. apply Z.mod_unique with (256 + ex); lia.
    + symmetry. apply Z.mod_unique with ex; lia.
Qed.

(** Reading back the object representation of a binary32 value gives the
    value. *)
Lemma float_of_bits_of_float (x : float) :
  valid_binary 24 128 x = true → float_of_bits (bits_of_float x) = x.
Proof.
  destruct x as [s|s| |s m e]; intros Hv.
  - destruct (binary32_fields s 0 0) as (H1 & H2 & H3); [lia | lia |].
    cbv zeta in H1, H2, H3. unfold bits_of_float, float_of_bits.
    replace (sign_bit s) with (sign_bit s + 0 * 2 ^ 23 + 0) by lia.
    rewrite H1, H2, H3. done.
  - destruct (binary32_fields s 255 0) as (H1 & H2 & H3); [lia | lia |].
    cbv zeta in H1, H2, H3. unfold bits_of_float, float_of_bits.
    replace (sign_bit s + 255 * 2 ^ 23)
      with (sign_bit s + 255 * 2 ^ 23 + 0) by lia.
    rewrite H1, H2, H3. done.
  - reflexivity.
  - cbn [valid_binary] in Hv. unfold bounded, canonical_mantissa in Hv.
    apply andb_true_iff in Hv as [Hc He].
    apply Z.eqb_eq in Hc. apply Z.leb_le in He.
    unfold fexp, emin in Hc.
    pose proof (digits2_bounds m) as Hd.
    unfold bits_of_float.
    destruct (Z.pos m <? 2 ^ 23) eqn:Esub.
    + (* subnormal *)
      assert (He' : e = -149).
      { destruct (Z.le_gt_cases 24 (Z.pos (digits2_pos m))) as [Hge|Hlt];
          [|lia].
        assert (2 ^ 23 ≤ 2 ^ (Z.pos (digits2_pos m) - 1))
          by (apply Z.pow_le_mono_r; lia).
        lia. }
      subst e.
      destruct (binary32_fields s 0 (Z.pos m)) as (H1 & H2 & H3);
        [lia | lia |].
      cbv zeta in H1, H2, H3. unfold float_of_bits.
      replace (sign_bit s + Z.pos m)
        with (sign_bit s + 0 * 2 ^ 23 + Z.pos m) by lia.
      rewrite H1, H2, H3. done.
    + (* normal *)
      assert (Hdig : Z.pos (digits2_pos m) = 24).
      { destruct (Z.le_gt_cases (Z.pos (digits2_pos m)) 23) as [Hle|Hgt].
        - assert (2 ^ Z.pos (digits2_pos m) ≤ 2 ^ 23)
            by (apply Z.pow_le_mono_r; lia).
          lia.
        - lia. }
      rewrite Hdig in Hd. change (2 ^ (24 - 1)) with (2 ^ 23) in Hd.
      change (2 ^ 24) with (2 * 2 ^ 23) in Hd.
      destruct (binary32_fields s (e + 150) (Z.pos m - 2 ^ 23))
        as (H1 & H2 & H3); [lia | lia |].
      cbv zeta in H1, H2, H3. unfold float_of_bits.
      rewrite H1, H2, H3.
      replace (e + 150 =? 0) with false by lia.
      replace (e + 150 =? 255) with false by lia.
      replace (Z.pos m - 2 ^ 23 + 2 ^ 23) with (Z.pos m) by lia.
      f_equal. lia.
Qed.

(** ** [save] writes the layout *)

Lemma save_unfold (idx : laItqLsh) :
  save idx
  = for_ (Z.to_nat (Param.L (param idx))) 0 (save_table idx)
         (ser_header (param idx)).
Proof. reflexivity. Qed.

Lemma load_unfold (idx : laItqLsh) (inp : file) :
  load idx inp
  = ('(m, inp) ← read_word inp;
     '(l, inp) ← read_word inp;
     '(d, inp) ← read_word inp;
     '(n, inp) ← read_word inp;
     '(s, inp) ← read_word inp;
     '(idx, _) ← for_ (Z.to_nat l) 0 (load_table n d)
        (mkIndex (Param.mk m l d n s (Param.I (param idx)))
           (resize_ (Z.to_nat l) [] (pcsAll idx))
           (resize_ (Z.to_nat l) [] (omegasAll idx))
           (resize_ (Z.to_nat l) [] (rndArray idx))
           (resize_ (Z.to_nat l) [] (tables idx))
           (meanAndSTD idx), inp);
     Ok idx).
Proof. reflexivity. Qed.

Lemma read_n_all {A : Type} (v : list A) : read_n v (length v) = Ok v.
Proof. unfold read_n. rewrite Nat.leb_refl. by rewrite firstn_all. Qed.

Lemma read_n_take {A : Type} (v : list A) (n : nat) :
  (n ≤ length v)%nat → read_n v n = Ok (take n v).
Proof.
  intros Hn. unfold read_n. by rewrite (proj2 (Nat.leb_le _ _) Hn).
Qed.

Lemma save_bucket_unfold (target : Z) (items : list Z) (out : file) :
  save_bucket (target, items) out
  = (items' ← read_n items (Z.to_nat (wrap32 (Z.of_nat (length items))));
     Ok (out ++ [target; wrap32 (Z.of_nat (length items))] ++ items')).
Proof. reflexivity. Qed.

Lemma save_buckets (tbl : bucketMap) (out : file) :
  Forall (fun b : Z * list Z => Z.of_nat (length (snd b)) < 2 ^ 32) tbl →
  foreach_ tbl save_bucket out = Ok (out ++ concat (map ser_bucket tbl)).
Proof.
  revert out. induction tbl as [|[target items] tbl IH]; intros out Hl.
  - cbn [foreach_ map concat]. by rewrite app_nil_r.
  - apply Forall_cons in Hl as [Hb Hl]. cbn [snd] in Hb.
    cbn [foreach_]. rewrite save_bucket_unfold.
    rewrite wrap32_small by lia. rewrite Nat2Z.id, read_n_all, !ret_bind.
    rewrite (IH _ Hl). cbn [map concat]. unfold ser_bucket. cbn [fst snd].
    by rewrite <- !app_assoc.
Qed.

Lemma save_row_unfold idx (i j : nat) (out : file) :
  save_row idx i j out
  = (pcs ← at_ (pcsAll idx) i;
     pc ← at_ pcs j;
     pc ← read_n pc (Z.to_nat (Param.D (param idx)));
     om ← at_ (omegasAll idx) i;
     omega ← at_ om j;
     omega ← read_n omega (Z.to_nat (Param.N (param idx)));
     Ok (out ++ map bits_of_float pc ++ map bits_of_float omega)).
Proof. reflexivity. Qed.

Lemma save_rows idx (i : nat) (pcs oms : list (list float)) :
  pcsAll idx !! i = Some pcs → omegasAll idx !! i = Some oms →
  shapeb pcs (Z.to_nat (Param.N (param idx)))
             (Z.to_nat (Param.D (param idx))) = true →
  shapeb oms (Z.to_nat (Param.N (param idx)))
             (Z.to_nat (Param.N (param idx))) = true →
  ∀ (m from : nat) (out : file),
    (from + m)%nat = Z.to_nat (Param.N (param idx)) →
    for_ m from (save_row idx i) out
    = Ok (out ++ ser_rows (drop from pcs) (drop from oms)).
Proof.
  intros Hpcs Homs Hsp Hso.
  apply shapeb_spec in Hsp as [Hpl Hpr]. apply shapeb_spec in Hso as [Hol Hor].
  induction m as [|m IH]; intros from out Hm.
  - cbn [for_]. rewrite !drop_ge by lia. unfold ser_rows. cbn [zip_with concat].
    by rewrite app_nil_r.
  - cbn [for_]. rewrite save_row_unfold.
    rewrite (proj2 (at_Ok _ _ _) Hpcs), ret_bind.
    destruct (at_lt pcs from ltac:(lia)) as [pc [-> Hpc]]. rewrite ret_bind.
    rewrite <- (Hpr from pc Hpc), read_n_all, ret_bind.
    rewrite (proj2 (at_Ok _ _ _) Homs), ret_bind.
    destruct (at_lt oms from ltac:(lia)) as [om [-> Hom]]. rewrite ret_bind.
    rewrite <- (Hor from om Hom) at 1. rewrite read_n_all, !ret_bind.
    rewrite IH by lia.
    rewrite (drop_S pcs pc from Hpc), (drop_S oms om from Hom).
    unfold ser_rows. cbn [zip_with concat]. by rewrite <- !app_assoc.
Qed.

Lemma save_table_unfold idx (i : nat) (out : file) :
  save_table idx i out
  = (rnd ← at_ (rndArray idx) i;
     rnd ← read_n rnd (Z.to_nat (Param.N (param idx)));
     tbl ← at_ (tables idx) i;
     out ← foreach_ tbl save_bucket
             (out ++ rnd ++ [wrap32 (Z.of_nat (length tbl))]);
     for_ (Z.to_nat (Param.N (param idx))) 0 (save_row idx i) out).
Proof. reflexivity. Qed.

Lemma at_tables_Ok idx (i : nat) (tbl : bucketMap) :
  tables idx !! i = Some tbl → at_ (tables idx) i = Ok tbl.
Proof. apply at_Ok. Qed.

Lemma save_table_Ok idx (i : nat) (out : file) :
  savable_atb idx i = true →
  save_table idx i out = Ok (out ++ ser_table_at idx i).
Proof.
  unfold savable_atb, ser_table_at. intros H.
  destruct (rndArray idx !! i) as [rnd|] eqn:Ernd; [|done].
  destruct (tables idx !! i) as [tbl|] eqn:Etbl; [|done].
  rewrite !andb_true_iff in H. destruct H as [[[Hrnd Hcount] Hlens] Ht].
  apply Nat.leb_le in Hrnd. apply Z.ltb_lt in Hcount.
  unfold trainedb in Ht. rewrite !andb_true_iff in Ht.
  destruct Ht as [_ Ht].
  destruct (pcsAll idx !! i) as [pcs|] eqn:Epcs; [|done].
  destruct (omegasAll idx !! i) as [oms|] eqn:Eoms; [|done].
  apply andb_true_iff in Ht as [Hsp Hso].
  cbn [from_option id].
  rewrite save_table_unfold.
  rewrite (proj2 (at_Ok _ _ _) Ernd), ret_bind. cbv beta.
  rewrite read_n_take by done. rewrite ret_bind. cbv beta.
  rewrite (at_tables_Ok idx i tbl Etbl), ret_bind. cbv beta.
  rewrite wrap32_small by lia.
  rewrite save_buckets.
  2:{ apply Forall_forall. intros b Hb. rewrite forallb_forall in Hlens.
      apply list_elem_of_In in Hb. specialize (Hlens b Hb). lia. }
  rewrite ret_bind. cbv beta.
  rewrite (save_rows idx i pcs oms Epcs Eoms Hsp Hso) by lia.
  rewrite !drop_0. unfold ser_table. by rewrite <- !app_assoc.
Qed.

Lemma for_append {A : Type} (f : nat → list A → result (list A))
    (g : nat → list A) (m from : nat) (out : list A) :
  (∀ i out, (from ≤ i < from + m)%nat → f i out = Ok (out ++ g i)) →
  for_ m from f out = Ok (out ++ concat (map g (seq from m))).
Proof.
  revert from out. induction m as [|m IH]; intros from out Hf.
  - cbn [for_ seq map concat]. by rewrite app_nil_r.
  - cbn [for_ seq map concat]. rewrite Hf by lia. rewrite ret_bind.
    rewrite IH by (intros; apply Hf; lia). by rewrite <- app_assoc.
Qed.

(** [save] on an index whose [L] tables can be saved writes the layout. *)
Lemma save_Ok (idx : laItqLsh) :
  savableb idx = true → save idx = Ok (ser_index idx).
Proof.
  intros H. unfold savableb in H. rewrite forallb_forall in H.
  rewrite save_unfold. unfold ser_index.
  apply for_append. intros i out Hi. apply save_table_Ok, H, in_seq. lia.
Qed.

(** ** [load] reads the layout back *)

Lemma read_words_app (ws rest : file) (n : nat) :
  length ws = n → read_words n (ws ++ rest) = Ok (ws, rest).
Proof.
  intros <-. unfold read_words. rewrite length_app.
  rewrite (proj2 (Nat.leb_le _ _)) by lia.
  by rewrite take_app_length, drop_app_length.
Qed.

Lemma bm_assign_append (m : bucketMap) (key : Z) (items : list Z) :
  Forall (fun k => k < key) (bm_keys m) →
  bm_assign m key items = m ++ [(key, items)].
Proof.
  induction m as [|[k v] m IH]; intros H; [done|].
  unfold bm_keys in H. cbn [map fst] in H. apply Forall_cons in H as [Hk H].
  cbn [bm_assign]. replace (key <? k) with false by lia.
  replace (key =? k) with false by lia. cbn [app]. f_equal. by apply IH.
Qed.

(** Assigning the buckets of a map in the order of their keys builds the
    map. *)
Lemma fold_bm_assign (bs m : bucketMap) :
  StronglySorted Z.lt (bm_keys (m ++ bs)) →
  fold_left (fun m (b : Z * list Z) => bm_assign m (fst b) (snd b)) bs m
  = m ++ bs.
Proof.
  revert m. induction bs as [|[k v] bs IH]; intros m Hs.
  - cbn [fold_left]. by rewrite app_nil_r.
  - cbn [fold_left fst snd]. rewrite bm_assign_append.
    + rewrite IH; [by rewrite <- app_assoc|]. by rewrite <- app_assoc.
    + unfold bm_keys in Hs. rewrite map_app in Hs. cbn [map fst] in Hs.
      apply StronglySorted_app in Hs as (Hall & _ & _).
      apply Forall_forall. intros k' Hk'. apply (Hall k' k Hk'). left.
Qed.

Lemma ascendingb_sorted (lo : Z) (keys : list Z) :
  ascendingb lo keys = true →
  StronglySorted Z.lt keys ∧ Forall (fun k => lo < k) keys.
Proof.
  revert lo. induction keys as [|k keys IH]; intros lo H.
  - split; constructor.
  - cbn [ascendingb] in H. apply andb_true_iff in H as [Hk H].
    destruct (IH k H) as [Hs Hall]. split.
    + by constructor.
    + constructor; [lia|]. eapply Forall_impl; [exact Hall|].
      simpl. intros; lia.
Qed.

Lemma load_bucket_unfold (i j : nat) (idx : laItqLsh) (inp : file) :
  load_bucket i j (idx, inp)
  = ('(target, inp) ← read_word inp;
     '(length, inp) ← read_word inp;
     '(items, inp) ← read_words (Z.to_nat length) inp;
     tbl ← at_ (tables idx) i;
     Ok (set_tables idx (<[i := bm_assign tbl target items]> (tables idx)),
         inp)).
Proof. reflexivity. Qed.

Lemma set_tables_set_tables idx (ts ts' : list bucketMap) :
  set_tables (set_tables idx ts) ts' = set_tables idx ts'.
Proof. reflexivity. Qed.

Lemma load_buckets (i : nat) (bs : bucketMap) :
  ∀ (from : nat) (idx : laItqLsh) (tbl : bucketMap) (rest : file),
    tables idx !! i = Some tbl →
    for_ (length bs) from (load_bucket i)
         (idx, concat (map ser_bucket bs) ++ rest)
    = Ok (set_tables idx
            (<[i := fold_left
                      (fun m (b : Z * list Z) => bm_assign m (fst b) (snd b))
                      bs tbl]> (tables idx)),
          rest).
Proof.
  induction bs as [|[target items] bs IH]; intros from idx tbl rest Htbl.
  - cbn [length for_ map concat fold_left app].
    rewrite list_insert_id by done. by destruct idx.
  - cbn [length for_ map concat]. rewrite load_bucket_unfold.
    unfold ser_bucket at 1. cbn [fst snd app].
    cbn [read_word]. rewrite ret_bind. cbv beta iota.
    cbn [read_word]. rewrite ret_bind. cbv beta iota.
    rewrite Nat2Z.id, <- app_assoc.
    rewrite (read_words_app items _ (length items) eq_refl), ret_bind.
    cbv beta iota.
    rewrite (at_tables_Ok idx i tbl Htbl), !ret_bind. cbv beta.
    rewrite (IH (Datatypes.S from) _ (bm_assign tbl target items)).
    2:{ cbn [set_tables tables]. apply list_lookup_insert_eq.
        by apply lookup_lt_Some in Htbl. }
    cbn [set_tables tables param pcsAll omegasAll rndArray meanAndSTD].
    by rewrite list_insert_insert_eq.
Qed.

Lemma load_row_unfold (n d : Z) (j : nat) (pcs oms : list (list float))
    (inp : file) :
  load_row n d j (pcs, oms, inp)
  = ('(pc, inp) ← read_words (Z.to_nat d) inp;
     '(omega, inp) ← read_words (Z.to_nat n) inp;
     Ok (<[j := map float_of_bits pc]> pcs,
         <[j := map float_of_bits omega]> oms, inp)).
Proof. reflexivity. Qed.

Lemma map_float_of_bits (row : list float) :
  forallb (valid_binary 24 128) row = true →
  map float_of_bits (map bits_of_float row) = row.
Proof.
  intros Hv. rewrite map_map. rewrite <- (map_id row) at 2.
  apply map_ext_in. intros x Hx. rewrite forallb_forall in Hv.
  by apply float_of_bits_of_float, Hv.
Qed.

Lemma load_rows (n d : Z) (pcs oms : list (list float)) :
  shapeb pcs (Z.to_nat n) (Z.to_nat d) = true →
  shapeb oms (Z.to_nat n) (Z.to_nat n) = true →
  forallb (forallb (valid_binary 24 128)) pcs = true →
  forallb (forallb (valid_binary 24 128)) oms = true →
  ∀ (m from : nat) (pp po : list (list float)) (rest : file),
    (from + m)%nat = Z.to_nat n →
    length pp = Z.to_nat n → length po = Z.to_nat n →
    for_ m from (load_row n d)
         (pp, po, ser_rows (drop from pcs) (drop from oms) ++ rest)
    = Ok (take from pp ++ drop from pcs, take from po ++ drop from oms, rest).
Proof.
  intros Hsp Hso Hvp Hvo.
  apply shapeb_spec in Hsp as [Hpl Hpr]. apply shapeb_spec in Hso as [Hol Hor].
  induction m as [|m IH]; intros from pp po rest Hm Hpp Hpo.
  - cbn [for_]. rewrite !drop_ge by lia. unfold ser_rows.
    cbn [zip_with concat app]. rewrite !app_nil_r.
    by rewrite !take_ge by lia.
  - destruct (lookup_lt_is_Some_2 pcs from ltac:(lia)) as [pc Hpc].
    destruct (lookup_lt_is_Some_2 oms from ltac:(lia)) as [om Hom].
    rewrite (drop_S pcs pc from Hpc), (drop_S oms om from Hom).
    cbn [for_]. rewrite load_row_unfold. unfold ser_rows.
    cbn [zip_with concat]. rewrite <- !app_assoc.
    rewrite (read_words_app (map bits_of_float pc) _ (Z.to_nat d))
      by (rewrite length_map; eauto).
    rewrite ret_bind. cbv beta iota.
    rewrite (read_words_app (map bits_of_float om) _ (Z.to_nat n))
      by (rewrite length_map; eauto).
    rewrite !ret_bind. cbv beta iota.
    rewrite !map_float_of_bits.
    2:{ rewrite forallb_forall in Hvo. apply Hvo, list_elem_of_In,
          list_elem_of_lookup. eauto. }
    2:{ rewrite forallb_forall in Hvp. apply Hvp, list_elem_of_In,
          list_elem_of_lookup. eauto. }
    fold (ser_rows (drop (Datatypes.S from) pcs) (drop (Datatypes.S from) oms)).
    rewrite IH by (rewrite ?length_insert; lia).
    rewrite (take_S_r (<[from:=pc]> pp) from pc)
      by (apply list_lookup_insert_eq; lia).
    rewrite (take_S_r (<[from:=om]> po) from om)
      by (apply list_lookup_insert_eq; lia).
    rewrite !take_insert_ge by lia. by rewrite <- !app_assoc.
Qed.

Lemma load_table_unfold (n d : Z) (i : nat) (idx : laItqLsh) (inp : file) :
  load_table n d i (idx, inp)
  = ('(rnd, inp) ← read_words (Z.to_nat n) inp;
     '(count, inp) ← read_word inp;
     '(idx, inp) ← for_ (Z.to_nat count) 0 (load_bucket i)
        (set_rndArray idx (<[i := rnd]> (rndArray idx)), inp);
     pcs ← at_ (pcsAll idx) i;
     oms ← at_ (omegasAll idx) i;
     '(pcs, oms, inp) ← for_ (Z.to_nat n) 0 (load_row n d)
        (resize_ (Z.to_nat n) [] pcs, resize_ (Z.to_nat n) [] oms, inp);
     Ok (set_matrices idx (<[i := pcs]> (pcsAll idx))
                          (<[i := oms]> (omegasAll idx)), inp)).
Proof. reflexivity. Qed.

Lemma resize_length {A : Type} (n : nat) (x : A) (v : list A) :
  length (resize_ n x v) = n.
Proof.
  unfold resize_. rewrite length_app, length_take, length_replicate. lia.
Qed.

(** One table read back from its layout, into a slot that holds an empty
    table. *)
Lemma load_table_Ok (n d : Z) (k : nat) (cur : laItqLsh) (rnd : list Z)
    (tbl : bucketMap) (pcs oms pp po : list (list float)) (rest : file) :
  (Z.to_nat n ≤ length rnd)%nat →
  bm_sorted tbl →
  shapeb pcs (Z.to_nat n) (Z.to_nat d) = true →
  shapeb oms (Z.to_nat n) (Z.to_nat n) = true →
  forallb (forallb (valid_binary 24 128)) pcs = true →
  forallb (forallb (valid_binary 24 128)) oms = true →
  tables cur !! k = Some ([] : bucketMap) →
  pcsAll cur !! k = Some pp → omegasAll cur !! k = Some po →
  load_table n d k (cur, ser_table (Z.to_nat n) rnd tbl pcs oms ++ rest)
  = Ok (mkIndex (param cur) (<[k := pcs]> (pcsAll cur))
          (<[k := oms]> (omegasAll cur))
          (<[k := take (Z.to_nat n) rnd]> (rndArray cur))
          (<[k := tbl]> (tables cur)) (meanAndSTD cur),
        rest).
Proof.
  intros Hrnd Hsorted Hsp Hso Hvp Hvo Htbl Hpp Hpo.
  rewrite load_table_unfold. unfold ser_table. rewrite <- !app_assoc.
  rewrite (read_words_app (take (Z.to_nat n) rnd) _ (Z.to_nat n))
    by (rewrite length_take; lia).
  rewrite ret_bind. cbv beta iota.
  cbn [app read_word]. rewrite ret_bind. cbv beta iota.
  rewrite Nat2Z.id.
  rewrite (load_buckets k tbl 0 _ [] _) by exact Htbl.
  rewrite ret_bind. cbv beta iota.
  rewrite (fold_bm_assign tbl []) by exact Hsorted.
  cbn [app set_tables set_rndArray pcsAll omegasAll tables rndArray param
           meanAndSTD].
  rewrite (proj2 (at_Ok _ _ _) Hpp), ret_bind. cbv beta.
  rewrite (proj2 (at_Ok _ _ _) Hpo), ret_bind. cbv beta.
  pose proof (load_rows n d pcs oms Hsp Hso Hvp Hvo (Z.to_nat n) 0
                (resize_ (Z.to_nat n) [] pp) (resize_ (Z.to_nat n) [] po)
                rest ltac:(lia) (resize_length _ _ _) (resize_length _ _ _))
    as Hrows.
  rewrite !drop_0 in Hrows.
  match goal with
  | |- mbind ?f ?m = _ =>
      replace m with (Ok (pcs, oms, rest)
                      : result (list (list float) * list (list float) * file))
        by (symmetry; exact Hrows)
  end.
  rewrite ret_bind. done.
Qed.

Lemma insert_take_replicate {A : Type} (X : list A) (k l : nat) (x d : A) :
  X !! k = Some x → (k < l)%nat →
  <[k := x]> (take k X ++ replicate (l - k) d)
  = take (Datatypes.S k) X ++ replicate (l - Datatypes.S k) d.
Proof.
  intros Hx Hk. pose proof (lookup_lt_Some _ _ _ Hx) as Hlt.
  rewrite insert_app_r_alt by (rewrite length_take; lia).
  rewrite length_take. replace (k `min` length X)%nat with k by lia.
  replace (k - k)%nat with 0%nat by lia.
  replace (l - k)%nat with (Datatypes.S (l - Datatypes.S k)) by lia.
  cbn [replicate]. rewrite (take_S_r X k x Hx).
  by rewrite <- app_assoc.
Qed.

Lemma lookup_take_replicate {A : Type} (X : list A) (k l : nat) (d : A) :
  (k ≤ length X)%nat → (k < l)%nat →
  (take k X ++ replicate (l - k) d) !! k = Some d.
Proof.
  intros Hk Hl. rewrite lookup_app_r by (rewrite length_take; lia).
  rewrite length_take. apply lookup_replicate_2. lia.
Qed.

(** What [codec_wfb] says of table [k]. *)
Lemma codec_wfb_at idx (k : nat) :
  codec_wfb idx = true → (k < Z.to_nat (Param.L (param idx)))%nat →
  length (pcsAll idx) = Z.to_nat (Param.L (param idx))
  ∧ length (omegasAll idx) = Z.to_nat (Param.L (param idx))
  ∧ length (rndArray idx) = Z.to_nat (Param.L (param idx))
  ∧ length (tables idx) = Z.to_nat (Param.L (param idx))
  ∧ ∃ rnd tbl pcs oms,
      rndArray idx !! k = Some rnd
      ∧ (Z.to_nat (Param.N (param idx)) ≤ length rnd)%nat
      ∧ tables idx !! k = Some tbl ∧ bm_sorted tbl
      ∧ Z.of_nat (length tbl) < 2 ^ 32
      ∧ Forall (fun b : Z * list Z => Z.of_nat (length (snd b)) < 2 ^ 32) tbl
      ∧ pcsAll idx !! k = Some pcs ∧ omegasAll idx !! k = Some oms
      ∧ shapeb pcs (Z.to_nat (Param.N (param idx)))
                   (Z.to_nat (Param.D (param idx))) = true
      ∧ shapeb oms (Z.to_nat (Param.N (param idx)))
                   (Z.to_nat (Param.N (param idx))) = true
      ∧ forallb (forallb (valid_binary 24 128)) pcs = true
      ∧ forallb (forallb (valid_binary 24 128)) oms = true
      ∧ trainedb idx k = true.
Proof.
  unfold codec_wfb. cbv zeta. rewrite !andb_true_iff.
  intros [[[[[[[[Ht Hlp] Hlo] Hlr] Hrnd] Hwf] Hcnt] Hvp] Hvo] Hk.
  apply Nat.eqb_eq in Hlp, Hlo, Hlr.
  apply all_trainedb_spec in Ht as [Ht Hlt].
  assert (Hltab : length (tables idx) = Z.to_nat (Param.L (param idx)))
    by lia.
  repeat (split; [done|]).
  destruct (lookup_lt_is_Some_2 (rndArray idx) k ltac:(lia)) as [rnd Ernd].
  destruct (lookup_lt_is_Some_2 (tables idx) k ltac:(lia)) as [tbl Etbl].
  destruct (lookup_lt_is_Some_2 (pcsAll idx) k ltac:(lia)) as [pcs Epcs].
  destruct (lookup_lt_is_Some_2 (omegasAll idx) k ltac:(lia)) as [oms Eoms].
  exists rnd, tbl, pcs, oms.
  assert (Hin : ∀ {A : Type} (X : list A) (x : A), X !! k = Some x → In x X).
  { intros A X x Hx. apply list_elem_of_In, list_elem_of_lookup. eauto. }
  specialize (Ht k Hk). pose proof Ht as Ht'.
  unfold trainedb in Ht. rewrite Epcs, Eoms in Ht.
  rewrite !andb_true_iff in Ht. destruct Ht as [_ [Hsp Hso]].
  rewrite forallb_forall in Hrnd. pose proof (Hrnd rnd (Hin _ _ _ Ernd)) as Hr.
  apply Nat.leb_le in Hr.
  unfold tables_wfb in Hwf. rewrite forallb_forall in Hwf.
  pose proof (Hwf tbl (Hin _ _ _ Etbl)) as Hw.
  rewrite !andb_true_iff in Hw. destruct Hw as [[Hasc _] Hitems].
  rewrite forallb_forall in Hcnt.
  pose proof (Hcnt tbl (Hin _ _ _ Etbl)) as Hc. apply Z.ltb_lt in Hc.
  unfold floats_validb in Hvp, Hvo. rewrite forallb_forall in Hvp, Hvo.
  repeat split; try done.
  - by apply (ascendingb_sorted (-1)).
  - apply Forall_forall. intros b Hb. rewrite forallb_forall in Hitems.
    apply list_elem_of_In in Hb. specialize (Hitems b Hb).
    apply andb_true_iff in Hitems as [_ Hl]. lia.
  - apply Hvp. eauto.
  - apply Hvo. eauto.
Qed.

Lemma ser_table_at_eq idx (k : nat) (rnd : list Z) (tbl : bucketMap)
    (pcs oms : list (list float)) :
  rndArray idx !! k = Some rnd → tables idx !! k = Some tbl →
  pcsAll idx !! k = Some pcs → omegasAll idx !! k = Some oms →
  ser_table_at idx k
  = ser_table (Z.to_nat (Param.N (param idx))) rnd tbl pcs oms.
Proof.
  intros H1 H2 H3 H4. unfold ser_table_at. f_equal.
  - exact (f_equal (default []) H1).
  - exact (f_equal (default []) H2).
  - exact (f_equal (default []) H3).
  - exact (f_equal (default []) H4).
Qed.

Lemma load_tables idx (i0 : Z) :
  codec_wfb idx = true →
  ∀ (m from : nat) (rest : file),
    (from + m)%nat = Z.to_nat (Param.L (param idx)) →
    for_ m from (load_table (Param.N (param idx)) (Param.D (param idx)))
         (loaded_prefix idx i0 from,
          concat (map (ser_table_at idx) (seq from m)) ++ rest)
    = Ok (loaded_prefix idx i0 (from + m), rest).
Proof.
  intros Hwf. induction m as [|m IH]; intros from rest Hm.
  - cbn [for_ seq map concat app]. by rewrite Nat.add_0_r.
  - destruct (codec_wfb_at idx from Hwf ltac:(lia))
      as (Hlp & Hlo & Hlr & Hlt & rnd & tbl & pcs & oms & Ernd & Hrnd & Etbl
          & Hsorted & _ & _ & Epcs & Eoms & Hsp & Hso & Hvp & Hvo & _).
    cbn [for_ seq map concat]. rewrite <- app_assoc.
    rewrite (ser_table_at_eq idx from rnd tbl pcs oms Ernd Etbl Epcs Eoms).
    rewrite (load_table_Ok _ _ from (loaded_prefix idx i0 from) rnd tbl pcs oms
               [] [] _ Hrnd Hsorted Hsp Hso Hvp Hvo).
    2,3,4: (cbn [loaded_prefix tables pcsAll omegasAll];
            apply lookup_take_replicate; lia).
    rewrite ret_bind.
    replace (from + Datatypes.S m)%nat with (Datatypes.S from + m)%nat by lia.
    rewrite <- (IH (Datatypes.S from) rest) by lia.
    do 2 f_equal. unfold loaded_prefix.
    cbn [param pcsAll omegasAll rndArray tables meanAndSTD].
    f_equal; apply insert_take_replicate; try done; try lia.
    rewrite list_lookup_fmap, Ernd. done.
Qed.

(** [load] into a default-constructed index reads back what [save] wrote. *)
Lemma load_ser_index idx (p0 : Param.t) :
  codec_wfb idx = true →
  load (fresh p0) (ser_index idx)
  = Ok (mkIndex (Param.mk (Param.M (param idx)) (Param.L (param idx))
                   (Param.D (param idx)) (Param.N (param idx))
                   (Param.S (param idx)) (Param.I p0))
          (pcsAll idx) (omegasAll idx)
          (map (take (Z.to_nat (Param.N (param idx)))) (rndArray idx))
          (tables idx) []).
Proof.
  intros Hwf. rewrite load_unfold. unfold ser_index, ser_header.
  cbn [app]. do 5 (cbn [read_word]; rewrite ret_bind; cbv beta iota).
  cbn [fresh pcsAll omegasAll rndArray tables meanAndSTD param Param.I].
  pose proof (load_tables idx (Param.I p0) Hwf
                (Z.to_nat (Param.L (param idx))) 0 [] ltac:(lia)) as Hl.
  rewrite app_nil_r in Hl.
  match goal with
  | |- mbind ?f (for_ ?l ?z ?body (?st, ?inp)) = _ =>
      replace st with (loaded_prefix idx (Param.I p0) 0)
  end.
  2:{ unfold loaded_prefix, resize_. cbn [length take].
      rewrite !take_nil. reflexivity. }
  match goal with
  | |- mbind ?f ?m = _ =>
      replace m
        with (Ok (loaded_prefix idx (Param.I p0)
                    (0 + Z.to_nat (Param.L (param idx))), [])
              : result (laItqLsh * file))
        by (symmetry; exact Hl)
  end.
  rewrite ret_bind. cbv beta iota. f_equal.
  unfold loaded_prefix. cbn [Nat.add].
  assert (Hlens := codec_wfb_at idx).
  destruct (decide (0 < Z.to_nat (Param.L (param idx)))%nat) as [Hpos|Hz].
  - destruct (Hlens 0%nat Hwf Hpos) as (Hlp & Hlo & Hlr & Hlt & _).
    rewrite Nat.sub_diag. cbn [replicate]. rewrite !app_nil_r.
    rewrite !take_ge by (rewrite ?length_map; lia). done.
  - assert (Z.to_nat (Param.L (param idx)) = 0%nat) as -> by lia.
    revert Hwf. unfold codec_wfb, all_trainedb. cbv zeta.
    rewrite !andb_true_iff.
    intros [[[[[[[[[_ Hlt] Hlp] Hlo] Hlr] _] _] _] _] _].
    apply Nat.eqb_eq in Hlp, Hlo, Hlr.
    assert (Z.to_nat (Param.L (param idx)) = 0%nat) as E by lia.
    rewrite E in Hlp, Hlo, Hlr.
    assert (length (tables idx) = 0%nat) by lia.
    destruct (pcsAll idx), (omegasAll idx), (rndArray idx), (tables idx);
      try discriminate. done.
Qed.

Lemma codec_wfb_savable idx : codec_wfb idx = true → savableb idx = true.
Proof.
  intros Hwf. unfold savableb. apply forallb_forall. intros k Hk.
  apply in_seq in Hk.
  destruct (codec_wfb_at idx k Hwf ltac:(lia))
    as (_ & _ & _ & _ & rnd & tbl & pcs & oms & Ernd & Hrnd & Etbl & _ & Hcnt
        & Hlens & _ & _ & _ & _ & _ & _ & Ht).
  unfold savable_atb.
  replace (rndArray idx !! k) with (Some rnd) by (symmetry; exact Ernd).
  replace (tables idx !! k) with (Some tbl) by (symmetry; exact Etbl).
  rewrite Ht, !andb_true_r. rewrite !andb_true_iff. split; [split|].
  - by apply Nat.leb_le.
  - lia.
  - apply forallb_forall. intros b Hb. rewrite Forall_forall in Hlens.
    apply list_elem_of_In in Hb. specialize (Hlens b Hb). lia.
Qed.

Lemma reloaded_save idx (p0 : Param.t) :
  codec_wfb idx = true → save (reloaded idx p0) = Ok (ser_index idx).
Proof.
  intros Hwf.
  assert (Hat : ∀ k, (k < Z.to_nat (Param.L (param idx)))%nat →
            savable_atb (reloaded idx p0) k = true
            ∧ ser_table_at (reloaded idx p0) k = ser_table_at idx k).
  { intros k Hk.
    destruct (codec_wfb_at idx k Hwf Hk)
      as (_ & _ & _ & _ & rnd & tbl & pcs & oms & Ernd & Hrnd & Etbl & _ & Hcnt
          & Hlens & Epcs & Eoms & _ & _ & _ & _ & Ht).
    assert (Ernd' : rndArray (reloaded idx p0) !! k
                    = Some (take (Z.to_nat (Param.N (param idx))) rnd)).
    { cbn [reloaded rndArray]. by rewrite list_lookup_fmap, Ernd. }
    split.
    - unfold savable_atb.
      replace (rndArray (reloaded idx p0) !! k)
        with (Some (take (Z.to_nat (Param.N (param idx))) rnd))
        by (symmetry; exact Ernd').
      replace (tables (reloaded idx p0) !! k) with (Some tbl)
        by (symmetry; exact Etbl).
      change (trainedb (reloaded idx p0) k) with (trainedb idx k).
      rewrite Ht, !andb_true_r. rewrite !andb_true_iff. split; [split|].
      + apply Nat.leb_le. cbn [reloaded param Param.N].
        rewrite length_take. lia.
      + lia.
      + apply forallb_forall. intros b Hb. rewrite Forall_forall in Hlens.
        apply list_elem_of_In in Hb. specialize (Hlens b Hb). lia.
    - rewrite (ser_table_at_eq (reloaded idx p0) k _ tbl pcs oms Ernd' Etbl
                 Epcs Eoms).
      rewrite (ser_table_at_eq idx k rnd tbl pcs oms Ernd Etbl Epcs Eoms).
      cbn [reloaded param Param.N]. unfold ser_table.
      rewrite take_take. by replace (_ `min` _)%nat
        with (Z.to_nat (Param.N (param idx))) by lia. }
  rewrite save_Ok.
  - f_equal. unfold ser_index. cbn [reloaded param Param.L Param.M Param.D
                                      Param.N Param.S ser_header].
    f_equal. f_equal. apply map_ext_in. intros k Hk. apply in_seq in Hk.
    apply Hat. lia.
  - unfold savableb. apply forallb_forall. intros k Hk. apply in_seq in Hk.
    apply Hat. cbn [reloaded param Param.L] in Hk. lia.
Qed.

(** ** [load] into an index that holds no bucket *)

Lemma insert_take_drop {A : Type} (X Y : list A) (k : nat) (x : A) :
  X !! k = Some x → (k < length Y)%nat →
  <[k := x]> (take k X ++ drop k Y)
  = take (Datatypes.S k) X ++ drop (Datatypes.S k) Y.
Proof.
  intros Hx Hk. pose proof (lookup_lt_Some _ _ _ Hx) as Hlt.
  destruct (lookup_lt_is_Some_2 Y k Hk) as [y Hy].
  rewrite insert_app_r_alt by (rewrite length_take; lia).
  rewrite length_take. replace (k `min` length X)%nat with k by lia.
  replace (k - k)%nat with 0%nat by lia.
  rewrite (drop_S Y y k Hy). cbn [insert list_insert].
  rewrite (take_S_r X k x Hx). by rewrite <- app_assoc.
Qed.

Lemma lookup_take_drop {A : Type} (X Y : list A) (k : nat) :
  (k ≤ length X)%nat → (take k X ++ drop k Y) !! k = Y !! k.
Proof.
  intros Hk. rewrite lookup_app_r by (rewrite length_take; lia).
  rewrite length_take. replace (k - k `min` length X)%nat with 0%nat by lia.
  rewrite lookup_drop. by rewrite Nat.add_0_r.
Qed.

Lemma resize_lookup_forallb {A : Type} (P : A → bool) (d : A) (l : nat)
    (v : list A) (k : nat) :
  forallb P (take l v) = true → P d = true → (k < l)%nat →
  ∃ x, resize_ l d v !! k = Some x ∧ P x = true.
Proof.
  intros Hv Hd Hk. unfold resize_.
  destruct (decide (k < length v)%nat) as [Hin|Hout].
  - rewrite lookup_app_l by (rewrite length_take; lia).
    destruct (lookup_lt_is_Some_2 (take l v) k) as [x Hx].
    { rewrite length_take. lia. }
    exists x. split; [done|]. rewrite forallb_forall in Hv. apply Hv.
    apply list_elem_of_In, list_elem_of_lookup. eauto.
  - rewrite lookup_app_r by (rewrite length_take; lia).
    exists d. split; [|done]. rewrite length_take.
    apply lookup_replicate_2. lia.
Qed.

Lemma no_bucketsb_lookup (l : nat) (ld : laItqLsh) (k : nat) :
  no_bucketsb l ld = true → (k < l)%nat →
  resize_ l [] (tables ld) !! k = Some ([] : bucketMap).
Proof.
  intros Hnb Hk.
  destruct (resize_lookup_forallb _ ([] : bucketMap) l (tables ld) k Hnb
              eq_refl Hk) as (x & Hx & HP).
  by destruct x.
Qed.

Lemma load_tables_into idx ld :
  codec_wfb idx = true →
  no_bucketsb (Z.to_nat (Param.L (param idx))) ld = true →
  ∀ (m from : nat) (rest : file),
    (from + m)%nat = Z.to_nat (Param.L (param idx)) →
    for_ m from (load_table (Param.N (param idx)) (Param.D (param idx)))
         (loading_prefix idx ld from,
          concat (map (ser_table_at idx) (seq from m)) ++ rest)
    = Ok (loading_prefix idx ld (from + m), rest).
Proof.
  intros Hwf Hnb. induction m as [|m IH]; intros from rest Hm.
  - cbn [for_ seq map concat app]. by rewrite Nat.add_0_r.
  - destruct (codec_wfb_at idx from Hwf ltac:(lia))
      as (Hlp & Hlo & Hlr & Hlt & rnd & tbl & pcs & oms & Ernd & Hrnd & Etbl
          & Hsorted & _ & _ & Epcs & Eoms & Hsp & Hso & Hvp & Hvo & _).
    set (l := Z.to_nat (Param.L (param idx))) in *.
    destruct (lookup_lt_is_Some_2 (resize_ l [] (pcsAll ld)) from)
      as [pp Hpp]; [rewrite resize_length; lia|].
    destruct (lookup_lt_is_Some_2 (resize_ l [] (omegasAll ld)) from)
      as [po Hpo]; [rewrite resize_length; lia|].
    cbn [for_ seq map concat]. rewrite <- app_assoc.
    rewrite (ser_table_at_eq idx from rnd tbl pcs oms Ernd Etbl Epcs Eoms).
    rewrite (load_table_Ok _ _ from (loading_prefix idx ld from) rnd tbl pcs
               oms pp po _ Hrnd Hsorted Hsp Hso Hvp Hvo).
    2:{ cbn [loading_prefix tables]. fold l.
        rewrite lookup_take_drop by lia.
        apply no_bucketsb_lookup; [done | lia]. }
    2:{ cbn [loading_prefix pcsAll]. fold l.
        by rewrite lookup_take_drop by lia. }
    2:{ cbn [loading_prefix omegasAll]. fold l.
        by rewrite lookup_take_drop by lia. }
    rewrite ret_bind.
    replace (from + Datatypes.S m)%nat with (Datatypes.S from + m)%nat by lia.
    rewrite <- (IH (Datatypes.S from) rest) by lia.
    do 2 f_equal. unfold loading_prefix.
    cbn [param pcsAll omegasAll rndArray tables meanAndSTD]. fold l.
    f_equal; apply insert_take_drop; try done;
      try (rewrite resize_length; lia).
    rewrite list_lookup_fmap, Ernd. done.
Qed.

Lemma load_into_ser_index idx ld :
  codec_wfb idx = true →
  no_bucketsb (Z.to_nat (Param.L (param idx))) ld = true →
  load ld (ser_index idx) = Ok (reloaded_into idx ld).
Proof.
  intros Hwf Hnb. rewrite load_unfold. unfold ser_index, ser_header.
  cbn [app]. do 5 (cbn [read_word]; rewrite ret_bind; cbv beta iota).
  cbn [Param.I].
  pose proof (load_tables_into idx ld Hwf Hnb
                (Z.to_nat (Param.L (param idx))) 0 [] ltac:(lia)) as Hl.
  rewrite app_nil_r in Hl.
  match goal with
  | |- mbind ?f (for_ ?l ?z ?body (?st, ?inp)) = _ =>
      replace st with (loading_prefix idx ld 0)
  end.
  2:{ unfold loading_prefix. cbn [take]. by rewrite !drop_0. }
  match goal with
  | |- mbind ?f ?m = _ =>
      replace m
        with (Ok (loading_prefix idx ld
                    (0 + Z.to_nat (Param.L (param idx))), [])
              : result (laItqLsh * file))
        by (symmetry; exact Hl)
  end.
  rewrite ret_bind. cbv beta iota. f_equal.
  unfold loading_prefix, reloaded_into. cbn [Nat.add].
  assert (Hlens : length (pcsAll idx) = Z.to_nat (Param.L (param idx))
                  ∧ length (omegasAll idx) = Z.to_nat (Param.L (param idx))
                  ∧ length (rndArray idx) = Z.to_nat (Param.L (param idx))
                  ∧ length (tables idx) = Z.to_nat (Param.L (param idx))).
  { revert Hwf. unfold codec_wfb, all_trainedb. cbv zeta.
    rewrite !andb_true_iff.
    intros [[[[[[[[[_ Hlt] Hlp] Hlo] Hlr] _] _] _] _] _].
    apply Nat.eqb_eq in Hlp, Hlo, Hlr. apply Z.eqb_eq in Hlt.
    repeat split; lia. }
  destruct Hlens as (Hlp & Hlo & Hlr & Hlt).
  rewrite !drop_ge by (rewrite resize_length; lia).
  rewrite !app_nil_r.
  rewrite !take_ge by (rewrite ?length_map; lia). done.
Qed.

Lemma reloaded_into_save idx ld :
  codec_wfb idx = true → save (reloaded_into idx ld) = Ok (ser_index idx).
Proof.
  intros Hwf.
  change (save (reloaded_into idx ld)) with (save (reloaded idx (param ld))).
  by apply reloaded_save.
Qed.

(** C3 (amended).  For an index as [reset], [train] and [hash] build it
    (the table count and the matrix counts equal [L], every table trained,
    the keys of every map in ascending order, counts and lengths [unsigned],
    the floats binary32 values): [save] writes a file; [load] of that file
    into an index whose first [L] tables hold no bucket (a
    default-constructed index, or any other with empty tables, whatever its
    parameters, matrices and random numbers) succeeds and yields an index
    with the same [M], [L], [D], [N], [S], the same tables, projection
    matrices and rotation matrices; and [save] of the loaded index writes
    the same file. *)
Theorem C3_save_load_round_trip (idx ld : laItqLsh) :
  codec_wfb idx = true →
  no_bucketsb (Z.to_nat (Param.L (param idx))) ld = true →
  ∃ (f : file) (idx' : laItqLsh),
    save idx = Ok f
    ∧ load ld f = Ok idx'
    ∧ Param.M (param idx') = Param.M (param idx)
    ∧ Param.L (param idx') = Param.L (param idx)
    ∧ Param.D (param idx') = Param.D (param idx)
    ∧ Param.N (param idx') = Param.N (param idx)
    ∧ Param.S (param idx') = Param.S (param idx)
    ∧ tables idx' = tables idx
    ∧ pcsAll idx' = pcsAll idx
    ∧ omegasAll idx' = omegasAll idx
    ∧ save idx' = Ok f.
Proof.
  intros Hwf Hnb. exists (ser_index idx), (reloaded_into idx ld).
  split; [by apply save_Ok, codec_wfb_savable|].
  split; [by apply load_into_ser_index|].
  repeat (split; [reflexivity|]).
  by apply reloaded_into_save.
Qed.

Lemma C3_save_load_round_trip_witness :
  ∃ (f : file) (idx' : laItqLsh),
    save idx_2bit_hashed = Ok f
    ∧ load idx_two_tables f = Ok idx'
    ∧ Param.M (param idx') = Param.M (param idx_2bit_hashed)
    ∧ Param.L (param idx') = Param.L (param idx_2bit_hashed)
    ∧ Param.D (param idx') = Param.D (param idx_2bit_hashed)
    ∧ Param.N (param idx') = Param.N (param idx_2bit_hashed)
    ∧ Param.S (param idx') = Param.S (param idx_2bit_hashed)
    ∧ tables idx' = tables idx_2bit_hashed
    ∧ pcsAll idx' = pcsAll idx_2bit_hashed
    ∧ omegasAll idx' = omegasAll idx_2bit_hashed
    ∧ save idx' = Ok f.
Proof.
  apply (C3_save_load_round_trip idx_2bit_hashed idx_two_tables);
    vm_compute; reflexivity.
Defined.

(** C3 (as stated) fails on indexes whose table count is [L].  [load]
    clears nothing: into an index that holds the bucket of code 5 already,
    the file of [idx_2bit_hashed] (30 words) loads to tables that keep that
    bucket, and the loaded index is saved to 33 words.  A projection matrix
    wider than [D] comes back cut to [D] entries a row.  And an index that
    was not trained cannot be saved. *)
Lemma C3_counterexample_load_keeps_old_buckets :
  Z.of_nat (length (tables idx_2bit_hashed))
  = Param.L (param idx_2bit_hashed)
  ∧ (∃ (f : file) (idx' : laItqLsh) (tbl tbl' : bucketMap) (f' : file),
       save idx_2bit_hashed = Ok f
       ∧ length f = 30%nat
       ∧ load loader_bucket5 f = Ok idx'
       ∧ tables idx_2bit_hashed !! 0%nat = Some tbl
       ∧ tables idx' !! 0%nat = Some tbl'
       ∧ bm_find tbl 5 = None
       ∧ bm_find tbl' 5 = Some [77]
       ∧ save idx' = Ok f'
       ∧ length f' = 33%nat)
  ∧ Z.of_nat (length (tables idx_wide)) = Param.L (param idx_wide)
  ∧ (∃ (f : file) (idx' : laItqLsh),
       save idx_wide = Ok f
       ∧ load (fresh (Param.mk 0 0 0 0 0 0)) f = Ok idx'
       ∧ pcsAll idx_wide = [[[f_one; fzero; f_two]; [fzero; f_one; f_two]]]
       ∧ pcsAll idx' = [[[f_one; fzero]; [fzero; f_one]]])
  ∧ Z.of_nat (length (tables idx_untrained)) = Param.L (param idx_untrained)
  ∧ save idx_untrained = Undefined.
Proof.
  split; [reflexivity|]. split.
  { do 5 eexists. repeat split; vm_compute; reflexivity. }
  split; [reflexivity|]. split.
  { do 2 eexists. repeat split; vm_compute; reflexivity. }
  split; [reflexivity | vm_compute; reflexivity].
Qed.

(** ** What [save] writes when the index holds more tables than [L] *)

Lemma savable_atb_set_tables idx (ts : list bucketMap) (k : nat) :
  tables idx !! k = ts !! k →
  savable_atb (set_tables idx ts) k = savable_atb idx k.
Proof.
  intros E. unfold savable_atb.
  change (rndArray (set_tables idx ts)) with (rndArray idx).
  change (tables (set_tables idx ts)) with ts.
  change (param (set_tables idx ts)) with (param idx).
  change (trainedb (set_tables idx ts) k) with (trainedb idx k).
  unfold bucketMap in *. by rewrite E.
Qed.

Lemma ser_table_at_set_tables idx (ts : list bucketMap) (k : nat) :
  tables idx !! k = ts !! k →
  ser_table_at (set_tables idx ts) k = ser_table_at idx k.
Proof.
  intros E. unfold ser_table_at.
  change (rndArray (set_tables idx ts)) with (rndArray idx).
  change (tables (set_tables idx ts)) with ts.
  change (param (set_tables idx ts)) with (param idx).
  change (pcsAll (set_tables idx ts)) with (pcsAll idx).
  change (omegasAll (set_tables idx ts)) with (omegasAll idx).
  unfold bucketMap in *. by rewrite E.
Qed.

Lemma savable_atb_table idx (k : nat) :
  savable_atb idx k = true →
  ∃ (rnd : list Z) (tbl : bucketMap),
    rndArray idx !! k = Some rnd ∧ tables idx !! k = Some tbl.
Proof.
  unfold savable_atb. intros H.
  destruct (rndArray idx !! k) as [rnd|]; [|discriminate].
  destruct (tables idx !! k) as [tbl|]; [|discriminate].
  by exists rnd, tbl.
Qed.

Lemma lookup_first_tables (ts extra : list bucketMap) (l k : nat)
    (tbl : bucketMap) :
  (k < l)%nat → ts !! k = Some tbl → ts !! k = (take l ts ++ extra) !! k.
Proof.
  intros Hk E. symmetry. rewrite lookup_app_l.
  - by apply lookup_take_lt.
  - rewrite length_take. apply lookup_lt_Some in E. lia.
Qed.

(** C6 (amended).  When the first [L] tables can be saved (they are there,
    trained, with [unsigned] counts), [save] writes a file that holds, for
    every table [i < L], the number of buckets of table [i], its buckets
    (code, length and items of every posting list, in key order) and the rows
    of its projection and rotation matrices; and the file does not depend on
    the tables held beyond the first [L]: an index with the same first [L]
    tables followed by any others is saved to the same file. *)
Theorem C6_save_writes_first_L_tables (idx : laItqLsh) :
  savableb idx = true →
  ∃ f : file,
    save idx = Ok f
    ∧ (∀ (i : nat) (tbl : bucketMap) (pcs oms : list (list float)),
         (i < Z.to_nat (Param.L (param idx)))%nat →
         tables idx !! i = Some tbl →
         pcsAll idx !! i = Some pcs → omegasAll idx !! i = Some oms →
         ∃ pre post : file,
           f = pre ++ [Z.of_nat (length tbl)] ++ concat (map ser_bucket tbl)
                   ++ ser_rows pcs oms ++ post)
    ∧ ∀ extra : list bucketMap,
        save (set_tables idx
                (take (Z.to_nat (Param.L (param idx))) (tables idx) ++ extra))
        = Ok f.
Proof.
  intros Hs. exists (ser_index idx). split; [by apply save_Ok|].
  assert (Hat : ∀ k, (k < Z.to_nat (Param.L (param idx)))%nat →
                     savable_atb idx k = true).
  { intros k Hk. unfold savableb in Hs. rewrite forallb_forall in Hs.
    apply Hs, in_seq. lia. }
  split.
  - intros i tbl pcs oms Hi Etbl Epcs Eoms.
    destruct (savable_atb_table idx i (Hat i Hi)) as (rnd & tbl' & Ernd & Etbl').
    unfold ser_index.
    replace (seq 0 (Z.to_nat (Param.L (param idx))))
      with (seq 0 i ++ [i] ++ seq (S i) (Z.to_nat (Param.L (param idx)) - S i)).
    2:{ replace (Z.to_nat (Param.L (param idx)))
          with (i + (1 + (Z.to_nat (Param.L (param idx)) - S i)))%nat
          at 2 by lia.
        rewrite !seq_app. cbn [seq]. do 3 f_equal; lia. }
    rewrite !map_app, !concat_app. cbn [map concat].
    rewrite (ser_table_at_eq idx i rnd tbl pcs oms Ernd Etbl Epcs Eoms).
    unfold ser_table.
    eexists (ser_header (param idx) ++ concat (map (ser_table_at idx) (seq 0 i))
             ++ take (Z.to_nat (Param.N (param idx))) rnd), _.
    rewrite app_nil_r, <- !app_assoc. reflexivity.
  - intros extra.
    set (ts := take (Z.to_nat (Param.L (param idx))) (tables idx) ++ extra).
    assert (Hlk : ∀ k, (k < Z.to_nat (Param.L (param idx)))%nat →
                       tables idx !! k = ts !! k).
    { intros k Hk.
      destruct (savable_atb_table idx k (Hat k Hk)) as (rnd & tbl & _ & Etbl).
      by apply (lookup_first_tables _ _ _ _ tbl). }
    rewrite save_Ok.
    + f_equal. unfold ser_index.
      change (param (set_tables idx ts)) with (param idx).
      f_equal. f_equal. apply map_ext_in. intros k Hk. apply in_seq in Hk.
      apply ser_table_at_set_tables, Hlk. lia.
    + unfold savableb. change (param (set_tables idx ts)) with (param idx).
      apply forallb_forall. intros k Hk. apply in_seq in Hk.
      rewrite savable_atb_set_tables by (apply Hlk; lia). apply Hat. lia.
Qed.

Lemma C6_save_writes_first_L_tables_witness :
  ∃ f : file,
    save idx_2bit_hashed = Ok f
    ∧ (∀ (i : nat) (tbl : bucketMap) (pcs oms : list (list float)),
         (i < Z.to_nat (Param.L (param idx_2bit_hashed)))%nat →
         tables idx_2bit_hashed !! i = Some tbl →
         pcsAll idx_2bit_hashed !! i = Some pcs →
         omegasAll idx_2bit_hashed !! i = Some oms →
         ∃ pre post : file,
           f = pre ++ [Z.of_nat (length tbl)] ++ concat (map ser_bucket tbl)
                   ++ ser_rows pcs oms ++ post)
    ∧ ∀ extra : list bucketMap,
        save (set_tables idx_2bit_hashed
                (take (Z.to_nat (Param.L (param idx_2bit_hashed)))
                   (tables idx_2bit_hashed) ++ extra))
        = Ok f.
Proof.
  apply (C6_save_writes_first_L_tables idx_2bit_hashed).
  vm_compute. reflexivity.
Defined.

(** C6 (as stated) fails on an index that [rehash] built: the second
    table exists at save time, its bucket of code [1] holds the items [3]
    and [5], and the file holds no such bucket; it is the file of the index
    before [rehash]. *)
Lemma C6_counterexample_rehashed_tables_not_saved :
  @rehash (specProbing normalize_x4) idx_2bit data_2bit 2
  = Ok idx_2bit_rehashed
  ∧ (∃ tbl : bucketMap,
       tables idx_2bit_rehashed !! 1%nat = Some tbl
       ∧ bm_find tbl 1 = Some [3; 5])
  ∧ ∃ f : file,
      save idx_2bit_rehashed = Ok f
      ∧ infixb (ser_bucket (1, [3; 5])) f = false
      ∧ hash idx_2bit data_2bit = Ok idx_2bit_hashed
      ∧ save idx_2bit_hashed = Ok f.
Proof.
  split; [vm_compute; reflexivity|].
  split; [eexists; split; [reflexivity | vm_compute; reflexivity]|].
  eexists. split; [vm_compute; reflexivity|].
  repeat split; vm_compute; reflexivity.
Qed.
(** * Further properties of the hasher *)

Lemma packBits_nonneg bits : 0 ≤ packBits bits.
Proof.
  induction bits as [|b bits IH] using rev_ind; [done|].
  rewrite packBits_snoc. destruct b; simpl; lia.
Qed.

Lemma packBits_testbit (bits : list bool) (i : nat) :
  (i < length bits)%nat →
  Z.testbit (packBits bits) (Z.of_nat i)
  = nth (length bits - 1 - i) bits false.
Proof.
  revert i. induction bits as [|b bits IH] using rev_ind; intros i Hi.
  { simpl in Hi. lia. }
  rewrite packBits_snoc, length_app. cbn [length]. rewrite length_app in Hi.
  cbn [length] in Hi.
  destruct i as [|i].
  - change (Z.of_nat 0) with 0. rewrite Z.testbit_0_r.
    rewrite app_nth2 by lia.
    replace (length bits + 1 - 1 - 0 - length bits)%nat with 0%nat by lia.
    done.
  - rewrite Nat2Z.inj_succ, Z.testbit_succ_r by lia.
    rewrite IH by lia. rewrite app_nth1 by lia. f_equal. lia.
Qed.

(** X1.  On a trained table and a vector of dimension [D], [getHashVal]
    returns the code whose bit [i] (for [i] below the code length and below
    32) is the test [product > 0] on the rotated coordinate [N - 1 - i] that
    [getHashFloats] returns: the first coordinate is the most significant
    bit. *)
Theorem getHashVal_bits_of_getHashFloats (idx : laItqLsh) (k : nat)
    (domin : list float) :
  trainedb idx k = true → vecb idx domin = true →
  ∃ (fs : list float) (code : Z),
    getHashFloats idx k domin = Ok fs
    ∧ length fs = Z.to_nat (Param.N (param idx))
    ∧ getHashVal idx k domin = Ok code
    ∧ 0 ≤ code < 2 ^ 32
    ∧ ∀ i : nat, (i < length fs)%nat → (i < 32)%nat →
        Z.testbit code (Z.of_nat i)
        = flt fzero (nth (length fs - 1 - i) fs fzero).
Proof.
  intros Ht Hv.
  destruct (getHashFloats_Ok idx k domin Ht Hv) as (fs & Efs & Hlen & _ & Ev).
  exists fs, (packProducts fs). split; [exact Efs|]. split; [exact Hlen|].
  split; [exact Ev|]. split; [apply packProducts_bound|].
  intros i Hi Hi32. rewrite packProducts_packBits. unfold wrap32.
  rewrite Z.mod_pow2_bits_low by lia.
  rewrite packBits_testbit by (by rewrite length_map).
  rewrite length_map.
  change false with ((fun p => flt fzero p) fzero). by rewrite map_nth.
Qed.

Lemma getHashVal_bits_of_getHashFloats_witness :
  ∃ (fs : list float) (code : Z),
    getHashFloats idx_2bit 0 [f_one; f_minus_one] = Ok fs
    ∧ length fs = Z.to_nat (Param.N (param idx_2bit))
    ∧ getHashVal idx_2bit 0 [f_one; f_minus_one] = Ok code
    ∧ 0 ≤ code < 2 ^ 32
    ∧ ∀ i : nat, (i < length fs)%nat → (i < 32)%nat →
        Z.testbit code (Z.of_nat i)
        = flt fzero (nth (length fs - 1 - i) fs fzero).
Proof.
  apply (getHashVal_bits_of_getHashFloats idx_2bit 0 [f_one; f_minus_one]);
    reflexivity.
Defined.

(** X2.  When no rotated coordinate of the vector is a zero, the code of
    [getHashVal] is the packing, most significant bit first, of the bits of
    [getHashBits]: the two sign tests ([> 0] and [>= 0]) differ at zero
    only. *)
Theorem getHashVal_is_packed_getHashBits (idx : laItqLsh) (k : nat)
    (domin : list float) :
  trainedb idx k = true → vecb idx domin = true →
  ∃ (fs : list float) (bits : list bool),
    getHashFloats idx k domin = Ok fs
    ∧ getHashBits idx k domin = Ok bits
    ∧ length bits = Z.to_nat (Param.N (param idx))
    ∧ (forallb (fun x => negb (is_fzero x)) fs = true →
       getHashVal idx k domin = Ok (wrap32 (packBits bits))).
Proof.
  intros Ht Hv.
  destruct (getHashFloats_Ok idx k domin Ht Hv) as (fs & Efs & Hlen & Eb & Ev).
  exists fs, (quantization fs). split; [exact Efs|]. split; [exact Eb|].
  split; [unfold quantization; by rewrite length_map|].
  intros Hnz. rewrite Ev, packProducts_packBits. do 3 f_equal.
  unfold quantization. apply map_ext_in. intros x Hx.
  rewrite forallb_forall in Hnz. specialize (Hnz x Hx).
  rewrite (sign_tests_agree x) by (by destruct (is_fzero x)).
  by destruct (fle fzero x).
Qed.

Lemma getHashVal_is_packed_getHashBits_witness :
  ∃ (fs : list float) (bits : list bool),
    getHashFloats idx_2bit 0 [f_one; f_minus_one] = Ok fs
    ∧ getHashBits idx_2bit 0 [f_one; f_minus_one] = Ok bits
    ∧ length bits = Z.to_nat (Param.N (param idx_2bit))
    ∧ (forallb (fun x => negb (is_fzero x)) fs = true →
       getHashVal idx_2bit 0 [f_one; f_minus_one]
       = Ok (wrap32 (packBits bits))).
Proof.
  apply (getHashVal_is_packed_getHashBits idx_2bit 0 [f_one; f_minus_one]);
    reflexivity.
Defined.


(** ** The hasher reads [D] entries of the vector *)

Lemma accumulate_app (vec extra row : list float) (j : nat) (acc : float) :
  (j + length row ≤ length vec)%nat →
  accumulate (vec ++ extra) row j acc = accumulate vec row j acc.
Proof.
  revert j acc. induction row as [|w row IH]; intros j acc Hj; [done|].
  cbn [length] in Hj. cbn [accumulate]. unfold at_.
  rewrite lookup_app_l by lia.
  destruct (vec !! j) as [x|]; [|done].
  rewrite !ret_bind. apply IH. lia.
Qed.

Lemma project_app (vec extra : list float) (pcs : list (list float)) :
  Forall (fun row => (length row ≤ length vec)%nat) pcs →
  project (vec ++ extra) pcs = project vec pcs.
Proof.
  induction 1 as [|row pcs Hrow _ IH]; [done|].
  cbn [project]. rewrite accumulate_app by lia. by rewrite IH.
Qed.

(** X3.  The hasher reads the first [D] entries of the vector it is given
    and nothing behind them: on a trained table, whatever follows a vector
    of dimension [D] in memory changes neither the code, nor the rotated
    coordinates, nor the bits. *)
Theorem hasher_reads_D_entries (idx : laItqLsh) (k : nat)
    (domin extra : list float) :
  trainedb idx k = true → vecb idx domin = true →
  getHashVal idx k (domin ++ extra) = getHashVal idx k domin
  ∧ getHashFloats idx k (domin ++ extra) = getHashFloats idx k domin
  ∧ getHashBits idx k (domin ++ extra) = getHashBits idx k domin.
Proof.
  intros Ht Hv. unfold trainedb in Ht.
  destruct (pcsAll idx !! k) as [pcs|] eqn:Epcs;
    [|by rewrite andb_false_r in Ht].
  destruct (omegasAll idx !! k) as [om|]; [|by rewrite andb_false_r in Ht].
  rewrite !andb_true_iff in Ht. destruct Ht as [_ [Hp _]].
  apply shapeb_spec in Hp as [_ Hrows].
  apply Nat.eqb_eq in Hv.
  assert (Hproj : project (domin ++ extra) pcs = project domin pcs).
  { apply project_app. apply Forall_forall. intros row Hrow.
    apply list_elem_of_lookup in Hrow as [i Hi].
    rewrite (Hrows i row Hi). lia. }
  assert (Ef : getHashFloats idx k (domin ++ extra)
               = getHashFloats idx k domin).
  { unfold getHashFloats. rewrite (proj2 (at_Ok (pcsAll idx) k pcs) Epcs).
    rewrite !ret_bind. by rewrite Hproj. }
  split; [|split; [exact Ef|]].
  - unfold getHashVal. rewrite (proj2 (at_Ok (pcsAll idx) k pcs) Epcs).
    rewrite !ret_bind. by rewrite Hproj.
  - unfold getHashBits. by rewrite Ef.
Qed.

Lemma hasher_reads_D_entries_witness :
  getHashVal idx_2bit 0 ([f_one; f_minus_one] ++ [f_two])
  = getHashVal idx_2bit 0 [f_one; f_minus_one]
  ∧ getHashFloats idx_2bit 0 ([f_one; f_minus_one] ++ [f_two])
    = getHashFloats idx_2bit 0 [f_one; f_minus_one]
  ∧ getHashBits idx_2bit 0 ([f_one; f_minus_one] ++ [f_two])
    = getHashBits idx_2bit 0 [f_one; f_minus_one].
Proof.
  apply (hasher_reads_D_entries idx_2bit 0 [f_one; f_minus_one] [f_two]);
    reflexivity.
Defined.

(** ** The outcomes of the hasher *)

Lemma value_or_undefined_bind {A B : Type} (m : result A)
    (f : A → result B) :
  value_or_undefined m → (∀ a, value_or_undefined (f a)) →
  value_or_undefined (m ≫= f).
Proof. destruct m; simpl; auto. Qed.

Lemma value_or_undefined_at {A : Type} (v : list A) (i : nat) :
  value_or_undefined (at_ v i).
Proof. unfold at_. by destruct (v !! i). Qed.

Lemma value_or_undefined_for {St : Type} (n from : nat)
    (body : nat → St → result St) (s : St) :
  (∀ i s, value_or_undefined (body i s)) →
  value_or_undefined (for_ n from body s).
Proof.
  intros Hb. revert from s. induction n as [|n IH]; intros from s; [done|].
  cbn [for_]. apply value_or_undefined_bind; [apply Hb|]. intros a. apply IH.
Qed.

Lemma value_or_undefined_accumulate (vec row : list float) (j : nat)
    (acc : float) :
  value_or_undefined (accumulate vec row j acc).
Proof.
  revert j acc. induction row as [|w row IH]; intros j acc; [done|].
  cbn [accumulate]. apply value_or_undefined_bind;
    [apply value_or_undefined_at|]. intros a. apply IH.
Qed.

Lemma value_or_undefined_project (domin : list float)
    (pcs : list (list float)) :
  value_or_undefined (project domin pcs).
Proof.
  induction pcs as [|row pcs IH]; [done|].
  cbn [project]. apply value_or_undefined_bind;
    [apply value_or_undefined_accumulate|]. intros x.
  apply value_or_undefined_bind; [exact IH|]. done.
Qed.

Lemma value_or_undefined_rotated idx k domin_pc i :
  value_or_undefined (rotated idx k domin_pc i).
Proof.
  unfold rotated.
  apply value_or_undefined_bind; [apply value_or_undefined_at|]. intros om.
  apply value_or_undefined_bind; [apply value_or_undefined_at|]. intros row.
  apply value_or_undefined_accumulate.
Qed.

Lemma value_or_undefined_getHashFloats idx k domin :
  value_or_undefined (getHashFloats idx k domin).
Proof.
  unfold getHashFloats.
  apply value_or_undefined_bind; [apply value_or_undefined_at|]. intros pcs.
  apply value_or_undefined_bind; [apply value_or_undefined_project|].
  intros dpc. apply value_or_undefined_for. intros i s.
  apply value_or_undefined_bind; [apply value_or_undefined_rotated|]. done.
Qed.

Lemma value_or_undefined_getHashVal idx k domin :
  value_or_undefined (getHashVal idx k domin).
Proof.
  unfold getHashVal.
  apply value_or_undefined_bind; [apply value_or_undefined_at|]. intros pcs.
  apply value_or_undefined_bind; [apply value_or_undefined_project|].
  intros dpc. apply value_or_undefined_for. intros i s.
  apply value_or_undefined_bind; [apply value_or_undefined_rotated|]. done.
Qed.

Lemma value_or_undefined_getHashBits idx k domin :
  value_or_undefined (getHashBits idx k domin).
Proof.
  unfold getHashBits.
  apply value_or_undefined_bind; [apply value_or_undefined_getHashFloats|].
  done.
Qed.

(** ** From the code back to the bits *)

Lemma packBits_bound (bits : list bool) :
  0 ≤ packBits bits < 2 ^ Z.of_nat (length bits).
Proof.
  induction bits as [|b bits IH] using rev_ind; [done|].
  rewrite packBits_snoc, length_app. cbn [length].
  rewrite Nat2Z.inj_add, Z.pow_add_r by lia.
  change (2 ^ Z.of_nat 1) with 2. destruct b; simpl; lia.
Qed.

Lemma codeBits_packBits (bits : list bool) :
  codeBits (length bits) (packBits bits) = bits.
Proof.
  apply list_eq. intros i.
  destruct (decide (i < length bits)%nat) as [Hi|Hi].
  - rewrite codeBits_lookup by done.
    rewrite packBits_testbit by lia.
    replace (length bits - 1 - (length bits - 1 - i))%nat with i by lia.
    destruct (lookup_lt_is_Some_2 bits i Hi) as [b Hb].
    by rewrite Hb, (nth_lookup_Some bits i false b Hb).
  - rewrite !lookup_ge_None_2; [done | lia |].
    rewrite codeBits_length. lia.
Qed.

(** X28.  For a code length [N] of at most 32 bits, [unsignedToBools]
    undoes the packing of [getHashVal]: on the code of a vector it returns
    the [N] bits [product > 0] of the rotated coordinates of the vector,
    first coordinate first. *)
Theorem unsignedToBools_of_getHashVal (idx : laItqLsh) (k : nat)
    (domin : list float) :
  Param.N (param idx) ≤ 32 →
  trainedb idx k = true → vecb idx domin = true →
  ∃ (fs : list float) (code : Z),
    getHashFloats idx k domin = Ok fs
    ∧ getHashVal idx k domin = Ok code
    ∧ unsignedToBools idx code = Ok (map (fun p => flt fzero p) fs).
Proof.
  intros HN Ht Hv.
  destruct (getHashFloats_Ok idx k domin Ht Hv) as (fs & Efs & Hlen & _ & Ev).
  assert (Hn0 : 0 ≤ Param.N (param idx)) by (unfold trainedb in Ht; lia).
  exists fs, (packProducts fs). split; [exact Efs|]. split; [exact Ev|].
  set (bits := map (fun p => flt fzero p) fs).
  assert (Hbl : length bits = Z.to_nat (Param.N (param idx))).
  { unfold bits. by rewrite length_map. }
  pose proof (packBits_bound bits) as Hb. rewrite Hbl in Hb.
  rewrite Z2Nat.id in Hb by lia.
  assert (Hpow : 2 ^ Param.N (param idx) ≤ 2 ^ 32)
    by (apply Z.pow_le_mono_r; lia).
  assert (Ecode : packProducts fs = packBits bits).
  { rewrite packProducts_packBits. fold bits. apply wrap32_small. lia. }
  rewrite Ecode.
  rewrite unsignedToBools_Ok by lia.
  by rewrite <- Hbl, codeBits_packBits.
Qed.

Lemma unsignedToBools_of_getHashVal_witness :
  ∃ (fs : list float) (code : Z),
    getHashFloats idx_2bit 0 [f_one; f_minus_one] = Ok fs
    ∧ getHashVal idx_2bit 0 [f_one; f_minus_one] = Ok code
    ∧ unsignedToBools idx_2bit code = Ok (map (fun p => flt fzero p) fs).
Proof.
  apply (unsignedToBools_of_getHashVal idx_2bit 0 [f_one; f_minus_one]);
    first [reflexivity | simpl; lia].
Defined.
(** * Further properties of the bucket index *)

Lemma insert_unfold idx key domin :
  insert idx key domin
  = for_ (Z.to_nat (Param.L (param idx))) 0 (insert_body key domin) idx.
Proof. reflexivity. Qed.

Lemma insert_body_unfold (key : Z) (domin : list float) (k : nat) idx :
  insert_body key domin k idx
  = (hashVal ← getHashVal idx k domin;
     tbl ← at_ (tables idx) k;
     Ok (set_tables idx (<[k := bm_push_back tbl hashVal key]> (tables idx)))).
Proof. reflexivity. Qed.

Lemma set_tables_id idx : set_tables idx (tables idx) = idx.
Proof. by destruct idx. Qed.

Lemma collect_lookup {B : Type} (g : nat → result B) (n from : nat)
    (ps : list B) :
  collect n from g = Ok ps →
  ∀ (i : nat) (p : B), ps !! i = Some p → g (from + i)%nat = Ok p.
Proof.
  revert from ps. induction n as [|n IH]; intros from ps; cbn [collect].
  - intros [= <-] i p Hi. done.
  - intros E. apply bind_Ok in E as (p0 & Ep0 & E).
    apply bind_Ok in E as (ps0 & Eps0 & E). injection E as <-.
    intros [|i] p Hi.
    + injection Hi as <-. by rewrite Nat.add_0_r.
    + cbn in Hi. rewrite <- Nat.add_succ_comm. by apply (IH _ ps0).
Qed.

Lemma insert_loop idx (key : Z) (v : list float) :
  vecb idx v = true →
  ∀ (n from : nat) (ts : list bucketMap),
    (from + n)%nat = length ts →
    (∀ k, (from ≤ k < from + n)%nat → trainedb idx k = true) →
    ∃ cs, collect n from (fun k => getHashVal idx k v) = Ok cs
          ∧ length cs = n
          ∧ for_ n from (insert_body key v) (set_tables idx ts)
            = Ok (set_tables idx
                    (take from ts ++ pushCodes (drop from ts) cs key)).
Proof.
  intros Hv. induction n as [|n IH]; intros from ts Hlen Ht.
  - exists []. split; [done|]. split; [done|]. cbn [for_]. unfold pushCodes.
    rewrite drop_ge by lia. cbn [zip_with]. rewrite app_nil_r.
    by rewrite take_ge by lia.
  - destruct (getHashFloats_Ok idx from v (Ht from ltac:(lia)) Hv)
      as (fs & _ & _ & _ & Ec).
    destruct (at_lt ts from ltac:(lia)) as [tbl [Eat Htbl]].
    destruct (IH (Datatypes.S from)
                (<[from := bm_push_back tbl (packProducts fs) key]> ts))
      as (cs & Ecs & Hcl & Eloop).
    { rewrite length_insert. lia. }
    { intros k Hk. apply Ht. lia. }
    exists (packProducts fs :: cs). split; [|split].
    + cbn [collect]. by rewrite Ec, ret_bind, Ecs, ret_bind.
    + cbn [length]. lia.
    + cbn [for_]. rewrite insert_body_unfold.
      change (getHashVal (set_tables idx ts) from v)
        with (getHashVal idx from v).
      rewrite Ec, ret_bind.
      change (tables (set_tables idx ts)) with ts.
      rewrite Eat, ret_bind, ret_bind.
      change (set_tables (set_tables idx ts)
                (<[from := bm_push_back tbl (packProducts fs) key]> ts))
        with (set_tables idx
                (<[from := bm_push_back tbl (packProducts fs) key]> ts)).
      rewrite Eloop. do 2 f_equal.
      rewrite (drop_S ts tbl from Htbl). unfold pushCodes. cbn [zip_with].
      rewrite (take_S_r _ from (bm_push_back tbl (packProducts fs) key)).
      2:{ apply list_lookup_insert_eq. lia. }
      rewrite take_insert_ge by lia. rewrite drop_insert_lt by lia.
      by rewrite <- app_assoc.
Qed.

(** [insert] files the item in every table under its code for the table. *)
Lemma insert_pushCodes idx (key : Z) (v : list float) :
  all_trainedb idx = true → vecb idx v = true →
  ∃ cs, tableCodes idx v = Ok cs
        ∧ length cs = length (tables idx)
        ∧ insert idx key v
          = Ok (set_tables idx (pushCodes (tables idx) cs key)).
Proof.
  intros Ht Hv. apply all_trainedb_spec in Ht as [Ht Hlen].
  destruct (insert_loop idx key v Hv (Z.to_nat (Param.L (param idx))) 0
              (tables idx) ltac:(lia)) as (cs & Ecs & Hcl & Eloop).
  { intros k Hk. apply Ht. lia. }
  exists cs. split; [exact Ecs|]. split; [lia|].
  rewrite insert_unfold. rewrite set_tables_id in Eloop.
  rewrite Eloop. by rewrite take_0, drop_0.
Qed.

Lemma tables_wfb_sorted idx (k : nat) (tbl : bucketMap) :
  tables_wfb idx = true → tables idx !! k = Some tbl → bm_sorted tbl.
Proof.
  intros Hwf Hk. unfold tables_wfb in Hwf. rewrite forallb_forall in Hwf.
  assert (Hin : In tbl (tables idx)).
  { apply list_elem_of_In, list_elem_of_lookup. eauto. }
  specialize (Hwf tbl Hin). rewrite !andb_true_iff in Hwf.
  destruct Hwf as [[Hasc _] _]. by apply ascendingb_sorted in Hasc as [? _].
Qed.

(** X5.  [insert] appends the key to one posting list of every table, the
    one of the code [getHashVal] gives the vector for the table (created
    when the code is new), and leaves every other posting list, the
    parameters, the matrices and the number of tables as they are. *)
Theorem insert_appends_to_own_bucket (idx : laItqLsh) (key : Z)
    (domin : list float) :
  all_trainedb idx = true → tables_wfb idx = true →
  vecb idx domin = true →
  ∃ idx' : laItqLsh,
    insert idx key domin = Ok idx'
    ∧ param idx' = param idx ∧ pcsAll idx' = pcsAll idx
    ∧ omegasAll idx' = omegasAll idx
    ∧ length (tables idx') = length (tables idx)
    ∧ ∀ (k : nat) (tbl : bucketMap),
        tables idx !! k = Some tbl →
        ∃ (c : Z) (tbl' : bucketMap),
          getHashVal idx k domin = Ok c
          ∧ tables idx' !! k = Some tbl'
          ∧ bm_sorted tbl'
          ∧ bm_find tbl' c = Some (default [] (bm_find tbl c) ++ [key])
          ∧ ∀ c', c' ≠ c → bm_find tbl' c' = bm_find tbl c'.
Proof.
  intros Ht Hwf Hv.
  destruct (insert_pushCodes idx key domin Ht Hv) as (cs & Ecs & Hcl & Eins).
  apply all_trainedb_spec in Ht as [Ht Hlen].
  exists (set_tables idx (pushCodes (tables idx) cs key)).
  split; [exact Eins|]. do 3 (split; [reflexivity|]).
  split; [cbn [set_tables tables]; by apply pushCodes_length|].
  intros k tbl Hk.
  assert (Hkl : (k < Z.to_nat (Param.L (param idx)))%nat).
  { apply lookup_lt_Some in Hk. lia. }
  destruct (getHashFloats_Ok idx k domin (Ht k Hkl) Hv)
    as (fs & _ & _ & _ & Ec).
  assert (Hc : cs !! k = Some (packProducts fs)).
  { unfold tableCodes in Ecs.
    destruct (lookup_lt_is_Some_2 cs k ltac:(lia)) as [c Hc].
    rewrite Hc. f_equal.
    pose proof (collect_lookup _ _ _ _ Ecs k c Hc) as E.
    rewrite Nat.add_0_l, Ec in E. by injection E. }
  pose proof (tables_wfb_sorted idx k tbl Hwf Hk) as Hs.
  exists (packProducts fs), (bm_push_back tbl (packProducts fs) key).
  split; [exact Ec|]. split.
  { cbn [set_tables tables]. unfold pushCodes.
    by rewrite lookup_zip_with, Hk, Hc. }
  split; [by apply bm_push_back_sorted|].
  split.
  - rewrite bm_find_push_back by done. by rewrite Z.eqb_refl.
  - intros c' Hc'. rewrite bm_find_push_back by done.
    by replace (c' =? packProducts fs) with false by lia.
Qed.

Lemma insert_appends_to_own_bucket_witness :
  ∃ idx' : laItqLsh,
    insert idx_2bit_hashed 6 [f_one; f_one] = Ok idx'
    ∧ param idx' = param idx_2bit_hashed
    ∧ pcsAll idx' = pcsAll idx_2bit_hashed
    ∧ omegasAll idx' = omegasAll idx_2bit_hashed
    ∧ length (tables idx') = length (tables idx_2bit_hashed)
    ∧ ∀ (k : nat) (tbl : bucketMap),
        tables idx_2bit_hashed !! k = Some tbl →
        ∃ (c : Z) (tbl' : bucketMap),
          getHashVal idx_2bit_hashed k [f_one; f_one] = Ok c
          ∧ tables idx' !! k = Some tbl'
          ∧ bm_sorted tbl'
          ∧ bm_find tbl' c = Some (default [] (bm_find tbl c) ++ [6])
          ∧ ∀ c', c' ≠ c → bm_find tbl' c' = bm_find tbl c'.
Proof.
  apply (insert_appends_to_own_bucket idx_2bit_hashed 6 [f_one; f_one]);
    reflexivity.
Defined.

(** ** [hash] *)

Lemma hash_unfold idx data :
  hash idx data = for_ (length data) 0 (hash_body data) idx.
Proof. reflexivity. Qed.

Lemma hash_body_unfold data (i : nat) idx :
  hash_body data i idx
  = (v ← at_ data i; insert idx (wrap32 (Z.of_nat i)) v).
Proof. reflexivity. Qed.

Lemma hash_loop idx (data : list (list float)) :
  all_trainedb idx = true → forallb (vecb idx) data = true →
  ∀ (n from : nat) (ts : list bucketMap),
    (from + n)%nat = length data → length ts = length (tables idx) →
    ∃ codes,
      Forall2 (fun v cs => tableCodes idx v = Ok cs
                           ∧ length cs = length (tables idx))
              (drop from data) codes
      ∧ for_ n from (hash_body data) (set_tables idx ts)
        = Ok (set_tables idx (fold_idx fileItem from codes ts)).
Proof.
  intros Ht Hdata. induction n as [|n IH]; intros from ts Hn Hts.
  - exists []. rewrite drop_ge by lia. split; [constructor | done].
  - destruct (lookup_lt_is_Some_2 data from ltac:(lia)) as [v Hv].
    assert (Hvec : vecb idx v = true).
    { rewrite forallb_forall in Hdata.
      apply Hdata, list_elem_of_In, list_elem_of_lookup. eauto. }
    assert (Ht' : all_trainedb (set_tables idx ts) = true).
    { apply (all_trainedb_same idx); [|done]. repeat split; done. }
    destruct (insert_pushCodes (set_tables idx ts) (wrap32 (Z.of_nat from)) v
                Ht' Hvec) as (cs & Ecs & Hcl & Eins).
    change (tableCodes (set_tables idx ts) v) with (tableCodes idx v) in Ecs.
    change (tables (set_tables idx ts)) with ts in Hcl, Eins.
    change (set_tables (set_tables idx ts)
              (pushCodes ts cs (wrap32 (Z.of_nat from))))
      with (set_tables idx (fileItem from cs ts)) in Eins.
    destruct (IH (Datatypes.S from) (fileItem from cs ts) ltac:(lia))
      as (codes & Hcodes & Eloop).
    { unfold fileItem. rewrite pushCodes_length; lia. }
    exists (cs :: codes). split.
    + rewrite (drop_S data v from Hv). constructor; [|done].
      split; [done | lia].
    + cbn [for_ fold_idx]. rewrite hash_body_unfold.
      rewrite (proj2 (at_Ok data from v) Hv), ret_bind.
      rewrite Eins, ret_bind. exact Eloop.
Qed.

(** X6.  [hash] on a trained index and vectors of dimension [D] returns;
    afterwards the posting list of a code [c] in table [k] is what it was
    before followed by the sequence numbers [i], ascending, of the vectors
    whose code under table [k] is [c]; a code no vector has and no bucket
    had has no bucket. *)
Theorem hash_files_items_by_code (idx : laItqLsh) (data : list (list float)) :
  all_trainedb idx = true → tables_wfb idx = true →
  forallb (vecb idx) data = true →
  ∃ (idx' : laItqLsh) (codes : list (list Z)),
    hash idx data = Ok idx'
    ∧ param idx' = param idx ∧ pcsAll idx' = pcsAll idx
    ∧ omegasAll idx' = omegasAll idx
    ∧ length (tables idx') = length (tables idx)
    ∧ Forall2 (fun v cs =>
                 length cs = length (tables idx)
                 ∧ ∀ (k : nat) (c : Z),
                     cs !! k = Some c → getHashVal idx k v = Ok c)
              data codes
    ∧ ∀ (k : nat) (tbl : bucketMap),
        tables idx !! k = Some tbl →
        ∃ tbl' : bucketMap,
          tables idx' !! k = Some tbl'
          ∧ bm_sorted tbl'
          ∧ ∀ c, bm_find tbl' c
                 = merge_postings (bm_find tbl c) (postingsFrom k 0 codes c).
Proof.
  intros Ht Hwf Hdata.
  destruct (hash_loop idx data Ht Hdata (length data) 0 (tables idx)
              ltac:(lia) eq_refl) as (codes & Hcodes & Eloop).
  rewrite drop_0 in Hcodes. rewrite set_tables_id in Eloop.
  assert (Hlens : Forall (fun cs => length cs = length (tables idx)) codes).
  { clear -Hcodes. induction Hcodes as [|v cs data codes [_ Hl] _ IH];
      constructor; done. }
  exists (set_tables idx (fold_idx fileItem 0 codes (tables idx))), codes.
  split; [by rewrite hash_unfold|]. do 3 (split; [reflexivity|]).
  split; [cbn [set_tables tables]; by apply fileItem_fold_length|].
  split.
  { eapply Forall2_impl; [exact Hcodes|]. cbn beta.
    intros v cs [Ecs Hl]. split; [exact Hl|]. intros k c Hk.
    unfold tableCodes in Ecs.
    pose proof (collect_lookup _ _ _ _ Ecs k c Hk) as E.
    by rewrite Nat.add_0_l in E. }
  intros k tbl Hk. cbn [set_tables tables].
  rewrite (fileItem_fold_lookup codes 0 (tables idx) k tbl Hlens Hk).
  eexists. split; [reflexivity|].
  apply push_fold_find. by apply (tables_wfb_sorted idx k).
Qed.

Lemma hash_files_items_by_code_witness :
  ∃ (idx' : laItqLsh) (codes : list (list Z)),
    hash idx_2bit data_2bit = Ok idx'
    ∧ param idx' = param idx_2bit ∧ pcsAll idx' = pcsAll idx_2bit
    ∧ omegasAll idx' = omegasAll idx_2bit
    ∧ length (tables idx') = length (tables idx_2bit)
    ∧ Forall2 (fun v cs =>
                 length cs = length (tables idx_2bit)
                 ∧ ∀ (k : nat) (c : Z),
                     cs !! k = Some c → getHashVal idx_2bit k v = Ok c)
              data_2bit codes
    ∧ ∀ (k : nat) (tbl : bucketMap),
        tables idx_2bit !! k = Some tbl →
        ∃ tbl' : bucketMap,
          tables idx' !! k = Some tbl'
          ∧ bm_sorted tbl'
          ∧ ∀ c, bm_find tbl' c
                 = merge_postings (bm_find tbl c) (postingsFrom k 0 codes c).
Proof.
  apply (hash_files_items_by_code idx_2bit data_2bit); reflexivity.
Defined.
(** * Further properties of the query strategies *)

Lemma query_unfold idx domin sc :
  Param.L (param idx) = 1 →
  query idx domin sc
  = (sc' ← (hashVal ← getHashVal idx 0 domin;
            probe idx 0 hashVal (sc_reset domin sc));
     Ok (sc_genTopk sc')).
Proof.
  intros HL. unfold query. rewrite HL.
  cbn [Z.eqb Pos.eqb assert_ mbind result_bind].
  change (Z.to_nat 1) with 1%nat. by rewrite for_one.
Qed.

Lemma query_Ok idx domin sc (c : Z) (tbl : bucketMap) :
  Param.L (param idx) = 1 →
  getHashVal idx 0 domin = Ok c → tables idx !! 0%nat = Some tbl →
  query idx domin sc
  = Ok (mkScanner domin [(0%nat, c)] (default [] (bm_find tbl c)) true).
Proof.
  intros HL Ec Htbl. rewrite (query_unfold idx domin sc HL).
  rewrite Ec, ret_bind. rewrite (probe_Ok idx 0 c _ tbl HL Htbl), ret_bind.
  reflexivity.
Qed.

(** X7.  [query] on a one-table trained index probes exactly one bucket,
    the one of the code of the query, passes its posting list to the scanner
    in stored order (nothing when the code has no bucket), and generates the
    top-k; what the scanner held before is dropped by the reset. *)
Theorem query_probes_own_bucket (idx : laItqLsh) (domin : list float)
    (sc : Scanner) :
  Param.L (param idx) = 1 → all_trainedb idx = true →
  vecb idx domin = true →
  ∃ (c : Z) (tbl : bucketMap),
    getHashVal idx 0 domin = Ok c
    ∧ tables idx !! 0%nat = Some tbl
    ∧ query idx domin sc
      = Ok (mkScanner domin [(0%nat, c)] (default [] (bm_find tbl c)) true).
Proof.
  intros HL Ht Hv. apply all_trainedb_spec in Ht as [Ht Hlen].
  rewrite HL in Ht, Hlen.
  destruct (getHashFloats_Ok idx 0 domin (Ht 0%nat ltac:(lia)) Hv)
    as (fs & _ & _ & _ & Ec).
  destruct (lookup_lt_is_Some_2 (tables idx) 0 ltac:(lia)) as [tbl Htbl].
  exists (packProducts fs), tbl. split; [exact Ec|]. split; [exact Htbl|].
  by apply query_Ok.
Qed.

Lemma query_probes_own_bucket_witness :
  ∃ (c : Z) (tbl : bucketMap),
    getHashVal idx_2bit_hashed 0 [f_one; f_minus_one] = Ok c
    ∧ tables idx_2bit_hashed !! 0%nat = Some tbl
    ∧ query idx_2bit_hashed [f_one; f_minus_one] sc_init
      = Ok (mkScanner [f_one; f_minus_one] [(0%nat, c)]
              (default [] (bm_find tbl c)) true).
Proof.
  apply (query_probes_own_bucket idx_2bit_hashed [f_one; f_minus_one]
           sc_init); reflexivity.
Defined.

(** ** [hash], then [query] *)

Lemma postingsFrom_matching (k : nat) (c : Z) (f : list float → bool) :
  ∀ (data : list (list float)) (codes : list (list Z)) (from : nat),
    Forall2 (fun v cs => (nth k cs 0 =? c) = f v) data codes →
    postingsFrom k from codes c
    = map (fun i => wrap32 (Z.of_nat i))
        (List.filter (fun i => f (nth (i - from) data []))
           (seq from (length data))).
Proof.
  intros data codes from H. revert from.
  induction H as [|v cs data codes Hv _ IH]; intros from; [done|].
  cbn [postingsFrom length seq List.filter].
  rewrite Hv, (IH (Datatypes.S from)).
  assert (E : List.filter (fun i => f (nth (i - from) (v :: data) []))
                (seq (Datatypes.S from) (length data))
              = List.filter (fun i => f (nth (i - Datatypes.S from) data []))
                  (seq (Datatypes.S from) (length data))).
  { apply filter_ext_in. intros i Hi. apply in_seq in Hi.
    replace (i - from)%nat with (Datatypes.S (i - Datatypes.S from)) by lia.
    done. }
  rewrite E, Nat.sub_diag. cbn [nth]. by destruct (f v).
Qed.

(** X8.  After [hash] of a data set into the empty table of a one-table
    trained index, [query] passes to the scanner exactly the sequence
    numbers of the vectors of the data set that have the code of the query,
    in ascending order. *)
Theorem query_after_hash_scans_same_code (idx : laItqLsh)
    (data : list (list float)) (domin : list float) (sc : Scanner) :
  Param.L (param idx) = 1 → tables idx = [[]] →
  all_trainedb idx = true → forallb (vecb idx) data = true →
  vecb idx domin = true →
  ∃ (idx' : laItqLsh) (c : Z) (sc' : Scanner),
    hash idx data = Ok idx'
    ∧ getHashVal idx 0 domin = Ok c
    ∧ query idx' domin sc = Ok sc'
    ∧ sc_probed sc' = [(0%nat, c)]
    ∧ sc_scanned sc' = ids_with_code idx 0 c data.
Proof.
  intros HL Hts Ht Hdata Hv.
  destruct (hash_loop idx data Ht Hdata (length data) 0 (tables idx)
              ltac:(lia) eq_refl) as (codes & Hcodes & Eloop).
  rewrite drop_0 in Hcodes. rewrite set_tables_id in Eloop.
  assert (Hlens : Forall (fun cs => length cs = length (tables idx)) codes).
  { clear -Hcodes. induction Hcodes as [|v cs data codes [_ Hl] _ IH];
      constructor; done. }
  apply all_trainedb_spec in Ht as [Ht Hlen]. rewrite HL in Ht.
  destruct (getHashFloats_Ok idx 0 domin (Ht 0%nat ltac:(lia)) Hv)
    as (fs & _ & _ & _ & Ec).
  set (c := packProducts fs) in *.
  set (idx' := set_tables idx (fold_idx fileItem 0 codes (tables idx))).
  assert (Htbl : tables idx' !! 0%nat
                 = Some (fold_idx
                           (fun i cs m =>
                              bm_push_back m (nth 0 cs 0) (wrap32 (Z.of_nat i)))
                           0 codes [])).
  { unfold idx'. cbn [set_tables tables].
    apply (fileItem_fold_lookup codes 0 (tables idx) 0 [] Hlens).
    by rewrite Hts. }
  exists idx', c, (mkScanner domin [(0%nat, c)]
                     (ids_with_code idx 0 c data) true).
  split; [by rewrite hash_unfold|]. split; [exact Ec|].
  split; [|done].
  rewrite (query_Ok idx' domin sc c _ HL Ec Htbl). do 2 f_equal.
  destruct (push_fold_find 0 codes 0 []) as [_ Hfind]; [constructor|].
  rewrite Hfind. cbn [bm_find].
  assert (Hd : default [] (merge_postings None (postingsFrom 0 0 codes c))
               = postingsFrom 0 0 codes c).
  { unfold merge_postings. by destruct (postingsFrom 0 0 codes c). }
  rewrite Hd. unfold ids_with_code.
  rewrite (postingsFrom_matching 0 c (has_code idx 0 c) data codes 0).
  - f_equal. apply filter_ext_in. intros i _. by rewrite Nat.sub_0_r.
  - eapply Forall2_impl; [exact Hcodes|]. cbn beta. intros v cs [Ecs Hl].
    rewrite Hts in Hl. cbn [length] in Hl.
    destruct cs as [|c0 [|? ?]]; try discriminate.
    unfold tableCodes in Ecs.
    pose proof (collect_lookup _ _ _ _ Ecs 0 c0 eq_refl) as E.
    rewrite Nat.add_0_l in E. unfold has_code. by rewrite E.
Qed.

Lemma query_after_hash_scans_same_code_witness :
  ∃ (idx' : laItqLsh) (c : Z) (sc' : Scanner),
    hash idx_2bit data_2bit = Ok idx'
    ∧ getHashVal idx_2bit 0 [f_one; f_one] = Ok c
    ∧ query idx' [f_one; f_one] sc_init = Ok sc'
    ∧ sc_probed sc' = [(0%nat, c)]
    ∧ sc_scanned sc' = ids_with_code idx_2bit 0 c data_2bit.
Proof.
  apply (query_after_hash_scans_same_code idx_2bit data_2bit [f_one; f_one]
           sc_init); reflexivity.
Defined.

(** ** The guard on [L] *)

(** X9.  [probe], [queryRehash] and [getBuckets] fail their assertion
    whenever the parameter [L] is not 1, whatever the tables hold. *)
Theorem probe_queryRehash_getBuckets_assert_L (idx : laItqLsh) (t : nat)
    (bucketId : Z) (domin : list float) (sc : Scanner) :
  Param.L (param idx) ≠ 1 →
  probe idx t bucketId sc = AssertFail
  ∧ queryRehash idx domin sc = AssertFail
  ∧ getBuckets idx = AssertFail.
Proof.
  intros HL. unfold probe, queryRehash, getBuckets.
  replace (Param.L (param idx) =? 1) with false by lia. done.
Qed.

Lemma probe_queryRehash_getBuckets_assert_L_witness :
  probe idx_two_tables 0 3 sc_init = AssertFail
  ∧ queryRehash idx_two_tables [f_one; f_one] sc_init = AssertFail
  ∧ getBuckets idx_two_tables = AssertFail.
Proof.
  apply (probe_queryRehash_getBuckets_assert_L idx_two_tables 0 3
           [f_one; f_one] sc_init). discriminate.
Defined.

(** ** [queryRehash] *)

Lemma queryRehash_loop idx (c : Z) :
  Param.L (param idx) = 1 →
  ∀ (n from : nat) (sc : Scanner),
    (from + n)%nat = length (tables idx) →
    for_ n from (fun k sc => probe idx k c sc) sc
    = Ok (mkScanner (sc_query sc)
            (sc_probed sc ++ map (fun k => (k, c)) (seq from n))
            (sc_scanned sc
             ++ concat (map (fun tbl : bucketMap => default [] (bm_find tbl c))
                          (drop from (tables idx))))
            (sc_topk sc)).
Proof.
  intros HL. induction n as [|n IH]; intros from sc Hn.
  - cbn [for_ seq map]. rewrite drop_ge by lia. cbn [map concat].
    rewrite !app_nil_r. by destruct sc.
  - destruct (lookup_lt_is_Some_2 (tables idx) from ltac:(lia)) as [tbl Htbl].
    cbn [for_]. rewrite (probe_Ok idx from c sc tbl HL Htbl), ret_bind.
    rewrite IH by lia. cbn [sc_query sc_probed sc_scanned sc_topk].
    rewrite (drop_S (tables idx) tbl from Htbl). cbn [seq map concat].
    by rewrite <- !app_assoc.
Qed.

(** X10.  [queryRehash] on an index whose parameter [L] is 1 probes the
    code of the query in every table the index holds, in the order of the
    tables, and passes to the scanner the posting lists found, table after
    table; a table that has no bucket of the code adds nothing. *)
Theorem queryRehash_probes_every_table (idx : laItqLsh)
    (domin : list float) (sc : Scanner) :
  Param.L (param idx) = 1 → trainedb idx 0 = true →
  vecb idx domin = true →
  ∃ c : Z,
    getHashVal idx 0 domin = Ok c
    ∧ queryRehash idx domin sc
      = Ok (mkScanner domin
              (map (fun k => (k, c)) (seq 0 (length (tables idx))))
              (concat (map (fun tbl : bucketMap => default [] (bm_find tbl c))
                         (tables idx)))
              true).
Proof.
  intros HL Ht Hv.
  destruct (getHashFloats_Ok idx 0 domin Ht Hv) as (fs & _ & _ & _ & Ec).
  exists (packProducts fs). split; [exact Ec|].
  unfold queryRehash. rewrite HL. cbn [Z.eqb Pos.eqb assert_].
  rewrite ret_bind, Ec, ret_bind.
  rewrite (queryRehash_loop idx (packProducts fs) HL) by lia.
  rewrite ret_bind. by rewrite drop_0.
Qed.

Lemma queryRehash_probes_every_table_witness :
  ∃ c : Z,
    getHashVal idx_2bit_rehashed 0 [f_one; f_minus_one] = Ok c
    ∧ queryRehash idx_2bit_rehashed [f_one; f_minus_one] sc_init
      = Ok (mkScanner [f_one; f_minus_one]
              (map (fun k => (k, c))
                 (seq 0 (length (tables idx_2bit_rehashed))))
              (concat (map (fun tbl : bucketMap => default [] (bm_find tbl c))
                         (tables idx_2bit_rehashed)))
              true).
Proof.
  apply (queryRehash_probes_every_table idx_2bit_rehashed
           [f_one; f_minus_one] sc_init); reflexivity.
Defined.

(** ** [queryByLoss] *)

Lemma queryByLoss_unfold `{ProbingGen} idx domin sc maxNumBuckets
    (withMeanAndSTD : bool) :
  Param.L (param idx) = 1 →
  queryByLoss idx domin sc maxNumBuckets withMeanAndSTD
  = (sc' ← (hashVal ← getHashVal idx 0 domin;
            hashBits ← getHashBits idx 0 domin;
            hashFloats ← getHashFloats idx 0 domin;
            _ ← assert_ (Z.of_nat (length hashBits) =? Param.N (param idx));
            _ ← assert_ (Z.of_nat (length hashFloats) =? Param.N (param idx));
            sc ← probe idx 0 hashVal (sc_reset domin sc);
            '(_, _, sc) ← while_ (Z.to_nat maxNumBuckets)
              (qbl_cond maxNumBuckets) (qbl_body idx)
              (1, Probing_new hashBits hashFloats false, sc);
            Ok sc);
     Ok (sc_genTopk sc')).
Proof.
  intros HL. unfold queryByLoss. rewrite HL.
  cbn [Z.eqb Pos.eqb assert_]. rewrite ret_bind.
  change (Z.to_nat 1) with 1%nat. by rewrite for_one.
Qed.

Lemma qbl_body_unfold `{ProbingGen} idx (numBk : Z) (pro : Probing)
    (sc : Scanner) :
  qbl_body idx (numBk, pro, sc)
  = (sc' ← probe idx 0 (fst (Probing_pop pro)) sc;
     Ok (numBk + 1, snd (Probing_pop pro), sc')).
Proof. unfold qbl_body. by destruct (Probing_pop pro). Qed.

Lemma qbl_loop `{ProbingGen} idx (tbl : bucketMap) (maxNumBuckets : Z) :
  Param.L (param idx) = 1 → tables idx !! 0%nat = Some tbl →
  ∀ (fuel : nat) (numBk : Z) (pro : Probing) (sc : Scanner),
    (Z.to_nat (maxNumBuckets - numBk) ≤ fuel)%nat →
    ∃ (numBk' : Z) (pro' : Probing),
      while_ fuel (qbl_cond maxNumBuckets) (qbl_body idx) (numBk, pro, sc)
      = Ok (numBk', pro',
            mkScanner (sc_query sc)
              (sc_probed sc
               ++ map (pair 0%nat)
                    (fst (pops (Z.to_nat (maxNumBuckets - numBk)) pro)))
              (sc_scanned sc
               ++ concat (map (fun b => default [] (bm_find tbl b))
                    (fst (pops (Z.to_nat (maxNumBuckets - numBk)) pro))))
              (sc_topk sc)).
Proof.
  intros HL Htbl. induction fuel as [|fuel IH]; intros numBk pro sc Hfuel;
    rewrite while_unfold; cbn [qbl_cond]; rewrite ret_bind;
    destruct (numBk <? maxNumBuckets) eqn:Ec.
  - lia.
  - exists numBk, pro.
    replace (Z.to_nat (maxNumBuckets - numBk)) with 0%nat by lia.
    cbn [pops fst map concat]. rewrite !app_nil_r. by destruct sc.
  - rewrite qbl_body_unfold.
    rewrite (probe_Ok idx 0 _ sc tbl HL Htbl), !ret_bind.
    destruct (IH (numBk + 1) (snd (Probing_pop pro))
                (mkScanner (sc_query sc)
                   (sc_probed sc ++ [(0%nat, fst (Probing_pop pro))])
                   (sc_scanned sc
                    ++ default [] (bm_find tbl (fst (Probing_pop pro))))
                   (sc_topk sc)) ltac:(lia)) as (numBk' & pro' & E).
    exists numBk', pro'. rewrite E.
    cbn [sc_query sc_probed sc_scanned sc_topk].
    replace (Z.to_nat (maxNumBuckets - numBk))
      with (Datatypes.S (Z.to_nat (maxNumBuckets - (numBk + 1)))) by lia.
    rewrite pops_succ. cbn [fst map concat].
    by rewrite <- !app_assoc.
  - exists numBk, pro.
    replace (Z.to_nat (maxNumBuckets - numBk)) with 0%nat by lia.
    cbn [pops fst map concat]. rewrite !app_nil_r. by destruct sc.
Qed.

(** X11.  [queryByLoss] on a one-table trained index probes the bucket of
    the code of the query first, whatever the budget, and then the first
    [maxNumBuckets - 1] codes the generator yields, in the order it yields
    them, all in table 0; the scanner is passed the posting lists of these
    buckets in that order.  With a budget of zero or less one bucket is
    probed all the same. *)
Theorem queryByLoss_probe_sequence `{ProbingGen} (idx : laItqLsh)
    (domin : list float) (sc : Scanner) (maxNumBuckets : Z)
    (withMeanAndSTD : bool) :
  Param.L (param idx) = 1 → all_trainedb idx = true →
  vecb idx domin = true →
  ∃ (c : Z) (fs : list float) (tbl : bucketMap) (codes : list Z),
    getHashVal idx 0 domin = Ok c
    ∧ getHashFloats idx 0 domin = Ok fs
    ∧ tables idx !! 0%nat = Some tbl
    ∧ codes = c :: fst (pops (Z.to_nat (maxNumBuckets - 1))
                          (Probing_new (quantization fs) fs false))
    ∧ length codes = Z.to_nat (Z.max 1 maxNumBuckets)
    ∧ queryByLoss idx domin sc maxNumBuckets withMeanAndSTD
      = Ok (mkScanner domin (map (pair 0%nat) codes)
              (concat (map (fun b => default [] (bm_find tbl b)) codes))
              true).
Proof.
  intros HL Ht Hv. apply all_trainedb_spec in Ht as [Ht Hlen].
  rewrite HL in Ht, Hlen. specialize (Ht 0%nat ltac:(lia)).
  destruct (getHashFloats_Ok idx 0 domin Ht Hv) as (fs & Ef & Hfl & Eb & Ec).
  destruct (lookup_lt_is_Some_2 (tables idx) 0 ltac:(lia)) as [tbl Htbl].
  assert (Hn0 : 0 ≤ Param.N (param idx)) by (unfold trainedb in Ht; lia).
  eexists (packProducts fs), fs, tbl, _.
  split; [exact Ec|]. split; [exact Ef|]. split; [exact Htbl|].
  split; [reflexivity|]. split.
  { cbn [length]. rewrite pops_length. lia. }
  rewrite (queryByLoss_unfold idx domin sc maxNumBuckets withMeanAndSTD HL).
  rewrite Ec, ret_bind, Eb, ret_bind, Ef, ret_bind.
  assert (Hql : length (quantization fs) = Z.to_nat (Param.N (param idx))).
  { unfold quantization. by rewrite length_map. }
  rewrite Hql, Hfl. rewrite Z2Nat.id by lia. rewrite Z.eqb_refl.
  cbn [assert_]. rewrite !ret_bind.
  rewrite (probe_Ok idx 0 _ _ tbl HL Htbl), ret_bind.
  destruct (qbl_loop idx tbl maxNumBuckets HL Htbl (Z.to_nat maxNumBuckets) 1
              (Probing_new (quantization fs) fs false)
              (mkScanner (sc_query (sc_reset domin sc))
                 (sc_probed (sc_reset domin sc) ++ [(0%nat, packProducts fs)])
                 (sc_scanned (sc_reset domin sc)
                  ++ default [] (bm_find tbl (packProducts fs)))
                 (sc_topk (sc_reset domin sc))) ltac:(lia))
    as (numBk' & pro' & E).
  rewrite E, !ret_bind. cbn [sc_reset sc_genTopk sc_query sc_probed
                               sc_scanned sc_topk app map concat].
  reflexivity.
Qed.

Lemma queryByLoss_probe_sequence_witness :
  ∃ (c : Z) (fs : list float) (tbl : bucketMap) (codes : list Z),
    getHashVal idx_2bit_hashed 0 [f_one; f_minus_one] = Ok c
    ∧ getHashFloats idx_2bit_hashed 0 [f_one; f_minus_one] = Ok fs
    ∧ tables idx_2bit_hashed !! 0%nat = Some tbl
    ∧ codes = c :: fst (pops (Z.to_nat (0 - 1))
                          (@Probing_new (specProbing normalize_x4)
                             (quantization fs) fs false))
    ∧ length codes = Z.to_nat (Z.max 1 0)
    ∧ @queryByLoss (specProbing normalize_x4) idx_2bit_hashed
        [f_one; f_minus_one] sc_init 0 true
      = Ok (mkScanner [f_one; f_minus_one] (map (pair 0%nat) codes)
              (concat (map (fun b => default [] (bm_find tbl b)) codes))
              true).
Proof.
  apply (@queryByLoss_probe_sequence (specProbing normalize_x4)
           idx_2bit_hashed [f_one; f_minus_one] sc_init 0 true); reflexivity.
Defined.

(** ** [queryRanking] without a budget *)



(** ** The scanner sees the probed buckets, and nothing else *)

Lemma for_preserves {St : Type} (P : St → Prop) (n from : nat)
    (body : nat → St → result St) (s s' : St) :
  (∀ i s s', P s → body i s = Ok s' → P s') →
  P s → for_ n from body s = Ok s' → P s'.
Proof.
  intros Hb. revert from s. induction n as [|n IH]; intros from s Hs E.
  - cbn [for_] in E. by injection E as <-.
  - cbn [for_] in E. apply bind_Ok in E as (s1 & E1 & E).
    apply (IH (Datatypes.S from) s1); [|exact E]. by apply (Hb from s).
Qed.

Lemma while_preserves {St : Type} (P : St → Prop) (fuel : nat)
    (cond : St → result bool) (body : St → result St) (s s' : St) :
  (∀ s s', P s → body s = Ok s' → P s') →
  P s → while_ fuel cond body s = Ok s' → P s'.
Proof.
  intros Hb. revert s. induction fuel as [|fuel IH]; intros s Hs E;
    rewrite while_unfold in E; apply bind_Ok in E as (c & _ & E);
    destruct c; try discriminate; try (by injection E as <-).
  apply bind_Ok in E as (s1 & E1 & E).
  apply (IH s1); [|exact E]. by apply (Hb s).
Qed.











(** ** [queryRanking] with a budget that covers the table *)








(** ** The bit count of [queryRanking] *)

Lemma hammingDist_zero (a b : Z) :
  0 ≤ a < 2 ^ 32 → 0 ≤ b < 2 ^ 32 → (hammingDist a b = 0 ↔ a = b).
Proof.
  intros Ha Hb. rewrite <- hammingDist_popcount by lia.
  pose proof (lxor_range a b 32 ltac:(lia) Ha Hb) as Hx.
  split.
  - intros H0. apply Z.lxor_eq.
    destruct (decide (Z.lxor a b = 0)) as [E|Hne]; [exact E|].
    pose proof (popcount_pos 32 (Z.lxor a b) ltac:(lia)). lia.
  - intros ->. rewrite Z.lxor_nilpotent. apply popcount_0.
Qed.

(** X25.  On the exclusive or of two [unsigned] codes, the loop
    [while (xorVal != 0) { hamDist++; xorVal &= xorVal - 1; }] ends within 32
    iterations and leaves in [hamDist] the number of bit positions at which
    the codes differ; it is zero for equal codes only. *)
Theorem countBits_is_hamming_distance (a b : Z) :
  0 ≤ a < 2 ^ 32 → 0 ≤ b < 2 ^ 32 →
  countBits (Z.lxor a b) = Ok (hammingDist a b)
  ∧ 0 ≤ hammingDist a b ≤ 32
  ∧ (hammingDist a b = 0 ↔ a = b).
Proof.
  intros Ha Hb. split; [|split].
  - rewrite countBits_popcount by (apply lxor_range; lia).
    by rewrite hammingDist_popcount by lia.
  - apply hammingDist_le; lia.
  - by apply hammingDist_zero.
Qed.

Lemma countBits_is_hamming_distance_witness :
  countBits (Z.lxor 5 3) = Ok (hammingDist 5 3)
  ∧ 0 ≤ hammingDist 5 3 ≤ 32
  ∧ (hammingDist 5 3 = 0 ↔ 5 = 3).
Proof.
  apply (countBits_is_hamming_distance 5 3); lia.
Defined.

(** ** The bucket of the query comes first *)






(** ** The loss of a bucket *)

Lemma filter_all_false {A : Type} (f : A → bool) (l : list A) :
  (∀ x, In x l → f x = false) → List.filter f l = [].
Proof.
  induction l as [|x l IH]; intros H; [done|].
  cbn [List.filter]. rewrite (H x (or_introl eq_refl)). apply IH.
  intros y Hy. apply H. by right.
Qed.

(** X27.  The loss [queryRankingByLoss] gives a bucket, computed on bit
    vectors at least as long as the bits of the query, is the sum of the
    magnitudes of the projections at the positions where the bits differ:
    it is [+0] for the bits of the query itself, and it is zero or positive,
    never a NaN, when no projection is a NaN. *)
Theorem bucketLoss_zero_or_positive (queryBits : list bool)
    (queryFloats : list float) (bucketBits : list bool) :
  (length queryBits ≤ length bucketBits)%nat →
  (length queryBits ≤ length queryFloats)%nat →
  bucketLoss queryBits queryFloats bucketBits
  = Ok (lossSum queryBits queryFloats bucketBits)
  ∧ bucketLoss queryBits queryFloats queryBits = Ok fzero
  ∧ (forallb (fun x => negb (is_nan x)) queryFloats = true →
     fnonneg (lossSum queryBits queryFloats bucketBits) = true).
Proof.
  intros Hb Hf. split; [by apply bucketLoss_lossSum|]. split.
  - rewrite bucketLoss_lossSum by lia. f_equal. unfold lossSum.
    rewrite filter_all_false; [done|].
    intros i _. by destruct (nth i queryBits false).
  - apply lossSum_nonneg.
Qed.

Lemma bucketLoss_zero_or_positive_witness :
  bucketLoss [true; false] [f_one; f_minus_one] [false; false]
  = Ok (lossSum [true; false] [f_one; f_minus_one] [false; false])
  ∧ bucketLoss [true; false] [f_one; f_minus_one] [true; false] = Ok fzero
  ∧ (forallb (fun x => negb (is_nan x)) [f_one; f_minus_one] = true →
     fnonneg (lossSum [true; false] [f_one; f_minus_one] [false; false])
     = true).
Proof.
  apply (bucketLoss_zero_or_positive [true; false] [f_one; f_minus_one]
           [false; false]); simpl; lia.
Defined.
(** * Further properties of the codec *)




(** ** [save] on a table that is not trained *)

Lemma undefined_bind {A B : Type} (m : result A) (f : A → result B) :
  value_or_undefined m → (∀ a, f a = Undefined) → m ≫= f = Undefined.
Proof. destruct m; simpl; auto; done. Qed.

Lemma value_or_undefined_read_n {A : Type} (v : list A) (n : nat) :
  value_or_undefined (read_n v n).
Proof. unfold read_n. by destruct (n <=? length v)%nat. Qed.

Lemma value_or_undefined_foreach {A St : Type} (l : list A)
    (body : A → St → result St) (s : St) :
  (∀ x s, value_or_undefined (body x s)) →
  value_or_undefined (foreach_ l body s).
Proof.
  intros Hb. revert s. induction l as [|x l IH]; intros s; [done|].
  cbn [foreach_]. apply value_or_undefined_bind; [apply Hb|]. intros a.
  apply IH.
Qed.

(** X15.  [save] checks nothing: on an index with [L >= 1] and [N >= 1]
    whose table 0 has no projection row, as [reset] leaves it before
    [train], it reads outside of the matrix (undefined behaviour), whatever
    the tables hold. *)
Theorem save_untrained_undefined (idx : laItqLsh) :
  (1 ≤ Z.to_nat (Param.L (param idx)))%nat →
  (1 ≤ Z.to_nat (Param.N (param idx)))%nat →
  pcsAll idx !! 0%nat = Some [] →
  save idx = Undefined.
Proof.
  intros HL HN Hp. rewrite save_unfold.
  destruct (Z.to_nat (Param.L (param idx))) as [|l] eqn:El; [lia|].
  assert (E : ∀ out, save_table idx 0 out = Undefined).
  { intros out. rewrite save_table_unfold.
    apply undefined_bind; [apply value_or_undefined_at|]. intros rnd.
    apply undefined_bind; [apply value_or_undefined_read_n|]. intros rnd'.
    apply undefined_bind; [apply value_or_undefined_at|]. intros tbl.
    apply undefined_bind.
    { apply value_or_undefined_foreach. intros [target items] s.
      unfold save_bucket.
      apply value_or_undefined_bind; [apply value_or_undefined_read_n|].
      done. }
    intros out'.
    destruct (Z.to_nat (Param.N (param idx))) as [|n]; [lia|].
    cbn [for_]. rewrite save_row_unfold.
    rewrite (proj2 (at_Ok (pcsAll idx) 0 []) Hp), ret_bind. reflexivity. }
  cbn [for_]. by rewrite E.
Qed.

Lemma save_untrained_undefined_witness :
  save (mkIndex (Param.mk 521 1 2 2 4 10) [[]] [[]] [[7; 9]] [[]] [])
  = Undefined.
Proof.
  apply (save_untrained_undefined
           (mkIndex (Param.mk 521 1 2 2 4 10) [[]] [[]] [[7; 9]] [[]] []));
    first [reflexivity | vm_compute; lia].
Defined.
(** * Further properties of [rehash] *)

(** X16.  [rehash] to a number of tables other than 1 drops every bucket
    before it files the items again: on an empty data set it leaves that
    many empty tables; and with zero tables and a data set that is not
    empty it writes to a table that is not there (undefined behaviour). *)
Theorem rehash_clears_tables `{ProbingGen} (idx : laItqLsh)
    (numTables : Z) :
  numTables ≠ 1 → 0 ≤ numTables →
  rehash idx [] numTables
  = Ok (set_tables idx (replicate (Z.to_nat numTables) []))
  ∧ ∀ (v : list float) (data : list (list float)),
      rehash idx (v :: data) 0 = Undefined.
Proof.
  intros H1 H0. split.
  - rewrite rehash_unfold.
    replace (numTables =? 1) with false by lia.
    by replace (numTables <? 0) with false by lia.
  - intros v data. rewrite rehash_unfold.
    change (0 =? 1) with false. change (0 <? 0) with false. cbv iota.
    cbn [length for_].
    match goal with
    | |- mbind _ ?m = _ => assert (E : m = Undefined)
    end.
    { rewrite rehash_body_unfold.
      change (at_ (v :: data) 0) with (Ok v : result (list float)).
      rewrite ret_bind.
      apply undefined_bind; [apply value_or_undefined_getHashVal|]. intros c.
      apply undefined_bind; [apply value_or_undefined_getHashBits|].
      intros bits.
      apply undefined_bind; [apply value_or_undefined_getHashFloats|].
      intros fs. reflexivity. }
    rewrite E. reflexivity.
Qed.

Lemma rehash_clears_tables_witness :
  @rehash (specProbing normalize_x4) idx_2bit_hashed [] 3
  = Ok (set_tables idx_2bit_hashed (replicate (Z.to_nat 3) []))
  ∧ ∀ (v : list float) (data : list (list float)),
      @rehash (specProbing normalize_x4) idx_2bit_hashed (v :: data) 0
      = Undefined.
Proof.
  apply (@rehash_clears_tables (specProbing normalize_x4) idx_2bit_hashed 3);
    lia.
Defined.

(** ** [rehash], then [queryRehash] *)

Lemma default_merge_postings_None (l : list Z) :
  default [] (merge_postings None l) = l.
Proof. unfold merge_postings. by destruct l. Qed.

(** X17.  After [rehash] of a data set into [T > 1] tables, [queryRehash]
    probes the code of the query in the tables [0 .. T-1] and passes to the
    scanner, table after table, the sequence numbers (ascending) of the
    items filed in the table under that code: for table 0 the items whose
    code is the code of the query, for table [k >= 1] the items whose
    [k]-th code from the generator is. *)
Theorem queryRehash_after_rehash `{ProbingGen} (idx : laItqLsh)
    (data : list (list float)) (numTables : Z) (domin : list float)
    (sc : Scanner) :
  Param.L (param idx) = 1 → 1 < numTables →
  trainedb idx 0 = true → forallb (vecb idx) data = true →
  vecb idx domin = true →
  ∃ (idx' : laItqLsh) (codes : list (list Z)) (c : Z),
    rehash idx data numTables = Ok idx'
    ∧ Forall2 (fun v cs => itemCodes idx v (Z.to_nat numTables) = Ok cs)
              data codes
    ∧ getHashVal idx 0 domin = Ok c
    ∧ queryRehash idx' domin sc
      = Ok (mkScanner domin
              (map (fun k => (k, c)) (seq 0 (Z.to_nat numTables)))
              (concat (map (fun k => postingsFrom k 0 codes c)
                         (seq 0 (Z.to_nat numTables))))
              true).
Proof.
  intros HL HT Ht Hdata Hv.
  destruct (getHashFloats_Ok idx 0 domin Ht Hv) as (fs & _ & _ & _ & Ec).
  set (c := packProducts fs) in *.
  set (ts0 := (replicate (Z.to_nat numTables) [] : list bucketMap)).
  assert (Hts0 : length ts0 = Z.to_nat numTables) by apply length_replicate.
  assert (Hts0k : ∀ k, (k < Z.to_nat numTables)%nat →
                       ts0 !! k = Some ([] : bucketMap))
    by (intros k Hk; by apply lookup_replicate_2).
  destruct (rehash_outer idx data (Z.to_nat numTables) Ht Hdata ltac:(lia)
              (length data) 0 ts0 ltac:(lia) Hts0)
    as (codes & Hcodes & Eloop).
  rewrite drop_0 in Hcodes.
  assert (Hlens : Forall (fun cs => length cs = length ts0) codes).
  { rewrite Hts0.
    clear -Hcodes. induction Hcodes as [|v cs data codes [_ Hl] _ IH];
      constructor; done. }
  set (idx' := set_tables idx (fold_idx fileItem 0 codes ts0)).
  assert (Hlen' : length (tables idx') = Z.to_nat numTables).
  { unfold idx'. cbn [set_tables tables].
    by rewrite (fileItem_fold_length codes 0 ts0 Hlens). }
  exists idx', codes, c. split.
  { rewrite rehash_unfold.
    replace (numTables =? 1) with false by lia.
    replace (numTables <? 0) with false by lia. exact Eloop. }
  split.
  { eapply Forall2_impl; [exact Hcodes|]. cbn beta. by intros v cs [E _]. }
  split; [exact Ec|].
  assert (Hmap : map (fun tbl : bucketMap => default [] (bm_find tbl c))
                   (tables idx')
                 = map (fun k => postingsFrom k 0 codes c)
                     (seq 0 (Z.to_nat numTables))).
  { apply list_eq. intros k. rewrite !list_lookup_fmap.
    destruct (decide (k < Z.to_nat numTables)%nat) as [Hk|Hk].
    - unfold idx'. cbn [set_tables tables].
      rewrite (fileItem_fold_lookup codes 0 ts0 k [] Hlens (Hts0k k Hk)).
      rewrite lookup_seq_lt by done. cbn [fmap option_fmap option_map].
      f_equal.
      destruct (push_fold_find k codes 0 []) as [_ Hfind]; [constructor|].
      rewrite Hfind. cbn [bm_find Nat.add].
      apply default_merge_postings_None.
    - rewrite (lookup_ge_None_2 (tables idx')) by lia.
      by rewrite lookup_seq_ge by lia. }
  unfold queryRehash.
  change (Param.L (param idx')) with (Param.L (param idx)). rewrite HL.
  cbn [Z.eqb Pos.eqb assert_]. rewrite ret_bind.
  change (getHashVal idx' 0 domin) with (getHashVal idx 0 domin).
  rewrite Ec, ret_bind.
  rewrite (queryRehash_loop idx' c HL) by lia.
  rewrite ret_bind, drop_0, Hlen', Hmap. reflexivity.
Qed.

Lemma queryRehash_after_rehash_witness :
  ∃ (idx' : laItqLsh) (codes : list (list Z)) (c : Z),
    @rehash (specProbing normalize_x4) idx_2bit data_2bit 2 = Ok idx'
    ∧ Forall2 (fun v cs =>
                 @itemCodes (specProbing normalize_x4) idx_2bit v (Z.to_nat 2)
                 = Ok cs)
              data_2bit codes
    ∧ getHashVal idx_2bit 0 [f_one; f_minus_one] = Ok c
    ∧ queryRehash idx' [f_one; f_minus_one] sc_init
      = Ok (mkScanner [f_one; f_minus_one]
              (map (fun k => (k, c)) (seq 0 (Z.to_nat 2)))
              (concat (map (fun k => postingsFrom k 0 codes c)
                         (seq 0 (Z.to_nat 2))))
              true).
Proof.
  apply (@queryRehash_after_rehash (specProbing normalize_x4) idx_2bit
           data_2bit 2 [f_one; f_minus_one] sc_init);
    first [reflexivity | lia].
Defined.
(** * [reset] and the sample of [train] *)

Lemma counter_draw_range (a b g : Z) :
  a ≤ b → a ≤ fst (counter_draw a b g) ≤ b.
Proof.
  intros Hab. unfold counter_draw. cbn [fst].
  pose proof (Z.mod_pos_bound g (b - a + 1) ltac:(lia)). lia.
Qed.

#[local] Instance counterSource : RandomSource :=
  {| rng := Z; uniform_int := counter_draw;
     uniform_int_range := counter_draw_range |}.

Lemma push_draws_spec `{RandomSource} (n : nat) (b : Z) (row : list Z)
    (g : rng) :
  0 ≤ b →
  ∃ xs, fst (push_draws n b row g) = row ++ xs
        ∧ length xs = n
        ∧ Forall (fun x => 0 ≤ x ≤ b) xs.
Proof.
  intros Hb. revert row g. induction n as [|n IH]; intros row g.
  - exists []. cbn [push_draws fst]. by rewrite app_nil_r.
  - cbn [push_draws].
    pose proof (uniform_int_range 0 b g Hb) as Hx.
    destruct (uniform_int 0 b g) as [x g1]. cbn [fst] in Hx.
    destruct (IH (row ++ [x]) g1) as (xs & E & Hl & Hr).
    exists (x :: xs). rewrite E, <- app_assoc. split; [done|].
    split; [cbn [length]; lia|]. by constructor.
Qed.

Lemma fill_rows_spec `{RandomSource} (n : nat) (b : Z)
    (rows : list (list Z)) (g : rng) :
  0 ≤ b →
  Forall2 (fun old new => ∃ xs, new = old ++ xs ∧ length xs = n
                                ∧ Forall (fun x => 0 ≤ x ≤ b) xs)
          rows (fst (fill_rows n b rows g)).
Proof.
  intros Hb. revert g. induction rows as [|row rows IH]; intros g.
  - constructor.
  - cbn [fill_rows].
    destruct (push_draws_spec n b row g Hb) as (xs & E & Hl & Hr).
    destruct (push_draws n b row g) as [row' g1]. cbn [fst] in E.
    specialize (IH g1). destruct (fill_rows n b rows g1) as [rows' g2].
    cbn [fst] in *. constructor; [|exact IH]. by exists xs.
Qed.

Lemma resize_same {A : Type} (x : A) (v : list A) :
  resize_ (length v) x v = v.
Proof.
  unfold resize_. rewrite Nat.sub_diag, firstn_all. cbn [replicate].
  by rewrite app_nil_r.
Qed.

Lemma wrap32_nonneg z : 0 ≤ wrap32 z.
Proof. unfold wrap32. apply Z.mod_pos_bound. lia. Qed.

(** X18.  [reset] on a default-constructed index leaves [L] empty tables,
    [L] empty projection and rotation matrices, and [L] arrays of exactly
    [N] random numbers, each in the range [0 .. M - 1] computed on
    [unsigned]; the parameters are the ones given. *)
Theorem reset_fresh_index `{RandomSource} (p0 param_ : Param.t)
    (seed : rng) :
  let idx := reset (fresh p0) param_ seed in
  let l := Z.to_nat (Param.L param_) in
  param idx = param_
  ∧ tables idx = replicate l []
  ∧ pcsAll idx = replicate l []
  ∧ omegasAll idx = replicate l []
  ∧ length (rndArray idx) = l
  ∧ Forall (fun row => length row = Z.to_nat (Param.N param_)
                       ∧ Forall (fun x => 0 ≤ x ≤ wrap32 (Param.M param_ - 1))
                                row)
           (rndArray idx).
Proof.
  cbv zeta. unfold reset, fresh, resize_.
  cbn [param tables pcsAll omegasAll rndArray length].
  rewrite !take_nil, !Nat.sub_0_r. cbn [app]. do 4 (split; [reflexivity|]).
  pose proof (fill_rows_spec (Z.to_nat (Param.N param_))
                (wrap32 (Param.M param_ - 1))
                (replicate (Z.to_nat (Param.L param_)) []) seed
                (wrap32_nonneg _)) as Hrows.
  split.
  - apply Forall2_length in Hrows. rewrite length_replicate in Hrows.
    by rewrite <- Hrows.
  - apply Forall_forall. intros row Hrow.
    apply list_elem_of_lookup in Hrow as [i Hi].
    destruct (Forall2_lookup_r _ _ _ _ _ Hrows Hi)
      as (old & Hold & xs & -> & Hl & Hr).
    apply lookup_replicate in Hold as [-> _]. done.
Qed.

(** X19.  [reset] clears nothing: on an index that holds [L] tables
    already, it leaves the buckets and both matrix families as they are,
    and every array of [rndArray] keeps its entries and grows by [N] random
    numbers. *)
Theorem reset_keeps_contents `{RandomSource} (idx : laItqLsh)
    (param_ : Param.t) (seed : rng) :
  length (tables idx) = Z.to_nat (Param.L param_) →
  length (pcsAll idx) = Z.to_nat (Param.L param_) →
  length (omegasAll idx) = Z.to_nat (Param.L param_) →
  length (rndArray idx) = Z.to_nat (Param.L param_) →
  tables (reset idx param_ seed) = tables idx
  ∧ pcsAll (reset idx param_ seed) = pcsAll idx
  ∧ omegasAll (reset idx param_ seed) = omegasAll idx
  ∧ Forall2 (fun old new =>
               take (length old) new = old
               ∧ length new = (length old + Z.to_nat (Param.N param_))%nat)
            (rndArray idx) (rndArray (reset idx param_ seed)).
Proof.
  intros Ht Hp Ho Hr. unfold reset.
  cbn [tables pcsAll omegasAll rndArray].
  rewrite <- Ht at 1. rewrite <- Hp at 1. rewrite <- Ho at 1.
  rewrite <- Hr at 1. rewrite !resize_same.
  do 3 (split; [reflexivity|]).
  eapply Forall2_impl;
    [apply (fill_rows_spec _ _ _ _ (wrap32_nonneg _))|].
  cbn beta. intros old new (xs & -> & Hl & _). split.
  - by rewrite take_app_length.
  - rewrite length_app. lia.
Qed.

Lemma reset_keeps_contents_witness :
  tables (reset idx_2bit_hashed (Param.mk 521 1 2 2 4 10) 0)
  = tables idx_2bit_hashed
  ∧ pcsAll (reset idx_2bit_hashed (Param.mk 521 1 2 2 4 10) 0)
    = pcsAll idx_2bit_hashed
  ∧ omegasAll (reset idx_2bit_hashed (Param.mk 521 1 2 2 4 10) 0)
    = omegasAll idx_2bit_hashed
  ∧ Forall2 (fun old new =>
               take (length old) new = old
               ∧ length new
                 = (length old
                    + Z.to_nat (Param.N (Param.mk 521 1 2 2 4 10)))%nat)
            (rndArray idx_2bit_hashed)
            (rndArray (reset idx_2bit_hashed (Param.mk 521 1 2 2 4 10) 0)).
Proof.
  apply (@reset_keeps_contents counterSource idx_2bit_hashed
           (Param.mk 521 1 2 2 4 10) 0); reflexivity.
Defined.

(** ** The sample of [train] *)

Lemma train_sample_unfold `{RandomSource} (fuel : nat) (size S : Z)
    (g : rng) :
  train_sample fuel size S g
  = while_ fuel (ts_cond S) (ts_body size) ([], g).
Proof. reflexivity. Qed.

Lemma ts_body_unfold `{RandomSource} (size : Z) (seqs : list Z) (g : rng) :
  ts_body size (seqs, g)
  = Ok (if existsb (Z.eqb (fst (uniform_int 0 (wrap32 (size - 1)) g))) seqs
        then seqs
        else seqs ++ [fst (uniform_int 0 (wrap32 (size - 1)) g)],
        snd (uniform_int 0 (wrap32 (size - 1)) g)).
Proof.
  unfold ts_body. by destruct (uniform_int 0 (wrap32 (size - 1)) g).
Qed.

Lemma existsb_eqb_false (x : Z) (l : list Z) :
  existsb (Z.eqb x) l = false → x ∉ l.
Proof.
  intros E Hin. apply list_elem_of_In in Hin.
  assert (existsb (Z.eqb x) l = true); [|congruence].
  apply existsb_exists. exists x. split; [done | apply Z.eqb_refl].
Qed.

Lemma sample_ok_length (size : Z) (seqs : list Z) :
  0 ≤ size → sample_ok size seqs → Z.of_nat (length seqs) ≤ size.
Proof.
  intros Hs [Hnd Hr].
  assert (Hsub : seqs ⊆+ (Z.of_nat <$> seq 0 (Z.to_nat size))).
  { apply NoDup_submseteq; [done|]. intros x Hx.
    rewrite Forall_forall in Hr. specialize (Hr x Hx).
    apply list_elem_of_fmap. exists (Z.to_nat x). split; [lia|].
    apply list_elem_of_In, in_seq. lia. }
  apply submseteq_length in Hsub.
  rewrite length_fmap, length_seq in Hsub. lia.
Qed.

Lemma ts_body_sample_ok `{RandomSource} (size : Z) (seqs : list Z) (g : rng)
    (st : list Z * rng) :
  1 ≤ size ≤ 2 ^ 32 → sample_ok size seqs →
  ts_body size (seqs, g) = Ok st → sample_ok size (fst st).
Proof.
  intros Hsize [Hnd Hr] E. rewrite ts_body_unfold in E. injection E as <-.
  cbn [fst].
  pose proof (uniform_int_range 0 (wrap32 (size - 1)) g (wrap32_nonneg _))
    as Hx.
  rewrite wrap32_small in Hx by lia.
  rewrite wrap32_small by lia.
  destruct (existsb _ seqs) eqn:Ex; [by split|].
  apply existsb_eqb_false in Ex. split.
  - apply NoDup_app. split; [done|]. split; [|apply NoDup_singleton].
    intros x Hx1 Hx2. apply list_elem_of_singleton in Hx2. by subst.
  - apply Forall_app. split; [done|]. constructor; [lia | constructor].
Qed.

Lemma ts_loop_never_ends `{RandomSource} (size S : Z) :
  1 ≤ size ≤ 2 ^ 32 → size < S →
  ∀ (fuel : nat) (seqs : list Z) (g : rng),
    sample_ok size seqs →
    while_ fuel (ts_cond S) (ts_body size) (seqs, g) = OutOfFuel.
Proof.
  intros Hsize HS. induction fuel as [|fuel IH]; intros seqs g Hok;
    pose proof (sample_ok_length size seqs ltac:(lia) Hok) as Hlen;
    rewrite while_unfold; cbn [ts_cond]; rewrite ret_bind;
    replace (Z.of_nat (length seqs) =? S) with false by lia; cbn [negb];
    [done|].
  pose proof (ts_body_sample_ok size seqs g) as Hstep.
  destruct (ts_body size (seqs, g)) as [[seqs1 g1]| | |] eqn:E;
    try (rewrite ts_body_unfold in E; discriminate).
  rewrite ret_bind. apply IH. by apply (Hstep (seqs1, g1)).
Qed.

(** X20.  When the sample size [S] exceeds the size of a data set that is
    not empty, the sampling loop of [train] never ends, whatever the random
    numbers: every bound on the number of its iterations is exceeded. *)
Theorem train_sample_never_ends `{RandomSource} (size S : Z) (fuel : nat)
    (g : rng) :
  1 ≤ size ≤ 2 ^ 32 → size < S →
  train_sample fuel size S g = OutOfFuel.
Proof.
  intros Hsize HS. rewrite train_sample_unfold.
  apply ts_loop_never_ends; [done | done |].
  split; [apply NoDup_nil_2 | constructor].
Qed.

Lemma train_sample_never_ends_witness :
  @train_sample counterSource 1000 5 6 0 = OutOfFuel.
Proof.
  apply (@train_sample_never_ends counterSource 5 6 1000 0); lia.
Defined.

Lemma while_exit {St : Type} (fuel : nat) (cond : St → result bool)
    (body : St → result St) (s s' : St) :
  while_ fuel cond body s = Ok s' → cond s' = Ok false.
Proof.
  revert s. induction fuel as [|fuel IH]; intros s E;
    rewrite while_unfold in E; apply bind_Ok in E as (c & Ec & E);
    destruct c; try discriminate; try (by injection E as <-).
  apply bind_Ok in E as (s1 & _ & E). by apply (IH s1).
Qed.

(** X21.  When the sampling loop of [train] ends, on a data set that is
    not empty, the sample holds exactly [S] sequence numbers of the data
    set, no two of them equal; so [S] is at most the size of the data
    set. *)
Theorem train_sample_distinct `{RandomSource} (size S : Z) (fuel : nat)
    (g g' : rng) (seqs : list Z) :
  1 ≤ size ≤ 2 ^ 32 →
  train_sample fuel size S g = Ok (seqs, g') →
  NoDup seqs
  ∧ Z.of_nat (length seqs) = S
  ∧ Forall (fun x => 0 ≤ x < size) seqs
  ∧ S ≤ size.
Proof.
  intros Hsize E. rewrite train_sample_unfold in E.
  assert (Hok : sample_ok size (fst (seqs, g'))).
  { revert E. apply (while_preserves (fun st => sample_ok size (fst st))).
    - intros [seqs0 g0] st' Hs0 E. by apply (ts_body_sample_ok size seqs0 g0).
    - split; [apply NoDup_nil_2 | constructor]. }
  apply while_exit in E. cbn [ts_cond] in E. injection E as E.
  apply negb_false_iff, Z.eqb_eq in E. cbn [fst] in Hok.
  pose proof (sample_ok_length size seqs ltac:(lia) Hok).
  destruct Hok as [Hnd Hr]. repeat split; [done | done | done | lia].
Qed.

Lemma train_sample_distinct_witness :
  NoDup [0; 1; 2]
  ∧ Z.of_nat (length [0; 1; 2]) = 3
  ∧ Forall (fun x => 0 ≤ x < 5) [0; 1; 2]
  ∧ 3 ≤ 5.
Proof.
  apply (@train_sample_distinct counterSource 5 3 10 0 3 [0; 1; 2]);
    [lia | reflexivity].
Defined.
(** * [getMeanAndSTD] *)

Lemma at_replicate {A : Type} (n i : nat) (x : A) :
  (i < n)%nat → at_ (replicate n x) i = Ok x.
Proof. intros Hi. apply at_Ok. by apply lookup_replicate_2. Qed.

Lemma ms_mean_body_unfold (cntP cntN : list Z) (i : nat)
    (sumP sumN : list float) :
  ms_mean_body cntP cntN i (sumP, sumN)
  = (cp ← at_ cntP i;
     sumP' ← (if cp =? 0 then Ok sumP
              else s ← at_ sumP i;
                   Ok (<[i := fdiv s (float_of_int cp)]> sumP));
     cn ← at_ cntN i;
     sumN' ← (if cn =? 0 then Ok sumN
              else s ← at_ sumN i;
                   Ok (<[i := fdiv s (float_of_int cn)]> sumN));
     Ok (sumP', sumN')).
Proof. reflexivity. Qed.

Lemma ms_std_body_unfold (cntP cntN : list Z) (i : nat)
    (stdP stdN : list float) :
  ms_std_body cntP cntN i (stdP, stdN)
  = (cp ← at_ cntP i;
     s ← at_ stdP i;
     _ ← assert_ (flt fzero
                    (fsqrt (if cp =? 0 then s
                            else fdiv s (float_of_int cp))));
     cn ← at_ cntN i;
     t ← at_ stdN i;
     _ ← assert_ (flt fzero
                    (fsqrt (if cn =? 0 then t
                            else fdiv t (float_of_int cn))));
     Ok (<[i := fsqrt (if cp =? 0 then s
                       else fdiv s (float_of_int cp))]> stdP,
         <[i := fsqrt (if cn =? 0 then t
                       else fdiv t (float_of_int cn))]> stdN)).
Proof. reflexivity. Qed.

Lemma getMeanAndSTD_unfold idx data :
  getMeanAndSTD idx data
  = if 2 ^ 31 <=? Param.N (param idx) then Undefined else
    st ← foreach_ data (ms_sum_item idx)
           (replicate (Z.to_nat (Param.N (param idx))) fzero,
            replicate (Z.to_nat (Param.N (param idx))) fzero,
            replicate (Z.to_nat (Param.N (param idx))) 0,
            replicate (Z.to_nat (Param.N (param idx))) 0);
    means ← for_ (Z.to_nat (Param.N (param idx))) 0
              (ms_mean_body st.1.2 st.2) (st.1.1.1, st.1.1.2);
    devs ← foreach_ data (ms_sq_item idx means.1 means.2)
             (replicate (Z.to_nat (Param.N (param idx))) fzero,
              replicate (Z.to_nat (Param.N (param idx))) fzero);
    stds ← for_ (Z.to_nat (Param.N (param idx))) 0
             (ms_std_body st.1.2 st.2) devs;
    Ok [means.1; means.2; stds.1; stds.2].
Proof.
  unfold getMeanAndSTD. destruct (2 ^ 31 <=? Param.N (param idx)); [done|].
  destruct (foreach_ data (ms_sum_item idx) _) as [[[[sP sN] cP] cN]| | |];
    try done.
  cbn [mbind result_bind fst snd].
  destruct (for_ _ 0 (ms_mean_body cP cN) _) as [[mP mN]| | |]; try done.
  cbn [mbind result_bind fst snd].
  destruct (foreach_ data (ms_sq_item idx mP mN) _) as [[dP dN]| | |];
    try done.
  cbn [mbind result_bind fst snd].
  by destruct (for_ _ 0 (ms_std_body cP cN) _) as [[sp sn]| | |].
Qed.

Lemma ms_mean_zero_counts (n : nat) :
  ∀ (m from : nat) (sumP sumN : list float),
    (from + m ≤ n)%nat →
    for_ m from (ms_mean_body (replicate n 0) (replicate n 0)) (sumP, sumN)
    = Ok (sumP, sumN).
Proof.
  induction m as [|m IH]; intros from sumP sumN Hm; [done|].
  cbn [for_]. rewrite ms_mean_body_unfold.
  rewrite !at_replicate by lia. rewrite !ret_bind. cbn [Z.eqb].
  rewrite !ret_bind. apply IH. lia.
Qed.

(** X22.  On an empty data set, with a code length of at least one bit,
    [getMeanAndSTD] fails its assertion on the first deviation, which is
    the square root of zero; [setMeanAndSTD] fails with it. *)
Theorem getMeanAndSTD_empty_data (idx : laItqLsh) :
  1 ≤ Param.N (param idx) < 2 ^ 31 →
  getMeanAndSTD idx [] = AssertFail ∧ setMeanAndSTD idx [] = AssertFail.
Proof.
  intros HN.
  assert (E : getMeanAndSTD idx [] = AssertFail).
  { rewrite getMeanAndSTD_unfold.
    replace (2 ^ 31 <=? Param.N (param idx)) with false by lia.
    cbn [foreach_]. rewrite ret_bind. cbn [fst snd].
    rewrite ms_mean_zero_counts by lia. rewrite ret_bind. cbn [fst snd].
    rewrite ret_bind.
    destruct (Z.to_nat (Param.N (param idx))) as [|n] eqn:En; [lia|].
    cbn [for_]. rewrite ms_std_body_unfold.
    rewrite !at_replicate by lia. rewrite !ret_bind. cbn [Z.eqb].
    reflexivity. }
  split; [exact E|]. unfold setMeanAndSTD. by rewrite E.
Qed.

Lemma getMeanAndSTD_empty_data_witness :
  getMeanAndSTD idx_2bit [] = AssertFail
  ∧ setMeanAndSTD idx_2bit [] = AssertFail.
Proof.
  apply (getMeanAndSTD_empty_data idx_2bit). simpl. lia.
Defined.

(** ** What a returned result tells of the data set *)

Lemma foreach_preserves {A St : Type} (P : St → Prop) (l : list A)
    (body : A → St → result St) (s s' : St) :
  (∀ x s s', x ∈ l → P s → body x s = Ok s' → P s') →
  P s → foreach_ l body s = Ok s' → P s'.
Proof.
  revert s. induction l as [|x l IH]; intros s Hb Hs E.
  - cbn [foreach_] in E. by injection E as <-.
  - cbn [foreach_] in E. apply bind_Ok in E as (s1 & E1 & E).
    apply (IH s1); [|by apply (Hb x s); [left|..]|exact E].
    intros y t t' Hy. apply Hb. by right.
Qed.

Lemma for_preserves_idx {St : Type} (P : nat → St → Prop) (n from : nat)
    (body : nat → St → result St) (s s' : St) :
  (∀ i s s', (from ≤ i < from + n)%nat → P i s → body i s = Ok s' →
             P (Datatypes.S i) s') →
  P from s → for_ n from body s = Ok s' → P (from + n)%nat s'.
Proof.
  revert from s. induction n as [|n IH]; intros from s Hb Hs E.
  - cbn [for_] in E. injection E as <-. by rewrite Nat.add_0_r.
  - cbn [for_] in E. apply bind_Ok in E as (s1 & E1 & E).
    rewrite Nat.add_succ_r, <- Nat.add_succ_l.
    apply (IH (Datatypes.S from) s1); [| |exact E].
    + intros i t t' Hi. apply Hb. lia.
    + apply (Hb from s); [lia | done | done].
Qed.

Lemma assert_Ok (b : bool) (u : unit) : assert_ b = Ok u → b = true.
Proof. by destruct b. Qed.

Lemma sign_seenb_intro idx (data : list (list float)) (v fs : list float)
    (i : nat) (x : float) (b : bool) :
  v ∈ data → getHashFloats idx 0 v = Ok fs → fs !! i = Some x →
  fle fzero x = b → sign_seenb idx data i b = true.
Proof.
  intros Hv Efs Hx Hb. unfold sign_seenb. apply existsb_exists.
  exists v. split; [by apply list_elem_of_In|].
  rewrite Efs, Hx, Hb. by destruct b.
Qed.

Lemma ms_sum_body_inv idx (data : list (list float)) (v fs : list float)
    (hfIdx : nat) (st st' : list float * list float * list Z * list Z) :
  v ∈ data → getHashFloats idx 0 v = Ok fs →
  counts_inv idx data st → ms_sum_body fs hfIdx st = Ok st' →
  counts_inv idx data st'.
Proof.
  intros Hv Efs [HP HN] E. destruct st as [[[sP sN] cP] cN].
  cbn [fst snd] in HP, HN. unfold ms_sum_body in E.
  apply bind_Ok in E as (x & Ex & E). apply at_Ok in Ex.
  destruct (fle fzero x) eqn:Ef.
  - apply bind_Ok in E as (s & _ & E). apply bind_Ok in E as (c & _ & E).
    injection E as <-. split; cbn [fst snd]; [|exact HN].
    intros i c' Hi Hc'. destruct (decide (i = hfIdx)) as [->|Hne].
    + by apply (sign_seenb_intro idx data v fs hfIdx x).
    + rewrite list_lookup_insert_ne in Hi by done. by apply (HP i c').
  - apply bind_Ok in E as (s & _ & E). apply bind_Ok in E as (c & _ & E).
    injection E as <-. split; cbn [fst snd]; [exact HP|].
    intros i c' Hi Hc'. destruct (decide (i = hfIdx)) as [->|Hne].
    + by apply (sign_seenb_intro idx data v fs hfIdx x).
    + rewrite list_lookup_insert_ne in Hi by done. by apply (HN i c').
Qed.

Lemma ms_sq_body_inv idx (data : list (list float)) (n : nat)
    (mP mN v fs : list float) (hfIdx : nat)
    (st st' : list float * list float) :
  v ∈ data → getHashFloats idx 0 v = Ok fs →
  devs_inv idx data n st → ms_sq_body mP mN fs hfIdx st = Ok st' →
  devs_inv idx data n st'.
Proof.
  intros Hv Efs (HlP & HlN & HP & HN) E. destruct st as [dP dN].
  cbn [fst snd] in HlP, HlN, HP, HN. unfold ms_sq_body in E.
  apply bind_Ok in E as (x & Ex & E). apply at_Ok in Ex.
  destruct (fle fzero x) eqn:Ef.
  - apply bind_Ok in E as (m & _ & E). apply bind_Ok in E as (s & _ & E).
    injection E as <-. unfold devs_inv. cbn [fst snd].
    rewrite length_insert. do 2 (split; [done|]). split; [|exact HN].
    intros i s' Hi Hs'. destruct (decide (i = hfIdx)) as [->|Hne].
    + by apply (sign_seenb_intro idx data v fs hfIdx x).
    + rewrite list_lookup_insert_ne in Hi by done. by apply (HP i s').
  - apply bind_Ok in E as (m & _ & E). apply bind_Ok in E as (s & _ & E).
    injection E as <-. unfold devs_inv. cbn [fst snd].
    rewrite length_insert. do 2 (split; [done|]). split; [exact HP|].
    intros i s' Hi Hs'. destruct (decide (i = hfIdx)) as [->|Hne].
    + by apply (sign_seenb_intro idx data v fs hfIdx x).
    + rewrite list_lookup_insert_ne in Hi by done. by apply (HN i s').
Qed.

Lemma float_eq_dec (x y : float) : {x = y} + {x ≠ y}.
Proof. repeat decide equality. Defined.

(** The assertion on a deviation tells that its side saw an item. *)
Lemma deviation_positive_seen idx (data : list (list float)) (i : nat)
    (b : bool) (cnt : list Z) (devs : list float) (c : Z) (s : float) :
  (∀ (i : nat) (c : Z), cnt !! i = Some c → c ≠ 0 →
     sign_seenb idx data i b = true) →
  (∀ (i : nat) (s : float), devs !! i = Some s → s ≠ fzero →
     sign_seenb idx data i b = true) →
  cnt !! i = Some c → devs !! i = Some s →
  flt fzero (fsqrt (if c =? 0 then s else fdiv s (float_of_int c))) = true →
  sign_seenb idx data i b = true.
Proof.
  intros Hc Hd Ec Es Ha. destruct (c =? 0) eqn:E0.
  - destruct (float_eq_dec s fzero) as [->|Hne]; [discriminate Ha|].
    by apply (Hd i s).
  - apply (Hc i c); [done | lia].
Qed.

Lemma ms_std_body_inv idx (data : list (list float)) (cP cN : list Z)
    (dP dN : list float) (n i : nat) (st st' : list float * list float) :
  counts_inv idx data (dP, dN, cP, cN) → devs_inv idx data n (dP, dN) →
  std_inv idx data dP dN i st → ms_std_body cP cN i st = Ok st' →
  std_inv idx data dP dN (Datatypes.S i) st'.
Proof.
  intros [HcP HcN] (_ & _ & HdP & HdN) (HlP & HlN & Hlow & Hhigh) E.
  cbn [fst snd] in HcP, HcN, HdP, HdN.
  destruct st as [sp sn]. cbn [fst snd] in HlP, HlN, Hlow, Hhigh.
  rewrite ms_std_body_unfold in E.
  apply bind_Ok in E as (cp & Ecp & E). apply at_Ok in Ecp.
  apply bind_Ok in E as (s & Es & E). apply at_Ok in Es.
  apply bind_Ok in E as ([] & Ea & E). apply assert_Ok in Ea.
  apply bind_Ok in E as (cn & Ecn & E). apply at_Ok in Ecn.
  apply bind_Ok in E as (t & Et & E). apply at_Ok in Et.
  apply bind_Ok in E as ([] & Eb & E). apply assert_Ok in Eb.
  injection E as <-.
  destruct (Hhigh i ltac:(lia)) as [HsP HsN].
  assert (HseenP : sign_seenb idx data i true = true).
  { apply (deviation_positive_seen idx data i true cP dP cp s); try done.
    by rewrite <- HsP. }
  assert (HseenN : sign_seenb idx data i false = true).
  { apply (deviation_positive_seen idx data i false cN dN cn t); try done.
    by rewrite <- HsN. }
  unfold std_inv. cbn [fst snd]. rewrite !length_insert.
  do 2 (split; [done|]). split.
  - intros k Hk. destruct (decide (k = i)) as [->|Hne].
    + split; [|split; [|done]].
      * eexists. split; [|exact Ea]. apply list_lookup_insert_eq.
        by apply lookup_lt_Some in Es.
      * eexists. split; [|exact Eb]. apply list_lookup_insert_eq.
        by apply lookup_lt_Some in Et.
    + rewrite !list_lookup_insert_ne by done. apply Hlow. lia.
  - intros k Hk. rewrite !list_lookup_insert_ne by lia. apply Hhigh. lia.
Qed.

(** X23.  When [getMeanAndSTD] returns, it returns the two rows of means
    and the two rows of deviations, the deviations are [N] values greater
    than zero on each side, and for every coordinate the data set holds a
    vector whose rotated coordinate tests [>= 0] and a vector whose rotated
    coordinate does not: a data set without both signs at every bit makes
    the function fail. *)
Theorem getMeanAndSTD_needs_both_signs (idx : laItqLsh)
    (data : list (list float)) (stats : list (list float)) :
  getMeanAndSTD idx data = Ok stats →
  ∃ mp mn sp sn : list float,
    stats = [mp; mn; sp; sn]
    ∧ length sp = Z.to_nat (Param.N (param idx))
    ∧ length sn = Z.to_nat (Param.N (param idx))
    ∧ Forall (fun x => flt fzero x = true) sp
    ∧ Forall (fun x => flt fzero x = true) sn
    ∧ ∀ i : nat, (i < Z.to_nat (Param.N (param idx)))%nat →
        sign_seenb idx data i true = true
        ∧ sign_seenb idx data i false = true.
Proof.
  intros E. rewrite getMeanAndSTD_unfold in E.
  destruct (2 ^ 31 <=? Param.N (param idx)); [discriminate|].
  set (n := Z.to_nat (Param.N (param idx))) in *.
  apply bind_Ok in E as ([[[sP sN] cP] cN] & E1 & E). cbn [fst snd] in E.
  apply bind_Ok in E as ([mP mN] & _ & E). cbn [fst snd] in E.
  apply bind_Ok in E as ([dP dN] & E3 & E).
  apply bind_Ok in E as ([sp sn] & E4 & E). cbn [fst snd] in E.
  injection E as <-.
  assert (H1 : counts_inv idx data (sP, sN, cP, cN)).
  { revert E1. apply foreach_preserves.
    - intros v st st' Hv Hst Ev. unfold ms_sum_item in Ev.
      apply bind_Ok in Ev as (fs & Efs & Ev). revert Ev.
      apply for_preserves; [|exact Hst].
      intros k t t' Ht Ek. by apply (ms_sum_body_inv idx data v fs k t).
    - split; cbn [fst snd]; intros i c Hi Hc;
        apply lookup_replicate in Hi as [-> _]; done. }
  assert (H3 : devs_inv idx data n (dP, dN)).
  { revert E3. apply foreach_preserves.
    - intros v st st' Hv Hst Ev. unfold ms_sq_item in Ev.
      apply bind_Ok in Ev as (fs & Efs & Ev). revert Ev.
      apply for_preserves; [|exact Hst].
      intros k t t' Ht Ek.
      by apply (ms_sq_body_inv idx data n mP mN v fs k t).
    - unfold devs_inv. cbn [fst snd]. rewrite !length_replicate.
      do 2 (split; [done|]).
      split; intros i s Hi Hs; apply lookup_replicate in Hi as [-> _];
        done. }
  assert (H1' : counts_inv idx data (dP, dN, cP, cN)) by exact H1.
  assert (H4 : std_inv idx data dP dN (0 + n) (sp, sn)).
  { revert E4. apply for_preserves_idx.
    - intros i t t' _ Ht Ei.
      by apply (ms_std_body_inv idx data cP cN dP dN n i t).
    - unfold std_inv. cbn [fst snd]. do 2 (split; [done|]).
      split; [intros i Hi; lia | done]. }
  destruct H4 as (HlP & HlN & Hlow & _). cbn [fst snd] in HlP, HlN, Hlow.
  destruct H3 as (HdP & HdN & _). cbn [fst snd] in HdP, HdN.
  exists mP, mN, sp, sn. split; [done|].
  split; [lia|]. split; [lia|].
  split; [|split].
  - apply Forall_lookup. intros i x Hi.
    destruct (Hlow i) as [(x' & Hx' & Hpos) _].
    { apply lookup_lt_Some in Hi. lia. }
    rewrite Hi in Hx'. by injection Hx' as <-.
  - apply Forall_lookup. intros i x Hi.
    destruct (Hlow i) as (_ & (x' & Hx' & Hpos) & _).
    { apply lookup_lt_Some in Hi. lia. }
    rewrite Hi in Hx'. by injection Hx' as <-.
  - intros i Hi. by destruct (Hlow i ltac:(lia)) as (_ & _ & HP & HN).
Qed.

Lemma getMeanAndSTD_needs_both_signs_witness :
  ∃ mp mn sp sn : list float,
    stats_2bit = [mp; mn; sp; sn]
    ∧ length sp = Z.to_nat (Param.N (param idx_2bit))
    ∧ length sn = Z.to_nat (Param.N (param idx_2bit))
    ∧ Forall (fun x => flt fzero x = true) sp
    ∧ Forall (fun x => flt fzero x = true) sn
    ∧ ∀ i : nat, (i < Z.to_nat (Param.N (param idx_2bit)))%nat →
        sign_seenb idx_2bit data_stats i true = true
        ∧ sign_seenb idx_2bit data_stats i false = true.
Proof.
  apply (getMeanAndSTD_needs_both_signs idx_2bit data_stats stats_2bit).
  vm_compute. reflexivity.
Defined.
